(** * Grid-world value iteration (app.py, route [/train])

    A shallow embedding of the solver behind the [/train] route: the state
    space, the transition and reward function [step], synchronous value
    iteration, policy and Q-value extraction, the 1-based cell index and the
    greedy walk that reconstructs a path.

    Python floats are IEEE-754 binary64 numbers, and so are the primitive
    floats of the kernel: every arithmetic operation and comparison below is
    the one the interpreter performs, bit for bit.  Python integers are [Z].
    Dictionaries are finite maps, a missing key is the [KeyError] outcome. *)

From Stdlib Require Import ZArith List Lia Bool Floats.
From stdpp Require Import base gmap sets list sorting strings.

#[local] Set Warnings "-inexact-float,-clear-no-such-hyp".
#[local] Open Scope Z_scope.

(** ** Outcomes

    A run of the handler either returns a value or raises [KeyError] on a
    dictionary access.  [OutOfFuel] belongs to the model only: the walk of
    part 5 is a [while True] loop, embedded with a step budget. *)

Inductive outcome (A : Type) : Type :=
| Ok (a : A)
| KeyError
| OutOfFuel.
Arguments Ok {A} a.
Arguments KeyError {A}.
Arguments OutOfFuel {A}.

#[global] Instance outcome_ret : MRet outcome := λ A, Ok.
#[global] Instance outcome_bind : MBind outcome := λ A B f x,
  match x with
  | Ok a => f a
  | KeyError => KeyError
  | OutOfFuel => OutOfFuel
  end.

(** [d[k]] on a dictionary. *)
Definition getitem {K V} `{Countable K} (d : gmap K V) (k : K) : outcome V :=
  match d !! k with
  | Some v => Ok v
  | None => KeyError
  end.

(** A [for] loop over a list whose body may raise. *)
Fixpoint foldM {A S} (body : S → A → outcome S) (s : S) (l : list A) : outcome S :=
  match l with
  | [] => Ok s
  | x :: l' => s' ← body s x; foldM body s' l'
  end.

(** [range(n)]: empty when [n <= 0]. *)
Definition range (n : Z) : list Z := Z.of_nat <$> seq 0 (Z.to_nat n).

(** The two-argument builtin [max(a, b)]: [b] replaces [a] only when [b > a]. *)
Definition py_max (a b : float) : float := if (a <? b)%float then b else a.

(** ** Data *)

Abbreviation Cell := (Z * Z)%type.

Inductive Action : Set := U | D | L | R.

#[global] Instance Action_eq_dec : EqDecision Action.
Proof. solve_decision. Defined.

Definition actions : list Action := [U; D; L; R].

Definition gamma : float := 0.9%float.
Definition threshold : float := 1e-3%float.
Definition max_iterations : nat := 1000.

(** The unit offset of an action, as in the [if action == 'U': r -= 1 ...] chain. *)
Definition move (a : Action) (s : Cell) : Cell :=
  let '(r, c) := s in
  match a with
  | U => (r - 1, c)
  | D => (r + 1, c)
  | L => (r, c - 1)
  | R => (r, c + 1)
  end.

(** ** The solver, for a fixed grid *)

Section Solver.
Variable gridSize : Z.
Variable goalState : Cell.
Variable obstacle_set : gset Cell.

(** Lines 36-40: the valid states, row by row. *)
Definition valid_states : list Cell :=
  r ← range gridSize;
  c ← range gridSize;
  if decide ((r, c) ∉ obstacle_set) then [(r, c)] else [].

(** Lines 43-44. *)
Definition is_valid (s : Cell) : bool :=
  let '(r, c) := s in
  (0 <=? r) && (r <? gridSize) && (0 <=? c) && (c <? gridSize)
  && bool_decide ((r, c) ∉ obstacle_set).

(** Lines 47-64: the next state and the immediate reward. *)
Definition step (state : Cell) (action : Action) : Cell * float :=
  if decide (state = goalState) then (state, 0.0%float)
  else
    let n := move action state in
    if negb (is_valid n) then (state, (-1.0)%float)
    else if decide (n = goalState) then (n, 1.0%float)
    else (n, 0.0%float).

(** Part 1, lines 67-69: [V[s] = 0.0] for every valid state. *)
Definition init_V : gmap Cell float :=
  foldl (λ V s, <[s := 0.0%float]> V) ∅ valid_states.

(** Part 2, inner loop, lines 86-91: the running maximum of
    [reward + gamma * V[nxt]]. *)
Definition best_action_value (V : gmap Cell float) (s : Cell) : outcome float :=
  foldM (λ best a,
           let '(nxt, reward) := step s a in
           v ← getitem V nxt;
           let candidate_value := (reward + gamma * v)%float in
           Ok (if (best <? candidate_value)%float then candidate_value else best))
        neg_infinity actions.

(** Part 2, one round over [valid_states], lines 77-95: returns
    [(delta, new_V)]. *)
Definition sweep (V : gmap Cell float) : outcome (float * gmap Cell float) :=
  foldM (λ '(delta, new_V) s,
           if decide (s = goalState) then Ok (delta, <[s := 0.0%float]> new_V)
           else
             b ← best_action_value V s;
             let new_V := <[s := b]> new_V in
             nv ← getitem new_V s;
             ov ← getitem V s;
             Ok (py_max delta (abs (nv - ov)), new_V))
        (0.0%float, ∅) valid_states.

(** Part 2, lines 76-100: [for _ in range(max_iterations)] with its [break]. *)
Fixpoint value_iteration (n : nat) (V : gmap Cell float) : outcome (gmap Cell float) :=
  match n with
  | O => Ok V
  | S n' =>
      '(delta, new_V) ← sweep V;
      if (delta <? threshold)%float then Ok new_V
      else value_iteration n' new_V
  end.

(** Part 3, inner loop, lines 112-120: the running best action and its value. *)
Definition best_action (V : gmap Cell float) (s : Cell) : outcome (option Action * float) :=
  foldM (λ '(best_a, best_value) a,
           let '(nxt, reward) := step s a in
           v ← getitem V nxt;
           let val := (reward + gamma * v)%float in
           Ok (if (best_value <? val)%float then (Some a, val) else (best_a, best_value)))
        (None, neg_infinity) actions.

(** Part 3, lines 104-123: [policy] and [qValues], keyed by cell.  [best_a]
    starts as [None], so a policy value is an optional action. *)
Definition extract (V : gmap Cell float)
  : outcome (gmap Cell (option Action) * gmap Cell float) :=
  foldM (λ '(policy, qValues) s,
           if decide (s = goalState) then Ok (policy, <[s := 0.0%float]> qValues)
           else
             '(best_a, best_value) ← best_action V s;
             Ok (<[s := best_a]> policy, <[s := best_value]> qValues))
        (∅, ∅) valid_states.

(** Part 4, lines 126-131: the index of every cell of the square, counted
    from 1. *)
Definition idx_map_loop : gmap Cell Z * Z :=
  foldl (λ acc r,
           foldl (λ '(idx_map, idx_counter) c,
                    (<[(r, c) := idx_counter]> idx_map, idx_counter + 1))
                 acc (range gridSize))
        (∅, 1) (range gridSize).

Definition idx_map : gmap Cell Z := idx_map_loop.1.

(** Part 4, lines 134-143: [policy] and [qValues] keyed by index. *)
Definition reindex (policy : gmap Cell (option Action)) (qValues : gmap Cell float)
  : outcome (gmap Z (option Action) * gmap Z float) :=
  foldM (λ '(policy_idx, qValues_idx) s,
           s_idx ← getitem idx_map s;
           if decide (s = goalState) then Ok (policy_idx, <[s_idx := 0.0%float]> qValues_idx)
           else
             a ← getitem policy s;
             q ← getitem qValues s;
             Ok (<[s_idx := a]> policy_idx, <[s_idx := q]> qValues_idx))
        (∅, ∅) valid_states.

(** Lines 151-152. *)
Definition valid_for_path (s : Cell) : bool :=
  let '(r, c) := s in
  (0 <=? r) && (r <? gridSize) && (0 <=? c) && (c <? gridSize)
  && bool_decide ((r, c) ∉ obstacle_set).

(** The offset chain of the walk: a [None] action matches no branch. *)
Definition follow (a : option Action) (s : Cell) : Cell :=
  match a with
  | Some a => move a s
  | None => s
  end.

(** Part 5, lines 154-178: the [while True] loop; one unit of fuel per
    iteration.  Returns [(path, reachable)]. *)
Fixpoint walk (fuel : nat) (policy_idx : gmap Z (option Action))
    (path : list Z) (visited : gset Cell) (current : Cell)
  : outcome (list Z * bool) :=
  match fuel with
  | O => OutOfFuel
  | S fuel' =>
      i ← getitem idx_map current;
      let path := path ++ [i] in
      if decide (current = goalState) then Ok (path, true)
      else if decide (current ∈ visited) then Ok (path, false)
      else
        let visited := {[current]} ∪ visited in
        c_idx ← getitem idx_map current;
        match policy_idx !! c_idx with
        | None => Ok (path, false)
        | Some a =>
            let n := follow a current in
            if negb (valid_for_path n) then Ok (path, false)
            else walk fuel' policy_idx path visited n
        end
  end.
End Solver.

(** ** The handler *)

Record Request : Type := {
  req_gridSize : Z;
  startPos : Cell;
  goalPos : Cell;
  obstacles : list Cell
}.

Record Response : Type := {
  policy : gmap Z (option Action);
  qValues : gmap Z float;
  path : list Z;
  reachable : bool
}.

(** Iterations granted to the walk: one per cell of the square, plus the
    iteration that meets a visited cell. *)
Definition walk_fuel (gridSize : Z) : nat := Z.to_nat (gridSize * gridSize) + 1.

(** Lines 11-189, parts 1 to 6 in order. *)
Definition train (data : Request) : outcome Response :=
  let gridSize := req_gridSize data in
  let obstacle_set : gset Cell := list_to_set (obstacles data) in
  let startState := startPos data in
  let goalState := goalPos data in
  V ← value_iteration gridSize goalState obstacle_set max_iterations
        (init_V gridSize obstacle_set);
  '(policy, qValues) ← extract gridSize goalState obstacle_set V;
  '(policy_idx, qValues_idx) ← reindex gridSize goalState obstacle_set policy qValues;
  '(path, reachable) ← walk gridSize goalState obstacle_set (walk_fuel gridSize)
                         policy_idx [] ∅ startState;
  Ok {| policy := policy_idx; qValues := qValues_idx; path := path; reachable := reachable |}.

(** ** Specification vocabulary *)

(** A cell of the [gridSize] x [gridSize] square. *)
Definition in_bounds (gridSize : Z) (s : Cell) : Prop :=
  (0 ≤ s.1 < gridSize) ∧ (0 ≤ s.2 < gridSize).

#[global] Instance in_bounds_dec gridSize s : Decision (in_bounds gridSize s).
Proof. unfold in_bounds. apply _. Defined.

(** The 1-based row-major index of a cell. *)
Definition index (gridSize : Z) (s : Cell) : Z := s.1 * gridSize + s.2 + 1.

(** The unit offset of an action on (row, col). *)
Definition offset (a : Action) : Z * Z :=
  match a with
  | U => (-1, 0)
  | D => (1, 0)
  | L => (0, -1)
  | R => (0, 1)
  end.

Section Vocabulary.
Variables (N : Z) (goal : Cell) (obs : gset Cell).

(** The value of action [a] in state [s] under a snapshot [V]:
    [reward + gamma * V[nxt]]. *)
Definition q_value (V : gmap Cell float) (s : Cell) (a : Action) : float :=
  let '(nxt, reward) := step N goal obs s a in
  (reward + gamma * default 0.0%float (V !! nxt))%float.

(** A running best over a list of actions; a candidate replaces the best only
    when strictly greater. *)
Definition scan (q : Action → float) (l : list Action) (init : option Action * float)
  : option Action * float :=
  foldl (λ '(best_a, best_value) a,
           if (best_value <? q a)%float then (Some a, q a) else (best_a, best_value))
        init l.

(** The best action of a state and its value, over the four actions. *)
Definition greedy (V : gmap Cell float) (s : Cell) : option Action * float :=
  scan (q_value V s) actions (None, neg_infinity).

(** The Jacobi update: every new value is a function of the snapshot [V]. *)
Definition new_value (V : gmap Cell float) (s : Cell) : float :=
  if decide (s = goal) then 0.0%float else (greedy V s).2.

Definition jacobi (V : gmap Cell float) : gmap Cell float :=
  list_to_map ((λ s, (s, new_value V s)) <$> valid_states N obs).

(** The change of one state in one round, [abs(new_V[s] - V[s])]. *)
Definition change (V : gmap Cell float) (s : Cell) : float :=
  abs (new_value V s - default 0.0%float (V !! s)).

(** The largest change of a round, over the states other than the goal. *)
Definition delta_of (V : gmap Cell float) : float :=
  foldl py_max 0.0%float (change V <$> filter (λ s, s ≠ goal) (valid_states N obs)).

(** A value function defined on every valid state. *)
Definition covers (V : gmap Cell float) : Prop :=
  ∀ s, s ∈ valid_states N obs → is_Some (V !! s).

(** The snapshot after [k] rounds. *)
Definition snapshot (k : nat) : gmap Cell float :=
  Nat.iter k jacobi (init_V N obs).

End Vocabulary.

(** The cells of the square, as a set. *)
Definition cells (N : Z) : gset Cell := list_to_set (valid_states N ∅).

(** [trace N goal obs policy_idx c cs]: the list [cs] starts at the in-bounds
    cell [c], and each further cell is the valid cell that the policy entry of
    the cell before it, a cell other than the goal, leads to. *)
Inductive trace (N : Z) (goal : Cell) (obs : gset Cell)
    (policy_idx : gmap Z (option Action)) : Cell → list Cell → Prop :=
| trace_stop c :
    in_bounds N c → trace N goal obs policy_idx c [c]
| trace_move c a cs :
    in_bounds N c → c ≠ goal →
    policy_idx !! index N c = Some a →
    is_valid N obs (follow a c) = true →
    trace N goal obs policy_idx (follow a c) cs →
    trace N goal obs policy_idx c (c :: cs).

(** The obstacle set of a request, [set((o['row'], o['col']) for o in obstacles)]. *)
Definition obstacle_set_of (data : Request) : gset Cell := list_to_set (obstacles data).

(** The 3 x 3 grid without obstacles, from the top left to the bottom right. *)
Definition req33 : Request :=
  {| req_gridSize := 3; startPos := (0, 0); goalPos := (2, 2); obstacles := [] |}.

(** A 3 x 3 grid whose goal (2, 2) is walled off by obstacles at (1, 2) and (2, 1). *)
Definition req_walled : Request :=
  {| req_gridSize := 3; startPos := (0, 0); goalPos := (2, 2);
     obstacles := [(1, 2); (2, 1)] |}.

(** A 2 x 2 grid whose goal lies off the grid. *)
Definition req_goal_off : Request :=
  {| req_gridSize := 2; startPos := (0, 0); goalPos := (5, 5); obstacles := [] |}.

Definition manhattan (s t : Cell) : Z := Z.abs (s.1 - t.1) + Z.abs (s.2 - t.2).

(** What the handler hands to the caller about the path, when it returns. *)
Definition path_of (o : outcome Response) : option (list Z * bool) :=
  match o with
  | Ok resp => Some (path resp, reachable resp)
  | _ => None
  end.

(** Input the boundary is expected to refuse: a non-positive size, or a start
    or goal off the grid. *)
Definition invalid_input (data : Request) : Prop :=
  req_gridSize data ≤ 0
  ∨ ¬ in_bounds (req_gridSize data) (startPos data)
  ∨ ¬ in_bounds (req_gridSize data) (goalPos data).

(** The handler rejects invalid input: it returns no normal result on it. *)
Definition rejects_invalid_input : Prop :=
  ∀ data, invalid_input data → ∀ resp, train data ≠ Ok resp.

(** ** Vocabulary for floating-point comparisons *)

(** The place of a number on the extended real line, as a key compared
    lexicographically; [None] for NaN. *)
Definition sf_key (f : spec_float) : option (Z * Z * Z) :=
  match f with
  | S754_nan => None
  | S754_infinity true => Some (-2, 0, 0)
  | S754_infinity false => Some (2, 0, 0)
  | S754_zero _ => Some (0, 0, 0)
  | S754_finite false m e => Some (1, e, Z.pos m)
  | S754_finite true m e => Some (-1, - e, - Z.pos m)
  end.

Definition lex_lt (a b : Z * Z * Z) : Prop :=
  a.1.1 < b.1.1 ∨ (a.1.1 = b.1.1 ∧ (a.1.2 < b.1.2 ∨ (a.1.2 = b.1.2 ∧ a.2 < b.2))).

Definition key_lt (a b : option (Z * Z * Z)) : Prop :=
  match a, b with
  | Some a, Some b => lex_lt a b
  | _, _ => False
  end.

Definition key_le (a b : option (Z * Z * Z)) : Prop :=
  match a, b with
  | Some a, Some b => lex_lt a b ∨ (a.1.1 = b.1.1 ∧ a.1.2 = b.1.2 ∧ a.2 = b.2)
  | _, _ => False
  end.

Definition fkey (x : float) : option (Z * Z * Z) := sf_key (Prim2SF x).

(** A float that is neither NaN nor infinite. *)
Definition finite (x : float) : Prop :=
  (neg_infinity <? x)%float = true ∧ (x <? infinity)%float = true.

(** ** Vocabulary for the values of value iteration *)

(** The place of an action in the order in which the loops try them. *)
Definition rank (a : Action) : nat :=
  match a with
  | U => 0
  | D => 1
  | L => 2
  | R => 3
  end.

(** [a] attains the largest of the values [q], and is the first to do so:
    no value is greater, and every action tried before [a] has a strictly
    smaller value. *)
Definition earliest_max (q : Action → float) (a : Action) : Prop :=
  (∀ a', (q a' <=? q a)%float = true)
  ∧ (∀ a', (rank a' < rank a)%nat → (q a' <? q a)%float = true).

(** The value of a move into a wall or an obstacle from a state of value [v]. *)
Definition bump (v : float) : float := (-1.0 + gamma * v)%float.

(** The value of a plain move to a state of value [v]. *)
Definition advance (v : float) : float := (0.0 + gamma * v)%float.

(** The value of a state [j + 1] moves away from the goal. *)
Definition pw (j : nat) : float := Nat.iter j advance 1.0%float.

(** The value, after [j] rounds, of a state all of whose moves are invalid. *)
Definition iso (j : nat) : float := Nat.iter j bump 0.0%float.

(** The values a state with a valid move can have after [k] rounds. *)
Definition good (k : nat) (v : float) : Prop :=
  v = 0.0%float ∨ ∃ j : nat, (j < k)%nat ∧ v = pw j.

(** A state none of whose four moves is valid. *)
Definition isolated (N : Z) (obs : gset Cell) (s : Cell) : bool :=
  forallb (λ a, negb (is_valid N obs (move a s))) actions.

(** The shape of the value function after [k] rounds. *)
Definition value_inv (N : Z) (goal : Cell) (obs : gset Cell) (k : nat)
    (V : gmap Cell float) : Prop :=
  ∀ s, s ∈ valid_states N obs →
    ∃ v, V !! s = Some v
         ∧ if decide (s = goal) then v = 0.0%float
           else if isolated N obs s then v = iso k
           else good k v.

(** [x; f x; f (f x); ...], [n] values. *)
Fixpoint orbit (f : float → float) (n : nat) (x : float) : list float :=
  match n with
  | O => []
  | S n => x :: orbit f n (f x)
  end.

(** More rounds than the loop ever runs. *)
Definition horizon : nat := 1002.

Definition good_check (g : float) : bool :=
  (0.0 <=? g)%float && (g <? infinity)%float
  && (bump g <? 0.0)%float && (neg_infinity <? bump g)%float.

Definition iso_check (v : float) : bool :=
  (neg_infinity <? v)%float && (v <? infinity)%float.

(** The policy entry the handler returns for an index, when it returns. *)
Definition policy_at (o : outcome Response) (i : Z) : option (option Action) :=
  match o with
  | Ok resp => policy resp !! i
  | _ => None
  end.

(** ** Vocabulary for the run of the walk *)

(** Why the walk stops at a cell [c], and with which flag: at the goal; at a
    cell it has seen before; at a cell without a policy entry; at a cell whose
    policy entry leads off the grid or into an obstacle. *)
Inductive stop (N : Z) (goal : Cell) (obs : gset Cell)
    (policy_idx : gmap Z (option Action)) (seen : Cell → Prop) (c : Cell) : bool → Prop :=
| stop_goal :
    c = goal → stop N goal obs policy_idx seen c true
| stop_revisit :
    c ≠ goal → seen c → stop N goal obs policy_idx seen c false
| stop_no_entry :
    c ≠ goal → policy_idx !! index N c = None → stop N goal obs policy_idx seen c false
| stop_invalid a :
    c ≠ goal → policy_idx !! index N c = Some a →
    is_valid N obs (follow a c) = false →
    stop N goal obs policy_idx seen c false.

(** The cells of the grid in the order of their indices. *)
Definition row_major (N : Z) (s t : Cell) : Prop := index N s < index N t.

(** Checks run over the finitely many values a state can take. *)
Definition unit_check (g : float) : bool := (g <=? 1.0)%float.

Definition iso_range_check (v : float) : bool :=
  ((-10.0) <=? v)%float && (v <=? 0.0)%float.

(** ** Vocabulary for routes *)

(** [route N goal obs d s]: [d] moves lead from the cell [s] to the goal,
    each from a valid cell other than the goal to a valid cell. *)
Inductive route (N : Z) (goal : Cell) (obs : gset Cell) : nat → Cell → Prop :=
| route_goal :
    route N goal obs 0 goal
| route_move d s a :
    is_valid N obs s = true → s ≠ goal →
    is_valid N obs (move a s) = true →
    route N goal obs d (move a s) →
    route N goal obs (S d) s.

(** The round after which the loop has always stopped. *)
Definition last_round : nat := 67.

Definition descent_check (g : float) : bool :=
  (advance g <? g)%float && (0.0 <? advance g)%float
  && (abs (g - g) <? threshold)%float.

Definition above_threshold_check (g : float) : bool :=
  (threshold <=? abs (g - 0.0))%float.

(** Values as distances: after [k] rounds, a state whose value is [pw i]
    has a route of [i + 1] moves, and a state with a route of at most [k]
    moves has the value of a route that is no longer. *)
Definition level_inv (N : Z) (goal : Cell) (obs : gset Cell) (k : nat)
    (V : gmap Cell float) : Prop :=
  (∀ s (i : nat), s ∈ valid_states N obs → s ≠ goal → (i < k)%nat →
                  V !! s = Some (pw i) → route N goal obs (S i) s)
  ∧ (∀ s (i : nat), route N goal obs (S i) s → (i < k)%nat →
                    ∃ i' : nat, (i' ≤ i)%nat ∧ V !! s = Some (pw i')).

(** The grid without obstacles, from the top left corner to the bottom right
    corner. *)
Definition req_corners (N : Z) : Request :=
  {| req_gridSize := N; startPos := (0, 0); goalPos := (N - 1, N - 1); obstacles := [] |}.

Definition iso_neg_check (v : float) : bool := (bump v <? 0.0)%float.

(** ** The server process

    What outlives a request.  Line 2 imports the [random] module, whose
    generator advances with every number drawn and lives as long as the
    process; lines 4 to 10 bind the global names of the module; line 180
    prints.  A view runs inside this process: what it returns may depend on
    the process as well as on the request, and it leaves a process behind. *)
Record Process (Rng Globals : Type) : Type := {
  rng : Rng;
  globals : Globals;
  stdout : list string
}.
Arguments Build_Process {Rng Globals} _ _ _.
Arguments rng {Rng Globals} _.
Arguments globals {Rng Globals} _.
Arguments stdout {Rng Globals} _.

(** Line 180: the formatted line; Python prints a bool as [True] or [False]. *)
Definition report (reachable : bool) : string :=
  "價值迭代完成，reachable = " +:+ (if reachable then "True" else "False").

(** The view in the process, lines 19 to 189.  The body calls no function of
    [random] and reads or rebinds no global name other than the request it
    is handed; the line 180 is reached only when the walk has returned, and
    not when an index lookup has raised. *)
Definition train_view {Rng Globals : Type} (data : Request) (p : Process Rng Globals)
  : outcome Response * Process Rng Globals :=
  match train data with
  | Ok resp =>
      (Ok resp,
       {| rng := rng p; globals := globals p;
          stdout := stdout p ++ [report (reachable resp)] |})
  | KeyError => (KeyError, p)
  | OutOfFuel => (OutOfFuel, p)
  end.

(** * Properties *)

(** ** The order of floating-point numbers

    The comparisons of binary64 numbers, read off the specification of the
    primitive operations: a strict order on the numbers that are not NaN. *)

Lemma SFcompare_key (f1 f2 : spec_float) :
  match SFcompare f1 f2 with
  | Some Lt => key_lt (sf_key f1) (sf_key f2)
  | Some Eq => is_Some (sf_key f1) ∧ sf_key f1 = sf_key f2
  | Some Gt => key_lt (sf_key f2) (sf_key f1)
  | None => sf_key f1 = None ∨ sf_key f2 = None
  end.
Proof.
  destruct f1 as [[]|[]| |[] m1 e1], f2 as [[]|[]| |[] m2 e2]; simpl;
    unfold lex_lt; simpl; try lia; eauto; try (split; eauto; fail).
  - destruct (Z.compare_spec e1 e2); simpl; try lia.
    change (Pos.compare_cont Eq m1 m2) with (Pos.compare m1 m2).
    destruct (Pos.compare_spec m1 m2); simpl; subst; try lia. eauto.
  - destruct (Z.compare_spec e1 e2); simpl; try lia.
    change (Pos.compare_cont Eq m1 m2) with (Pos.compare m1 m2).
    destruct (Pos.compare_spec m1 m2); simpl; subst; try lia. eauto.
Qed.

Lemma ltb_key (x y : float) : (x <? y)%float = true ↔ key_lt (fkey x) (fkey y).
Proof.
  rewrite FloatAxioms.ltb_spec. unfold SFltb, fkey.
  pose proof (SFcompare_key (Prim2SF x) (Prim2SF y)) as H.
  destruct (SFcompare (Prim2SF x) (Prim2SF y)) as [[]|];
    destruct (sf_key (Prim2SF x)) as [[[a b] c]|], (sf_key (Prim2SF y)) as [[[a' b'] c']|];
    simpl in *; unfold lex_lt in *; simpl in *; split; try done; try lia;
    try (destruct H as [? ?]; simplify_eq; lia); try (destruct H; done).
Qed.

Lemma leb_key (x y : float) : (x <=? y)%float = true ↔ key_le (fkey x) (fkey y).
Proof.
  rewrite FloatAxioms.leb_spec. unfold SFleb, fkey.
  pose proof (SFcompare_key (Prim2SF x) (Prim2SF y)) as H.
  destruct (SFcompare (Prim2SF x) (Prim2SF y)) as [[]|];
    destruct (sf_key (Prim2SF x)) as [[[a b] c]|], (sf_key (Prim2SF y)) as [[[a' b'] c']|];
    simpl in *; unfold lex_lt in *; simpl in *; split; try done; try tauto;
    try (destruct H as [? ?]; simplify_eq; lia);
    try (destruct H as [[? ?] ?]; done); try (destruct H; done);
    try lia.
Qed.

Lemma is_nan_key (x : float) : is_nan x = false ↔ is_Some (fkey x).
Proof.
  unfold is_nan. rewrite FloatAxioms.eqb_spec. unfold SFeqb, fkey.
  pose proof (SFcompare_key (Prim2SF x) (Prim2SF x)) as H.
  destruct (SFcompare (Prim2SF x) (Prim2SF x)) as [[]|];
    destruct (sf_key (Prim2SF x)) as [[[a b] c]|];
    simpl in *; unfold lex_lt in *; simpl in *; split; try done; try lia; eauto;
    try (destruct H; done); try (by intros []).
Qed.

(** Turns comparisons of floats into comparisons of keys and lets [lia]
    decide. *)
Ltac float_keys :=
  repeat match goal with
  | H : (_ <? _)%float = true |- _ => apply ltb_key in H
  | H : (_ <=? _)%float = true |- _ => apply leb_key in H
  | H : (_ <? _)%float = false |- _ => apply not_true_iff_false in H; rewrite ltb_key in H
  | H : (_ <=? _)%float = false |- _ => apply not_true_iff_false in H; rewrite leb_key in H
  | H : is_nan _ = false |- _ => apply is_nan_key in H; destruct H as [? H]
  | |- (_ <? _)%float = true => apply ltb_key
  | |- (_ <=? _)%float = true => apply leb_key
  | |- (_ <? _)%float = false => apply not_true_iff_false; rewrite ltb_key
  | |- (_ <=? _)%float = false => apply not_true_iff_false; rewrite leb_key
  | |- is_nan _ = false => apply is_nan_key
  end;
  repeat match goal with
  | H : context [fkey ?x] |- _ => destruct (fkey x) as [[[? ?] ?]|]
  | |- context [fkey ?x] => destruct (fkey x) as [[[? ?] ?]|]
  end;
  unfold key_lt, key_le, lex_lt in *; simpl in *;
  try done; try (intuition (simplify_eq; eauto; lia)).

Lemma flt_trans (x y z : float) :
  (x <? y)%float = true → (y <? z)%float = true → (x <? z)%float = true.
Proof. intros. float_keys. Qed.

Lemma flt_le_trans (x y z : float) :
  (x <? y)%float = true → (y <=? z)%float = true → (x <? z)%float = true.
Proof. intros. float_keys. Qed.

Lemma fle_lt_trans (x y z : float) :
  (x <=? y)%float = true → (y <? z)%float = true → (x <? z)%float = true.
Proof. intros. float_keys. Qed.

Lemma fle_trans (x y z : float) :
  (x <=? y)%float = true → (y <=? z)%float = true → (x <=? z)%float = true.
Proof. intros. float_keys. Qed.

Lemma flt_irrefl (x : float) : (x <? x)%float = false.
Proof. float_keys. Qed.

Lemma flt_le (x y : float) : (x <? y)%float = true → (x <=? y)%float = true.
Proof. intros. float_keys. Qed.

Lemma fle_refl (x : float) : is_nan x = false → (x <=? x)%float = true.
Proof. intros. float_keys. Qed.

Lemma fnlt_le (x y : float) :
  is_nan x = false → is_nan y = false → (x <? y)%float = false → (y <=? x)%float = true.
Proof. intros. float_keys. Qed.

Lemma fle_nlt (x y : float) : (x <=? y)%float = true → (y <? x)%float = false.
Proof. intros. float_keys. Qed.

Lemma fnle_lt (x y : float) :
  is_nan x = false → is_nan y = false → (x <=? y)%float = false → (y <? x)%float = true.
Proof. intros. float_keys. Qed.

Lemma flt_not_nan_l (x y : float) : (x <? y)%float = true → is_nan x = false.
Proof. intros. float_keys. Qed.

Lemma flt_not_nan_r (x y : float) : (x <? y)%float = true → is_nan y = false.
Proof. intros. float_keys. Qed.

Lemma fle_not_nan_r (x y : float) : (x <=? y)%float = true → is_nan y = false.
Proof. intros. float_keys. Qed.

(** ** Rounding never invents a NaN *)

Lemma shr_1_nonneg (mrs : shr_record) : 0 ≤ shr_m mrs → 0 ≤ shr_m (shr_1 mrs).
Proof. destruct mrs as [[|[p|p|]|p] r s]; simpl; lia. Qed.

Lemma iter_pos_shr_1_nonneg (p : positive) :
  ∀ mrs, 0 ≤ shr_m mrs → 0 ≤ shr_m (SpecFloat.iter_pos shr_1 p mrs).
Proof.
  induction p as [p IH|p IH|]; intros mrs H; simpl.
  - apply IH, IH, shr_1_nonneg, H.
  - apply IH, IH, H.
  - apply shr_1_nonneg, H.
Qed.

Lemma shr_fexp_nonneg (pr em m e : Z) (l : location) :
  0 ≤ m → 0 ≤ shr_m (shr_fexp pr em m e l).1.
Proof.
  intros H. unfold shr_fexp, shr.
  assert (0 ≤ shr_m (shr_record_of_loc m l)) as H' by (by destruct l as [|[]]).
  destruct (fexp pr em (Zdigits2 m + e) - e); simpl; try done.
  by apply iter_pos_shr_1_nonneg.
Qed.

Lemma round_nearest_even_nonneg (m : Z) (l : location) :
  0 ≤ m → 0 ≤ round_nearest_even m l.
Proof. intros H. destruct l as [|[]]; simpl; try lia. destruct (Z.even m); lia. Qed.

Lemma binary_round_aux_not_nan (pr em : Z) (sx : bool) (mx ex : Z) (lx : location) :
  0 ≤ mx → binary_round_aux pr em sx mx ex lx ≠ S754_nan.
Proof.
  intros H. unfold binary_round_aux.
  pose proof (shr_fexp_nonneg pr em mx ex lx H) as H1.
  destruct (shr_fexp pr em mx ex lx) as [mrs' e']. simpl in H1.
  pose proof (shr_fexp_nonneg pr em _ e' loc_Exact
                (round_nearest_even_nonneg _ (loc_of_shr_record mrs') H1)) as H2.
  destruct (shr_fexp pr em (round_nearest_even (shr_m mrs') (loc_of_shr_record mrs'))
              e' loc_Exact) as [mrs'' e'']. simpl in H2.
  destruct (shr_m mrs''); try done; try lia. by destruct (e'' <=? em - pr).
Qed.

Lemma binary_normalize_not_nan (pr em m e : Z) (szero : bool) :
  binary_normalize pr em m e szero ≠ S754_nan.
Proof.
  destruct m; simpl; try done; unfold binary_round;
    destruct (shl_align _ _ _); by apply binary_round_aux_not_nan.
Qed.

Lemma finite_spec (x : float) :
  finite x → ∃ s, Prim2SF x = S754_zero s ∨ ∃ m e, Prim2SF x = S754_finite s m e.
Proof.
  intros [H1 H2]. apply ltb_key in H1, H2. unfold fkey in *.
  change (Prim2SF neg_infinity) with (S754_infinity true) in H1.
  change (Prim2SF infinity) with (S754_infinity false) in H2.
  destruct (Prim2SF x) as [s|[]| |s m e]; simpl in *; unfold lex_lt in *; simpl in *;
    try lia; try done; eauto.
Qed.

Lemma finite_not_nan (x : float) : finite x → is_nan x = false.
Proof. intros [H _]. by apply flt_not_nan_r in H. Qed.

(** The absolute difference of two finite floats is a number. *)
Lemma abs_sub_not_nan (x y : float) :
  finite x → finite y → is_nan (abs (x - y)) = false.
Proof.
  intros (sx & Hx)%finite_spec (sy & Hy)%finite_spec.
  apply is_nan_key. unfold fkey. rewrite abs_spec, sub_spec. unfold SF64sub.
  destruct Hx as [->|(mx & ex & ->)], Hy as [->|(my & ey & ->)]; simpl.
  - destruct sx, sy; simpl; eauto.
  - eauto.
  - eauto.
  - pose proof (binary_normalize_not_nan prec emax
      (cond_Zopp sx (Z.pos (shl_align mx ex (Z.min ex ey)).1)
       - cond_Zopp sy (Z.pos (shl_align my ey (Z.min ex ey)).1))
      (Z.min ex ey) false) as H.
    destruct (binary_normalize _ _ _ _ _) as [|[]| |]; simpl; eauto. done.
Qed.

(** ** Ranges and the state space *)

Lemma elem_of_range (n x : Z) : x ∈ range n ↔ 0 ≤ x < n.
Proof.
  unfold range. rewrite list_elem_of_fmap. split.
  - intros (k & -> & Hk). apply elem_of_seq in Hk. lia.
  - intros Hx. exists (Z.to_nat x). split; [lia|]. apply elem_of_seq. lia.
Qed.

Lemma NoDup_range (n : Z) : NoDup (range n).
Proof.
  unfold range. apply NoDup_fmap_2; [|apply NoDup_seq].
  intros a b Hab. lia.
Qed.

Lemma is_valid_spec gridSize obstacle_set (s : Cell) :
  is_valid gridSize obstacle_set s = true ↔ in_bounds gridSize s ∧ s ∉ obstacle_set.
Proof.
  destruct s as [r c]. unfold is_valid, in_bounds. simpl.
  rewrite !andb_true_iff, bool_decide_eq_true, !Z.leb_le, !Z.ltb_lt. tauto.
Qed.

Lemma valid_for_path_is_valid gridSize obstacle_set (s : Cell) :
  valid_for_path gridSize obstacle_set s = is_valid gridSize obstacle_set s.
Proof. reflexivity. Qed.

Lemma elem_of_valid_states gridSize obstacle_set (s : Cell) :
  s ∈ valid_states gridSize obstacle_set ↔ in_bounds gridSize s ∧ s ∉ obstacle_set.
Proof.
  destruct s as [r c]. unfold valid_states, in_bounds. simpl.
  rewrite list_elem_of_bind. split.
  - intros (r' & Hin & Hr'). apply list_elem_of_bind in Hin as (c' & Hin & Hc').
    apply elem_of_range in Hr', Hc'.
    case_decide; [|by apply not_elem_of_nil in Hin].
    apply list_elem_of_singleton in Hin. by simplify_eq.
  - intros [[Hr Hc] Hobs]. exists r. split; [|by apply elem_of_range].
    apply list_elem_of_bind. exists c. split; [|by apply elem_of_range].
    rewrite decide_True by done. by apply list_elem_of_singleton.
Qed.

Lemma valid_states_is_valid gridSize obstacle_set (s : Cell) :
  s ∈ valid_states gridSize obstacle_set ↔ is_valid gridSize obstacle_set s = true.
Proof. by rewrite elem_of_valid_states, is_valid_spec. Qed.

Lemma valid_states_in_bounds gridSize obstacle_set (s : Cell) :
  s ∈ valid_states gridSize obstacle_set → in_bounds gridSize s.
Proof. rewrite elem_of_valid_states. tauto. Qed.

(** ** The index map *)

Lemma idx_inner_loop (r : Z) (len : nat) : ∀ (a : nat) (m : gmap Cell Z) (k : Z),
  ∃ m', foldl (λ '(idx_map, idx_counter) c,
                 (<[(r, c) := idx_counter]> idx_map, idx_counter + 1))
              (m, k) (Z.of_nat <$> seq a len) = (m', k + Z.of_nat len)
        ∧ ∀ r' c', m' !! (r', c') =
                   if decide (r' = r ∧ Z.of_nat a ≤ c' < Z.of_nat a + Z.of_nat len)
                   then Some (k + (c' - Z.of_nat a)) else m !! (r', c').
Proof.
  induction len as [|len IH]; intros a m k; csimpl.
  - exists m. split; [f_equal; lia|]. intros r' c'. case_decide; [lia|done].
  - destruct (IH (S a) (<[(r, Z.of_nat a) := k]> m) (k + 1)) as (m' & -> & Hm').
    exists m'. split; [f_equal; lia|]. intros r' c'. rewrite Hm'.
    repeat case_decide; try lia.
    + f_equal. lia.
    + assert (r' = r ∧ c' = Z.of_nat a) as [? ?] by lia. subst r' c'.
      rewrite lookup_insert_eq. f_equal. lia.
    + rewrite lookup_insert_ne; [done|]. intros [= <- <-]. lia.
Qed.

Lemma idx_outer_loop (n : nat) (len : nat) : ∀ (a : nat) (m : gmap Cell Z) (k : Z),
  ∃ m', foldl (λ acc r,
                 foldl (λ '(idx_map, idx_counter) c,
                          (<[(r, c) := idx_counter]> idx_map, idx_counter + 1))
                       acc (Z.of_nat <$> seq 0 n))
              (m, k) (Z.of_nat <$> seq a len) = (m', k + Z.of_nat len * Z.of_nat n)
        ∧ ∀ r' c', m' !! (r', c') =
                   if decide (Z.of_nat a ≤ r' < Z.of_nat a + Z.of_nat len ∧ 0 ≤ c' < Z.of_nat n)
                   then Some (k + (r' - Z.of_nat a) * Z.of_nat n + c') else m !! (r', c').
Proof.
  induction len as [|len IH]; intros a m k; csimpl.
  - exists m. split; [f_equal; lia|]. intros r' c'. case_decide; [lia|done].
  - destruct (idx_inner_loop (Z.of_nat a) n 0 m k) as (m1 & -> & Hm1).
    destruct (IH (S a) m1 (k + Z.of_nat n)) as (m' & -> & Hm').
    exists m'. split; [f_equal; lia|]. intros r' c'. rewrite Hm', Hm1.
    repeat case_decide; try lia; try done.
    + f_equal. lia.
    + f_equal. assert (r' = Z.of_nat a) as -> by lia. lia.
Qed.

Lemma idx_map_lookup gridSize (s : Cell) :
  idx_map gridSize !! s =
  if decide (in_bounds gridSize s) then Some (index gridSize s) else None.
Proof.
  destruct s as [r c]. unfold idx_map, idx_map_loop, range, in_bounds, index. simpl.
  destruct (idx_outer_loop (Z.to_nat gridSize) (Z.to_nat gridSize) 0 ∅ 1)
    as (m' & -> & Hm'). simpl. rewrite Hm', lookup_empty.
  repeat case_decide; try lia; try done.
  f_equal. rewrite Z2Nat.id by lia. lia.
Qed.

Lemma getitem_idx_map gridSize (s : Cell) :
  getitem (idx_map gridSize) s =
  if decide (in_bounds gridSize s) then Ok (index gridSize s) else KeyError.
Proof. unfold getitem. rewrite idx_map_lookup. by case_decide. Qed.

Lemma index_inj gridSize (s t : Cell) :
  in_bounds gridSize s → in_bounds gridSize t →
  index gridSize s = index gridSize t → s = t.
Proof.
  destruct s as [r c], t as [r' c']. unfold in_bounds, index. simpl.
  intros [Hr Hc] [Hr' Hc'] Heq.
  assert (r = r') by nia. subst. f_equal. lia.
Qed.

(** ** The transition function *)

Lemma move_offset (a : Action) (s : Cell) :
  move a s = (s.1 + (offset a).1, s.2 + (offset a).2).
Proof. destruct s as [r c], a; simpl; f_equal; lia. Qed.

Lemma move_back (a : Action) (c c' : Cell) :
  move a c = c' → ∃ a', move a' c' = c.
Proof.
  destruct c as [r k]. intros <-.
  destruct a; [exists D|exists U|exists R|exists L]; simpl; f_equal; lia.
Qed.

(** C1: [step] follows the contract of the transition model.  At the goal it
    returns [(goal, 0.0)] whatever the action.  Elsewhere the neighbour is the
    state shifted by the unit offset of the action; a neighbour out of the
    grid or on an obstacle gives [(state, -1.0)], a valid neighbour that is
    the goal gives [(goal, 1.0)], any other valid neighbour [n] gives
    [(n, 0.0)]. *)
Theorem step_contract gridSize goalState obstacle_set (state : Cell) (action : Action) :
  let n : Cell := (state.1 + (offset action).1, state.2 + (offset action).2) in
  (state = goalState →
     step gridSize goalState obstacle_set state action = (goalState, 0.0%float))
  ∧ (state ≠ goalState → ¬ in_bounds gridSize n ∨ n ∈ obstacle_set →
     step gridSize goalState obstacle_set state action = (state, (-1.0)%float))
  ∧ (state ≠ goalState → in_bounds gridSize n → n ∉ obstacle_set → n = goalState →
     step gridSize goalState obstacle_set state action = (goalState, 1.0%float))
  ∧ (state ≠ goalState → in_bounds gridSize n → n ∉ obstacle_set → n ≠ goalState →
     step gridSize goalState obstacle_set state action = (n, 0.0%float)).
Proof.
  intros n. unfold step. rewrite move_offset. fold n.
  destruct (is_valid gridSize obstacle_set n) eqn:Hv; simpl.
  - apply is_valid_spec in Hv as [Hb Ho].
    repeat split; intros; repeat case_decide; simplify_eq; try done; tauto.
  - assert (¬ (in_bounds gridSize n ∧ n ∉ obstacle_set)) as Hn.
    { rewrite <- is_valid_spec. congruence. }
    repeat split; intros; repeat case_decide; simplify_eq; try done; tauto.
Qed.

(** The four branches of the contract on a 3 x 3 grid with an obstacle at
    (1, 1) and the goal at (2, 2). *)
Lemma step_contract_witness :
  step 3 (2, 2) {[ (1, 1) ]} (2, 2) L = ((2, 2), 0.0%float)
  ∧ step 3 (2, 2) {[ (1, 1) ]} (0, 0) U = ((0, 0), (-1.0)%float)
  ∧ step 3 (2, 2) {[ (1, 1) ]} (1, 0) R = ((1, 0), (-1.0)%float)
  ∧ step 3 (2, 2) {[ (1, 1) ]} (2, 1) R = ((2, 2), 1.0%float)
  ∧ step 3 (2, 2) {[ (1, 1) ]} (0, 0) D = ((1, 0), 0.0%float).
Proof.
  split; [|split; [|split; [|split]]].
  - apply (step_contract 3 (2, 2) {[ (1, 1) ]} (2, 2) L). reflexivity.
  - apply (step_contract 3 (2, 2) {[ (1, 1) ]} (0, 0) U).
    + intros [=].
    + left. unfold in_bounds. simpl. lia.
  - apply (step_contract 3 (2, 2) {[ (1, 1) ]} (1, 0) R).
    + intros [=].
    + right. simpl. set_solver.
  - apply (step_contract 3 (2, 2) {[ (1, 1) ]} (2, 1) R).
    + intros [=].
    + unfold in_bounds. simpl. lia.
    + simpl. set_solver.
    + reflexivity.
  - apply (step_contract 3 (2, 2) {[ (1, 1) ]} (0, 0) D).
    + intros [=].
    + unfold in_bounds. simpl. lia.
    + simpl. set_solver.
    + intros [=].
Defined.

(** ** Loops that may raise *)

Lemma foldM_app {A S} (body : S → A → outcome S) (l1 l2 : list A) (s : S) :
  foldM body s (l1 ++ l2) = s' ← foldM body s l1; foldM body s' l2.
Proof.
  revert s. induction l1 as [|x l1 IH]; intros s; simpl; [done|].
  destruct (body s x); simpl; auto.
Qed.

Lemma getitem_insert_eq {K V} `{Countable K} (d : gmap K V) (k : K) (v : V) :
  getitem (<[k := v]> d) k = Ok v.
Proof. unfold getitem. by rewrite lookup_insert_eq. Qed.

Lemma getitem_Some {K V} `{Countable K} (d : gmap K V) (k : K) (v : V) :
  d !! k = Some v → getitem d k = Ok v.
Proof. unfold getitem. by intros ->. Qed.

(** Loop invariant rule: [P pre s] relates the elements already processed to
    the loop state; a body that preserves it never raises. *)
Lemma foldM_invariant {A S} (body : S → A → outcome S) (P : list A → S → Prop)
    (l : list A) (s0 : S) :
  P [] s0 →
  (∀ pre x s, x ∈ l → P pre s → ∃ s', body s x = Ok s' ∧ P (pre ++ [x]) s') →
  ∃ s', foldM body s0 l = Ok s' ∧ P l s'.
Proof.
  intros H0 Hstep.
  enough (∀ l2 l1 s, (∀ x, x ∈ l2 → x ∈ l) → P l1 s →
            ∃ s', foldM body s l2 = Ok s' ∧ P (l1 ++ l2) s') as Hgen.
  { destruct (Hgen l [] s0) as (s' & ? & ?); eauto. }
  induction l2 as [|x l2 IH]; intros l1 s Hsub HP; simpl.
  - exists s. by rewrite app_nil_r.
  - destruct (Hstep l1 x s) as (s1 & -> & HP1); [apply Hsub; left|done|].
    simpl. destruct (IH (l1 ++ [x]) s1) as (s' & -> & HP').
    + intros y Hy. apply Hsub. by right.
    + done.
    + exists s'. by rewrite <- app_assoc in HP'.
Qed.

(** ** Value iteration never raises *)

Section Iteration.
Variables (N : Z) (goal : Cell) (obs : gset Cell).

(** [step] never leaves the state space. *)
Lemma step_closed (s : Cell) (a : Action) :
  s ∈ valid_states N obs → (step N goal obs s a).1 ∈ valid_states N obs.
Proof.
  intros Hs. unfold step. case_decide; [done|].
  destruct (is_valid N obs (move a s)) eqn:Hv; simpl; [|done].
  apply valid_states_is_valid in Hv. by case_decide.
Qed.

Lemma getitem_covers (V : gmap Cell float) (s : Cell) :
  covers N obs V → s ∈ valid_states N obs →
  getitem V s = Ok (default 0.0%float (V !! s)).
Proof. intros HV Hs. unfold getitem. by destruct (HV s Hs) as [v ->]. Qed.

Lemma best_action_scan (V : gmap Cell float) (s : Cell) (l : list Action) init :
  covers N obs V → s ∈ valid_states N obs →
  foldM (λ '(best_a, best_value) a,
           let '(nxt, reward) := step N goal obs s a in
           v ← getitem V nxt;
           let val := (reward + gamma * v)%float in
           Ok (if (best_value <? val)%float then (Some a, val) else (best_a, best_value)))
        init l
  = Ok (scan (q_value N goal obs V s) l init).
Proof.
  intros HV Hs. revert init. induction l as [|a l IH]; intros [ba bv]; simpl; [done|].
  pose proof (step_closed s a Hs) as Hn.
  pose proof (eq_refl : q_value N goal obs V s a = _) as Hq. unfold q_value at 2 in Hq.
  destruct (step N goal obs s a) as [nxt reward]. simpl in Hn.
  rewrite (getitem_covers V nxt HV Hn), Hq. simpl. apply IH.
Qed.

Lemma best_action_value_scan (V : gmap Cell float) (s : Cell) (l : list Action) ba bv :
  covers N obs V → s ∈ valid_states N obs →
  foldM (λ best a,
           let '(nxt, reward) := step N goal obs s a in
           v ← getitem V nxt;
           let candidate_value := (reward + gamma * v)%float in
           Ok (if (best <? candidate_value)%float then candidate_value else best))
        bv l
  = Ok (scan (q_value N goal obs V s) l (ba, bv)).2.
Proof.
  intros HV Hs. revert ba bv. induction l as [|a l IH]; intros ba bv; simpl; [done|].
  pose proof (step_closed s a Hs) as Hn.
  pose proof (eq_refl : q_value N goal obs V s a = _) as Hq. unfold q_value at 2 in Hq.
  destruct (step N goal obs s a) as [nxt reward]. simpl in Hn.
  rewrite (getitem_covers V nxt HV Hn), Hq. simpl.
  destruct (bv <? reward + gamma * default 0 (V !! nxt))%float; apply IH.
Qed.

Lemma best_action_greedy (V : gmap Cell float) (s : Cell) :
  covers N obs V → s ∈ valid_states N obs →
  best_action N goal obs V s = Ok (greedy N goal obs V s).
Proof. apply best_action_scan. Qed.

Lemma best_action_value_greedy (V : gmap Cell float) (s : Cell) :
  covers N obs V → s ∈ valid_states N obs →
  best_action_value N goal obs V s = Ok (greedy N goal obs V s).2.
Proof. apply best_action_value_scan. Qed.

Lemma jacobi_lookup (V : gmap Cell float) (s : Cell) :
  jacobi N goal obs V !! s =
  if decide (s ∈ valid_states N obs) then Some (new_value N goal obs V s) else None.
Proof.
  unfold jacobi. case_decide as Hs.
  - apply elem_of_list_to_map_1'.
    + intros y Hy. apply list_elem_of_fmap in Hy as (t & [= <- ->] & _). done.
    + apply list_elem_of_fmap. by exists s.
  - apply not_elem_of_list_to_map_1. rewrite <- list_fmap_compose.
    intros Hin. apply list_elem_of_fmap in Hin as (t & -> & Ht). done.
Qed.

Lemma covers_jacobi (V : gmap Cell float) : covers N obs (jacobi N goal obs V).
Proof. intros s Hs. rewrite jacobi_lookup, decide_True by done. eauto. Qed.

Lemma init_V_lookup (s : Cell) :
  init_V N obs !! s = if decide (s ∈ valid_states N obs) then Some 0.0%float else None.
Proof.
  unfold init_V.
  enough (∀ l (m : gmap Cell float),
            foldl (λ V s, <[s := 0.0%float]> V) m l !! s =
            if decide (s ∈ l) then Some 0.0%float else m !! s) as ->.
  { by case_decide. }
  induction l as [|x l IH]; intros m; simpl; [done|].
  rewrite IH. destruct (decide (s = x)) as [->|Hne].
  - rewrite lookup_insert_eq. repeat case_decide; set_solver.
  - rewrite lookup_insert_ne by done. repeat case_decide; set_solver.
Qed.

Lemma covers_init_V : covers N obs (init_V N obs).
Proof. intros s Hs. rewrite init_V_lookup, decide_True by done. eauto. Qed.

(** One round of the loop is one Jacobi update: the new values are read off
    the snapshot [V] alone. *)
Lemma sweep_jacobi (V : gmap Cell float) :
  covers N obs V →
  sweep N goal obs V = Ok (delta_of N goal obs V, jacobi N goal obs V).
Proof.
  intros HV. unfold sweep.
  edestruct (foldM_invariant
    (λ '(delta, new_V) s,
       if decide (s = goal) then Ok (delta, <[s := 0.0%float]> new_V)
       else
         b ← best_action_value N goal obs V s;
         let new_V := <[s := b]> new_V in
         nv ← getitem new_V s;
         ov ← getitem V s;
         Ok (py_max delta (abs (nv - ov)), new_V))
    (λ pre '(delta, new_V),
       delta = foldl py_max 0.0%float
                 (change N goal obs V <$> filter (λ s, s ≠ goal) pre)
       ∧ ∀ s, new_V !! s =
              if decide (s ∈ pre) then Some (new_value N goal obs V s) else None)
    (valid_states N obs) (0.0%float, ∅)) as ([delta new_V] & Heq & Hd & Hm);
    [| |etrans; [exact Heq|]].
  - split; [done|]. intros s. rewrite lookup_empty, decide_False; [done|].
    apply not_elem_of_nil.
  - intros pre x [delta new_V] Hx [Hd Hm].
    assert (∀ v, new_value N goal obs V x = v → ∀ s,
              <[x := v]> new_V !! s =
              if decide (s ∈ pre ++ [x]) then Some (new_value N goal obs V s) else None)
      as Hins.
    { intros v <- s. destruct (decide (s = x)) as [->|Hne].
      - rewrite lookup_insert_eq, decide_True; [done|]. set_solver.
      - rewrite lookup_insert_ne, Hm by done.
        repeat case_decide; set_solver. }
    case_decide as Hg.
    + eexists. split; [done|]. split.
      * rewrite filter_app, filter_cons_False, filter_nil, app_nil_r; [done|]. tauto.
      * apply Hins. unfold new_value. by rewrite decide_True.
    + rewrite (best_action_value_greedy V x HV Hx). simpl.
      rewrite getitem_insert_eq, (getitem_covers V x HV Hx). simpl.
      eexists. split; [done|]. split.
      * rewrite filter_app, filter_cons_True, filter_nil by done.
        rewrite fmap_app, foldl_app. simpl. rewrite <- Hd.
        unfold change, new_value. by rewrite decide_False.
      * apply Hins. unfold new_value. by rewrite decide_False.
  - f_equal. f_equal; [done|]. apply map_eq. intros s. by rewrite Hm, jacobi_lookup.
Qed.

(** The loop of part 2 in closed form: it returns the snapshot after [k]
    rounds, [k] being the first round whose delta is below the threshold, or
    the budget [n] when there is none. *)
Lemma value_iteration_rounds (n : nat) (V : gmap Cell float) :
  covers N obs V →
  ∃ k : nat, (k ≤ n)%nat ∧ (0 < n → 0 < k)%nat
       ∧ value_iteration N goal obs n V = Ok (Nat.iter k (jacobi N goal obs) V)
       ∧ (∀ j : nat, (S j < k)%nat →
            (delta_of N goal obs (Nat.iter j (jacobi N goal obs) V) <? threshold)%float = false)
       ∧ ((k < n)%nat →
            (delta_of N goal obs (Nat.iter (pred k) (jacobi N goal obs) V) <? threshold)%float = true).
Proof.
  revert V. induction n as [|n IH]; intros V HV.
  - exists 0%nat. simpl. repeat split; try lia; done.
  - simpl. rewrite (sweep_jacobi V HV). simpl.
    destruct (delta_of N goal obs V <? threshold)%float eqn:Hd.
    + exists 1%nat. simpl. repeat split; try lia; try done.
    + destruct (IH (jacobi N goal obs V) (covers_jacobi V)) as (k & Hk & Hpos & -> & Hbefore & Hstop).
      exists (S k). rewrite Nat.iter_succ_r. repeat split; try lia.
      * intros [|j] Hj; simpl; [done|].
        rewrite <- Nat.iter_succ, Nat.iter_succ_r. apply Hbefore. lia.
      * intros Hlt. destruct k as [|k]; simpl; [lia|].
        rewrite <- Nat.iter_succ, Nat.iter_succ_r. apply Hstop. lia.
Qed.

Lemma covers_snapshot (k : nat) (V : gmap Cell float) :
  covers N obs V → covers N obs (Nat.iter k (jacobi N goal obs) V).
Proof. destruct k; simpl; [done|]. intros _. apply covers_jacobi. Qed.

End Iteration.

(** ** Extraction and the index maps *)

Section Extraction.
Variables (N : Z) (goal : Cell) (obs : gset Cell).

(** Part 3 in closed form: the policy holds the greedy action of every valid
    state but the goal, and [qValues] is the next Jacobi update. *)
Lemma extract_greedy (V : gmap Cell float) :
  covers N obs V →
  ∃ policy qValues,
    extract N goal obs V = Ok (policy, qValues)
    ∧ (∀ s, policy !! s =
            if decide (s ∈ valid_states N obs ∧ s ≠ goal)
            then Some (greedy N goal obs V s).1 else None)
    ∧ (∀ s, qValues !! s =
            if decide (s ∈ valid_states N obs)
            then Some (new_value N goal obs V s) else None).
Proof.
  intros HV. unfold extract.
  edestruct (foldM_invariant
    (λ '(policy, qValues) s,
       if decide (s = goal) then Ok (policy, <[s := 0.0%float]> qValues)
       else
         '(best_a, best_value) ← best_action N goal obs V s;
         Ok (<[s := best_a]> policy, <[s := best_value]> qValues))
    (λ pre '(policy, qValues),
       (∀ s, policy !! s =
             if decide (s ∈ pre ∧ s ≠ goal)
             then Some (greedy N goal obs V s).1 else None)
       ∧ (∀ s, qValues !! s =
               if decide (s ∈ pre) then Some (new_value N goal obs V s) else None))
    (valid_states N obs) ((∅, ∅) : gmap Cell (option Action) * gmap Cell float))
    as ([policy qValues] & Heq & Hp & Hq); [| |by eauto].
  - split; intros s; rewrite lookup_empty; case_decide; set_solver.
  - intros pre x [policy qValues] Hx [Hp Hq]. case_decide as Hg.
    + eexists. split; [done|]. split; intros s.
      * rewrite Hp. repeat case_decide; set_solver.
      * destruct (decide (s = x)) as [->|Hne].
        -- rewrite lookup_insert_eq, decide_True by set_solver.
           unfold new_value. by rewrite decide_True.
        -- rewrite lookup_insert_ne, Hq by done. repeat case_decide; set_solver.
    + rewrite (best_action_greedy N goal obs V x HV Hx).
      destruct (greedy N goal obs V x) as [best_a best_value] eqn:Hgr. simpl.
      eexists. split; [done|]. split; intros s.
      * destruct (decide (s = x)) as [->|Hne].
        -- rewrite lookup_insert_eq, decide_True by set_solver. by rewrite Hgr.
        -- rewrite lookup_insert_ne, Hp by done. repeat case_decide; set_solver.
      * destruct (decide (s = x)) as [->|Hne].
        -- rewrite lookup_insert_eq, decide_True by set_solver.
           unfold new_value. by rewrite decide_False, Hgr.
        -- rewrite lookup_insert_ne, Hq by done. repeat case_decide; set_solver.
Qed.

(** Part 4 in closed form: the entries of the maps keyed by index are the
    entries of the maps keyed by cell. *)
Lemma reindex_index (policy : gmap Cell (option Action)) (qValues : gmap Cell float) :
  (∀ s, s ∈ valid_states N obs → s ≠ goal → is_Some (policy !! s)) →
  (∀ s, s ∈ valid_states N obs → s ≠ goal → is_Some (qValues !! s)) →
  ∃ policy_idx qValues_idx,
    reindex N goal obs policy qValues = Ok (policy_idx, qValues_idx)
    ∧ (∀ i a, policy_idx !! i = Some a ↔
              ∃ s, s ∈ valid_states N obs ∧ s ≠ goal ∧ index N s = i
                   ∧ policy !! s = Some a)
    ∧ (∀ i v, qValues_idx !! i = Some v ↔
              ∃ s, s ∈ valid_states N obs ∧ index N s = i
                   ∧ if decide (s = goal) then v = 0.0%float else qValues !! s = Some v).
Proof.
  intros Hpol Hqv. unfold reindex.
  edestruct (foldM_invariant
    (λ '(policy_idx, qValues_idx) s,
       s_idx ← getitem (idx_map N) s;
       if decide (s = goal) then Ok (policy_idx, <[s_idx := 0.0%float]> qValues_idx)
       else
         a ← getitem policy s;
         q ← getitem qValues s;
         Ok (<[s_idx := a]> policy_idx, <[s_idx := q]> qValues_idx))
    (λ pre '(policy_idx, qValues_idx),
       (∀ s, s ∈ pre → s ∈ valid_states N obs)
       ∧ (∀ i a, policy_idx !! i = Some a ↔
                 ∃ s, s ∈ pre ∧ s ≠ goal ∧ index N s = i ∧ policy !! s = Some a)
       ∧ (∀ i v, qValues_idx !! i = Some v ↔
                 ∃ s, s ∈ pre ∧ index N s = i
                      ∧ if decide (s = goal) then v = 0.0%float
                        else qValues !! s = Some v))
    (valid_states N obs) ((∅, ∅) : gmap Z (option Action) * gmap Z float))
    as ([policy_idx qValues_idx] & Heq & Hsub & Hp & Hq).
  - split; [set_solver|]. split; intros i v; rewrite lookup_empty; split;
      (try done); intros (s & Hs & _); set_solver.
  - intros pre x [policy_idx qValues_idx] Hx (Hsub & Hp & Hq).
    pose proof (valid_states_in_bounds N obs x Hx) as Hbx.
    rewrite getitem_idx_map, decide_True by done. simpl.
    assert (∀ s, s ∈ pre ++ [x] → s ∈ valid_states N obs) as Hsub'.
    { intros s [?|Hs]%elem_of_app; [auto|]. apply list_elem_of_singleton in Hs. by subst. }
    assert (∀ s, s ∈ pre ++ [x] → index N s = index N x → s = x) as Hinj.
    { intros s Hs. apply index_inj; [|done]. apply (valid_states_in_bounds N obs). auto. }
    assert (∀ (w : float),
              (if decide (x = goal) then w = 0.0%float else qValues !! x = Some w) →
              ∀ i v, <[index N x := w]> qValues_idx !! i = Some v ↔
                     ∃ s, s ∈ pre ++ [x] ∧ index N s = i
                          ∧ if decide (s = goal) then v = 0.0%float
                            else qValues !! s = Some v) as Hq'.
    { intros w Hw i v. destruct (decide (i = index N x)) as [->|Hne].
      - rewrite lookup_insert_eq. split.
        + intros [= <-]. exists x. split; [set_solver|done].
        + intros (s & Hs & Hi & Hv). rewrite (Hinj s Hs Hi) in Hv.
          f_equal. repeat case_decide; congruence.
      - rewrite lookup_insert_ne, Hq by done. split.
        + intros (s & Hs & Hi & Hv). exists s. split; [set_solver|done].
        + intros (s & Hs & Hi & Hv). exists s. split; [|done].
          apply elem_of_app in Hs as [?|Hs]; [done|].
          apply list_elem_of_singleton in Hs. congruence. }
    case_decide as Hg.
    + eexists. split; [done|]. split; [done|]. split.
      * intros i a. rewrite Hp. split.
        -- intros (s & Hs & Hr). exists s. split; [set_solver|done].
        -- intros (s & Hs & Hne & Hr). exists s. split; [|done].
           apply elem_of_app in Hs as [?|Hs]; [done|].
           apply list_elem_of_singleton in Hs. congruence.
      * by apply Hq'.
    + destruct (Hpol x Hx Hg) as [a Ha]. destruct (Hqv x Hx Hg) as [w Hw].
      rewrite (getitem_Some _ _ _ Ha), (getitem_Some _ _ _ Hw). simpl.
      eexists. split; [done|]. split; [done|]. split.
      * intros i b. destruct (decide (i = index N x)) as [->|Hne].
        -- rewrite lookup_insert_eq. split.
           ++ intros [= <-]. exists x. split; [set_solver|done].
           ++ intros (s & Hs & _ & Hi & Hv). rewrite (Hinj s Hs Hi) in Hv. congruence.
        -- rewrite lookup_insert_ne, Hp by done. split.
           ++ intros (s & Hs & Hr). exists s. split; [set_solver|done].
           ++ intros (s & Hs & Hr). exists s. split; [|done].
              apply elem_of_app in Hs as [?|Hs]; [done|].
              apply list_elem_of_singleton in Hs. destruct Hr as (_ & Hr & _). congruence.
      * by apply Hq'.
  - exists policy_idx, qValues_idx. split; [exact Heq|]. split; [exact Hp|exact Hq].
Qed.

End Extraction.

(** ** The walk *)

Section Walk.
Variables (N : Z) (goal : Cell) (obs : gset Cell).

Lemma NoDup_valid_states (O : gset Cell) : NoDup (valid_states N O).
Proof.
  unfold valid_states. apply NoDup_bind; [| |apply NoDup_range].
  - intros r1 r2 s _ _ H1 H2.
    apply list_elem_of_bind in H1 as (c1 & H1 & _), H2 as (c2 & H2 & _).
    repeat case_decide; set_solver.
  - intros r _. apply NoDup_bind; [| |apply NoDup_range].
    + intros c1 c2 s _ _ H1 H2. repeat case_decide; set_solver.
    + intros c _. case_decide; [apply NoDup_singleton|apply NoDup_nil_2].
Qed.

Lemma length_bind_le {A B} (f : A → list B) (m : nat) (l : list A) :
  (∀ x, length (f x) ≤ m)%nat → (length (l ≫= f) ≤ length l * m)%nat.
Proof.
  intros Hf. induction l as [|x l IH]; csimpl; [lia|].
  rewrite length_app. specialize (Hf x). lia.
Qed.

Lemma length_valid_states (O : gset Cell) :
  (length (valid_states N O) ≤ Z.to_nat (N * N))%nat.
Proof.
  unfold valid_states.
  etrans; [apply (length_bind_le _ (Z.to_nat N))|].
  - intros r. etrans; [apply (length_bind_le _ 1%nat)|].
    + intros c. case_decide; simpl; lia.
    + unfold range. rewrite length_fmap, length_seq. lia.
  - unfold range. rewrite length_fmap, length_seq.
    destruct (decide (0 ≤ N)); [|nia]. rewrite Z2Nat.inj_mul by lia. lia.
Qed.

Lemma elem_of_cells (s : Cell) : s ∈ cells N ↔ in_bounds N s.
Proof.
  unfold cells. rewrite elem_of_list_to_set, elem_of_valid_states. set_solver.
Qed.

Lemma size_cells : (size (cells N) ≤ Z.to_nat (N * N))%nat.
Proof.
  unfold cells. rewrite size_list_to_set.
  - apply length_valid_states.
  - apply NoDup_valid_states.
Qed.

(** The walk stops within its budget: every iteration that goes on adds an
    unvisited cell of the square to [visited].  More fuel changes nothing. *)
Lemma walk_enough (policy_idx : gmap Z (option Action)) :
  ∀ (fuel : nat) (path : list Z) (visited : gset Cell) (current : Cell),
    visited ⊆ cells N →
    (size (cells N ∖ visited) < fuel)%nat →
    walk N goal obs fuel policy_idx path visited current ≠ OutOfFuel
    ∧ ∀ fuel' : nat, (fuel ≤ fuel')%nat →
        walk N goal obs fuel' policy_idx path visited current
        = walk N goal obs fuel policy_idx path visited current.
Proof.
  induction fuel as [|fuel IH]; intros path visited current Hsub Hsize; [lia|].
  assert (∀ fuel' : nat, (S fuel ≤ fuel')%nat → ∃ f, fuel' = S f ∧ (fuel ≤ f)%nat) as Hf.
  { intros [|f] ?; [lia|]. exists f. split; [done|lia]. }
  cut (walk N goal obs (S fuel) policy_idx path visited current ≠ OutOfFuel
       ∧ ∀ f : nat, (fuel ≤ f)%nat →
           walk N goal obs (S f) policy_idx path visited current
           = walk N goal obs (S fuel) policy_idx path visited current).
  { intros [H1 H2]. split; [done|]. intros fuel' (f & -> & Hle)%Hf. by apply H2. }
  simpl. rewrite getitem_idx_map.
  destruct (decide (in_bounds N current)) as [Hb|Hb]; simpl; [|done].
  destruct (decide (current = goal)); [done|].
  destruct (decide (current ∈ visited)) as [|Hnv]; [done|].
  destruct (policy_idx !! index N current) as [a|]; [|done].
  destruct (valid_for_path N obs (follow a current)); simpl; [|done].
  apply elem_of_cells in Hb.
  destruct (IH (path ++ [index N current]) ({[current]} ∪ visited) (follow a current))
    as [H1 H2].
  - set_solver.
  - assert (cells N ∖ ({[current]} ∪ visited) ⊂ cells N ∖ visited) as Hlt by set_solver.
    apply subset_size in Hlt. lia.
  - split; [done|]. intros f Hle. by apply H2.
Qed.

(** Started with nothing visited, the walk needs at most [walk_fuel N]
    iterations. *)
Lemma walk_fuel_enough (policy_idx : gmap Z (option Action)) (start : Cell) :
  walk N goal obs (walk_fuel N) policy_idx [] ∅ start ≠ OutOfFuel
  ∧ ∀ fuel : nat, (walk_fuel N ≤ fuel)%nat →
      walk N goal obs fuel policy_idx [] ∅ start
      = walk N goal obs (walk_fuel N) policy_idx [] ∅ start.
Proof.
  apply walk_enough; [set_solver|].
  rewrite difference_empty_L. pose proof size_cells. unfold walk_fuel. lia.
Qed.

(** What the walk returns is the trace it followed: the cells from [current]
    on, appended to the path as indices; [reachable] tells whether the trace
    ends at the goal. *)
Lemma walk_trace (policy_idx : gmap Z (option Action)) :
  ∀ (fuel : nat) (path0 : list Z) (visited : gset Cell) (current : Cell) path reach,
    walk N goal obs fuel policy_idx path0 visited current = Ok (path, reach) →
    ∃ cs, path = path0 ++ (index N <$> cs)
          ∧ trace N goal obs policy_idx current cs
          ∧ (reach = true ↔ last cs = Some goal).
Proof.
  induction fuel as [|fuel IH]; intros path0 visited current path reach; [done|].
  simpl. rewrite getitem_idx_map.
  destruct (decide (in_bounds N current)) as [Hb|Hb]; simpl; [|done].
  assert (∀ r, (r = true ↔ current = goal) →
            Ok (path0 ++ [index N current], r) = Ok (path, reach) →
            ∃ cs, path = path0 ++ (index N <$> cs)
                  ∧ trace N goal obs policy_idx current cs
                  ∧ (reach = true ↔ last cs = Some goal)) as Hstop.
  { intros r Hr [= <- <-]. exists [current]. split; [done|]. split; [by constructor|].
    simpl. rewrite Hr. split; [by intros ->|by intros [= ->]]. }
  destruct (decide (current = goal)) as [Hg|Hg]; [by apply Hstop|].
  destruct (decide (current ∈ visited)); [by apply Hstop|].
  destruct (policy_idx !! index N current) as [a|] eqn:Ha; [|by apply Hstop].
  destruct (valid_for_path N obs (follow a current)) eqn:Hv; simpl;
    [|by apply Hstop].
  intros (cs & -> & Htr & Hr)%IH. exists (current :: cs). split; [|split].
  - by rewrite <- app_assoc.
  - by apply trace_move with a.
  - rewrite Hr. destruct cs as [|c cs]; [inversion Htr|done].
Qed.

(** A trace that starts off the goal and ends at the goal enters it from a
    cell with a policy entry. *)
Lemma trace_enters_goal (policy_idx : gmap Z (option Action)) (c : Cell) (cs : list Cell) :
  trace N goal obs policy_idx c cs → c ≠ goal → last cs = Some goal →
  ∃ c' a, in_bounds N c' ∧ c' ≠ goal ∧ policy_idx !! index N c' = Some (Some a)
          ∧ move a c' = goal.
Proof.
  induction 1 as [c Hb|c a cs Hb Hg Ha Hv Htr IH]; intros Hne Hlast.
  - simpl in Hlast. congruence.
  - destruct cs as [|c2 cs]; [inversion Htr|].
    change (last (c :: c2 :: cs)) with (last (c2 :: cs)) in Hlast.
    destruct (decide (follow a c = goal)) as [Heq|Hne'].
    + destruct a as [a|]; simpl in Heq; [|congruence]. by exists c, a.
    + by apply IH.
Qed.

Lemma walk_no_KeyError (policy_idx : gmap Z (option Action)) :
  ∀ (fuel : nat) (path : list Z) (visited : gset Cell) (current : Cell),
    in_bounds N current →
    walk N goal obs fuel policy_idx path visited current ≠ KeyError.
Proof.
  induction fuel as [|fuel IH]; intros path visited current Hb; [done|].
  simpl. rewrite getitem_idx_map, decide_True by done. simpl.
  destruct (decide (current = goal)); [done|].
  destruct (decide (current ∈ visited)); [done|].
  destruct (policy_idx !! index N current) as [a|]; [|done].
  destruct (valid_for_path N obs (follow a current)) eqn:Hv; simpl; [|done].
  apply IH. rewrite valid_for_path_is_valid in Hv. by apply is_valid_spec in Hv as [? _].
Qed.

(** From a start cell of the square the walk returns a path and a flag. *)
Lemma walk_returns (policy_idx : gmap Z (option Action)) (start : Cell) :
  in_bounds N start →
  ∃ path reach, walk N goal obs (walk_fuel N) policy_idx [] ∅ start = Ok (path, reach).
Proof.
  intros Hb. pose proof (walk_fuel_enough policy_idx start) as [Hf _].
  pose proof (walk_no_KeyError policy_idx (walk_fuel N) [] ∅ start Hb) as Hk.
  destruct (walk N goal obs (walk_fuel N) policy_idx [] ∅ start) as [[path reach]| |];
    by eauto.
Qed.

(** From a start cell off the square the first index lookup raises. *)
Lemma walk_KeyError (policy_idx : gmap Z (option Action)) (start : Cell) :
  ¬ in_bounds N start →
  walk N goal obs (walk_fuel N) policy_idx [] ∅ start = KeyError.
Proof.
  intros Hb. unfold walk_fuel. rewrite Nat.add_1_r. simpl.
  by rewrite getitem_idx_map, decide_False.
Qed.

Lemma trace_in_bounds (policy_idx : gmap Z (option Action)) (c : Cell) (cs : list Cell) :
  trace N goal obs policy_idx c cs → ∀ x, x ∈ cs → in_bounds N x.
Proof.
  induction 1 as [c Hb|c a cs Hb Hg Ha Hv Htr IH]; intros x Hx.
  - apply list_elem_of_singleton in Hx. by subst.
  - apply elem_of_cons in Hx as [->|Hx]; auto.
Qed.

Lemma trace_head (policy_idx : gmap Z (option Action)) (c : Cell) (cs : list Cell) :
  trace N goal obs policy_idx c cs → head cs = Some c.
Proof. by destruct 1. Qed.

(** Two cells whose policy entries point at each other: the walk visits the
    first, the second, meets the first again and stops there. *)
Lemma walk_two_cycle (policy_idx : gmap Z (option Action)) (a b : Cell) act_a act_b
    (fuel : nat) :
  is_valid N obs a = true → is_valid N obs b = true →
  a ≠ goal → b ≠ goal → a ≠ b →
  policy_idx !! index N a = Some act_a → follow act_a a = b →
  policy_idx !! index N b = Some act_b → follow act_b b = a →
  (3 ≤ fuel)%nat →
  walk N goal obs fuel policy_idx [] ∅ a = Ok ([index N a; index N b; index N a], false).
Proof.
  intros Hva Hvb Hga Hgb Hab Ha Hfa Hb Hfb Hfuel.
  destruct fuel as [|[|[|fuel]]]; try lia.
  pose proof Hva as [Hba _]%is_valid_spec. pose proof Hvb as [Hbb _]%is_valid_spec.
  cbn [walk]. rewrite !getitem_idx_map, !decide_True by done. simpl.
  rewrite decide_False by done. rewrite decide_False by set_solver.
  rewrite Ha, Hfa, valid_for_path_is_valid, Hvb. simpl.
  rewrite !getitem_idx_map, !decide_True by done. simpl.
  rewrite decide_False by done. rewrite decide_False by set_solver.
  rewrite Hb, Hfb, valid_for_path_is_valid, Hva. simpl.
  rewrite !getitem_idx_map, !decide_True by done. simpl.
  rewrite decide_False by done. rewrite decide_True by set_solver. done.
Qed.

(** Every iteration appends one index: the path is no longer than the fuel. *)
Lemma walk_length (policy_idx : gmap Z (option Action)) :
  ∀ (fuel : nat) (path0 : list Z) (visited : gset Cell) (current : Cell) path reach,
    walk N goal obs fuel policy_idx path0 visited current = Ok (path, reach) →
    (length path ≤ length path0 + fuel)%nat.
Proof.
  induction fuel as [|fuel IH]; intros path0 visited current path reach; [done|].
  simpl. destruct (getitem (idx_map N) current) as [i| |]; simpl; try done.
  assert (Ok (path0 ++ [i], true) = Ok (path, reach) ∨
          Ok (path0 ++ [i], false) = Ok (path, reach) →
          (length path ≤ length path0 + S fuel)%nat) as Hstop.
  { intros [[= <- _]|[= <- _]]; rewrite length_app; simpl; lia. }
  destruct (decide (current = goal)); [auto|].
  destruct (decide (current ∈ visited)); [auto|].
  destruct (policy_idx !! i) as [a|]; [|auto].
  destruct (valid_for_path N obs (follow a current)); simpl; [|auto].
  intros Hw%IH. rewrite length_app in Hw. simpl in Hw. lia.
Qed.

End Walk.

(** ** The handler in closed form *)

(** The handler runs [k] rounds of value iteration, reads the policy and the
    Q-values off the last snapshot, keys them by index and walks from the
    start cell.  Nothing before the walk raises. *)
Lemma train_closed_form (data : Request) :
  let N := req_gridSize data in
  let goal := goalPos data in
  let obs := obstacle_set_of data in
  ∃ (k : nat) (policy_idx : gmap Z (option Action)) (qValues_idx : gmap Z float),
    (1 ≤ k ≤ max_iterations)%nat
    ∧ value_iteration N goal obs max_iterations (init_V N obs)
      = Ok (snapshot N goal obs k)
    ∧ (∀ j : nat, (S j < k)%nat →
         (delta_of N goal obs (snapshot N goal obs j) <? threshold)%float = false)
    ∧ ((k < max_iterations)%nat →
         (delta_of N goal obs (snapshot N goal obs (pred k)) <? threshold)%float = true)
    ∧ (∀ i a, policy_idx !! i = Some a ↔
              ∃ s, s ∈ valid_states N obs ∧ s ≠ goal ∧ index N s = i
                   ∧ a = (greedy N goal obs (snapshot N goal obs k) s).1)
    ∧ (∀ i v, qValues_idx !! i = Some v ↔
              ∃ s, s ∈ valid_states N obs ∧ index N s = i
                   ∧ v = new_value N goal obs (snapshot N goal obs k) s)
    ∧ train data =
      '(path, reachable) ← walk N goal obs (walk_fuel N) policy_idx [] ∅ (startPos data);
      Ok {| policy := policy_idx; qValues := qValues_idx;
            path := path; reachable := reachable |}.
Proof.
  intros N goal obs. unfold snapshot.
  destruct (value_iteration_rounds N goal obs max_iterations (init_V N obs)
              (covers_init_V N obs)) as (k & Hk & Hpos & HV & Hbefore & Hstop).
  pose proof (covers_snapshot N goal obs k _ (covers_init_V N obs)) as Hcov.
  destruct (extract_greedy N goal obs _ Hcov) as (pol & qv & Hex & Hpol & Hqv).
  destruct (reindex_index N goal obs pol qv) as (pi & qi & Hre & Hpi & Hqi).
  { intros s Hs Hg. rewrite Hpol, decide_True by done. eauto. }
  { intros s Hs Hg. rewrite Hqv, decide_True by done. eauto. }
  exists k, pi, qi. split; [unfold max_iterations in *; lia|].
  split; [exact HV|]. split; [exact Hbefore|]. split; [exact Hstop|].
  split; [|split].
  - intros i a. rewrite Hpi. split; intros (s & Hs & Hg & Hi & Ha); exists s;
      (split; [done|]; split; [done|]; split; [done|]).
    + rewrite Hpol, decide_True in Ha by done. congruence.
    + rewrite Hpol, decide_True by done. congruence.
  - intros i v. rewrite Hqi. split; intros (s & Hs & Hi & Hv); exists s;
      (split; [done|]; split; [done|]).
    + case_decide as Hg.
      * subst v. unfold new_value. by rewrite decide_True.
      * rewrite Hqv, decide_True in Hv by done. congruence.
    + case_decide as Hg.
      * subst v. unfold new_value. by rewrite decide_True.
      * rewrite Hqv, decide_True by done. congruence.
  - unfold train. fold N goal. change (list_to_set (obstacles data)) with obs.
    rewrite HV. simpl. rewrite Hex. simpl. rewrite Hre. done.
Qed.

(** The step budget of the walk is never what ends a run of the handler. *)
Lemma train_never_out_of_fuel (data : Request) : train data ≠ OutOfFuel.
Proof.
  destruct (train_closed_form data) as (k & pi & qi & _ & _ & _ & _ & _ & _ & ->).
  pose proof (walk_fuel_enough (req_gridSize data) (goalPos data) (obstacle_set_of data)
                pi (startPos data)) as [Hne _].
  by destruct (walk _ _ _ _ pi [] ∅ (startPos data)) as [[p r]| |].
Qed.

(** ** Scans with a strict comparison *)

Lemma scan_snoc (q : Action → float) (l : list Action) (x : Action) init :
  scan q (l ++ [x]) init =
  let '(best_a, best_value) := scan q l init in
  if (best_value <? q x)%float then (Some x, q x) else (best_a, best_value).
Proof. unfold scan. rewrite foldl_app. simpl. by destruct (foldl _ init l). Qed.

(** What a scan from [(None, -inf)] leaves: nothing when no value exceeds
    [-inf]; otherwise an action whose value no later value exceeds and no
    earlier value reaches. *)
Lemma scan_result (q : Action → float) (l : list Action) :
  match scan q l (None, neg_infinity) with
  | (None, best_value) =>
      best_value = neg_infinity ∧ ∀ a, a ∈ l → (neg_infinity <? q a)%float = false
  | (Some b, best_value) =>
      best_value = q b ∧ (neg_infinity <? q b)%float = true
      ∧ ∃ l1 l2, l = l1 ++ b :: l2
                 ∧ (∀ a, a ∈ l1 → (q b <=? q a)%float = false)
                 ∧ (∀ a, a ∈ l2 → (q b <? q a)%float = false)
  end.
Proof.
  induction l as [|x l IH] using rev_ind; [by split; [|set_solver]|].
  rewrite scan_snoc. destruct (scan q l (None, neg_infinity)) as [[b|] bv].
  - destruct IH as (-> & Hinf & l1 & l2 & -> & H1 & H2).
    destruct (q b <? q x)%float eqn:Hlt.
    + split; [done|]. split; [by eapply flt_trans|].
      exists (l1 ++ b :: l2), []. split; [done|]. split; [|set_solver].
      intros a Ha. destruct (q x <=? q a)%float eqn:Hle; [|done].
      pose proof (flt_le_trans _ _ _ Hlt Hle) as Hba.
      apply elem_of_app in Ha as [Ha|Ha].
      * apply H1 in Ha. apply flt_le in Hba. congruence.
      * apply elem_of_cons in Ha as [->|Ha].
        -- rewrite flt_irrefl in Hba. done.
        -- apply H2 in Ha. congruence.
    + split; [done|]. split; [done|].
      exists l1, (l2 ++ [x]). split; [by rewrite <- app_assoc|]. split; [done|].
      intros a [Ha| ->%list_elem_of_singleton]%elem_of_app; auto.
  - destruct IH as [-> Hnone]. destruct (neg_infinity <? q x)%float eqn:Hlt.
    + split; [done|]. split; [done|].
      exists l, []. split; [done|]. split; [|set_solver].
      intros a Ha. destruct (q x <=? q a)%float eqn:Hle; [|done].
      pose proof (flt_le_trans _ _ _ Hlt Hle) as Hba.
      apply Hnone in Ha. congruence.
    + split; [done|].
      intros a [Ha| ->%list_elem_of_singleton]%elem_of_app; auto.
Qed.

Lemma actions_split (b : Action) (l1 l2 : list Action) (a : Action) :
  actions = l1 ++ b :: l2 → (a ∈ l1 ↔ (rank a < rank b)%nat).
Proof.
  unfold actions. intros H.
  destruct l1 as [|x1 [|x2 [|x3 [|x4 l1]]]]; simplify_eq/=;
    try (by destruct l1); destruct a; simpl; split; try lia; set_solver.
Qed.

(** When every value is a number and one of them exceeds [-inf], the scan
    over the four actions returns the first action of the largest value. *)
Lemma scan_earliest_max (q : Action → float) :
  (∀ a, is_nan (q a) = false) → (∃ a, (neg_infinity <? q a)%float = true) →
  ∃ b, scan q actions (None, neg_infinity) = (Some b, q b) ∧ earliest_max q b.
Proof.
  intros Hnan [a0 Ha0]. pose proof (scan_result q actions) as H.
  destruct (scan q actions (None, neg_infinity)) as [[b|] bv].
  - destruct H as (-> & Hinf & l1 & l2 & Hl & H1 & H2).
    exists b. split; [done|]. split.
    + intros a. assert (a ∈ actions) as Ha by (destruct a; set_solver).
      rewrite Hl in Ha. apply elem_of_app in Ha as [Ha|Ha].
      * apply flt_le, fnle_lt; auto.
      * apply elem_of_cons in Ha as [->|Ha]; [by apply fle_refl|].
        apply fnlt_le; auto.
    + intros a Ha. apply (actions_split b l1 l2 a Hl) in Ha. apply fnle_lt; auto.
  - destruct H as [_ H]. rewrite H in Ha0; [done|]. destruct a0; set_solver.
Qed.

(** The running maximum of a list of numbers, from a number: the largest of
    them in the order of the floats. *)
Lemma foldl_py_max (xs : list float) : ∀ d : float,
  is_nan d = false → (∀ x, x ∈ xs → is_nan x = false) →
  let r := foldl py_max d xs in
  (d <=? r)%float = true
  ∧ (∀ x, x ∈ xs → (x <=? r)%float = true)
  ∧ (r = d ∨ r ∈ xs).
Proof.
  induction xs as [|x xs IH]; intros d Hd Hxs; simpl.
  - split; [by apply fle_refl|]. split; [set_solver|by left].
  - assert (is_nan x = false) as Hx by (apply Hxs; left).
    assert (is_nan (py_max d x) = false) as Hm by (unfold py_max; by destruct (d <? x)%float).
    destruct (IH (py_max d x) Hm) as (H1 & H2 & H3); [set_solver|].
    assert ((d <=? py_max d x)%float = true ∧ (x <=? py_max d x)%float = true) as [Hd' Hx'].
    { unfold py_max. destruct (d <? x)%float eqn:Hlt.
      - split; [by apply flt_le|by apply fle_refl].
      - split; [by apply fle_refl|by apply fnlt_le]. }
    split; [by eapply fle_trans|]. split.
    + intros y [->|Hy]%elem_of_cons; [by eapply fle_trans|auto].
    + destruct H3 as [H3|H3]; [|right; by right].
      rewrite H3. unfold py_max. destruct (d <? x)%float; [right; left|by left].
Qed.

(** ** The values value iteration can produce *)

Lemma orbit_lookup (f : float → float) (n : nat) : ∀ (x : float) (j : nat),
  (j < n)%nat → orbit f n x !! j = Some (Nat.iter j f x).
Proof.
  induction n as [|n IH]; intros x j Hj; [lia|].
  destruct j as [|j]; simpl; [done|].
  rewrite IH by lia. by rewrite <- Nat.iter_succ_r.
Qed.

Lemma forallb_orbit (f : float → float) (check : float → bool) (n : nat) (x : float) :
  forallb check (orbit f n x) = true →
  ∀ j : nat, (j < n)%nat → check (Nat.iter j f x) = true.
Proof.
  intros H j Hj. rewrite forallb_forall in H. apply H.
  apply list_elem_of_In, list_elem_of_lookup. exists j. by apply orbit_lookup.
Qed.

Lemma good_checked : forallb good_check (orbit advance horizon 1.0%float) = true.
Proof. vm_compute. reflexivity. Qed.

Lemma zero_checked : good_check 0.0%float = true.
Proof. vm_compute. reflexivity. Qed.

Lemma iso_checked : forallb iso_check (orbit bump horizon 0.0%float) = true.
Proof. vm_compute. reflexivity. Qed.

Lemma good_good_check (k : nat) (v : float) :
  (k ≤ horizon)%nat → good k v → good_check v = true.
Proof.
  intros Hk [->|(j & Hj & ->)]; [apply zero_checked|].
  apply (forallb_orbit _ _ _ _ good_checked). lia.
Qed.

Lemma iso_iso_check (j : nat) : (j < horizon)%nat → iso_check (iso j) = true.
Proof. apply (forallb_orbit _ _ _ _ iso_checked). Qed.

Lemma good_mono (k : nat) (v : float) : good k v → good (S k) v.
Proof. intros [->|(j & Hj & ->)]; [by left|right]. exists j. split; [lia|done]. Qed.

Lemma good_finite (k : nat) (v : float) :
  (k ≤ horizon)%nat → good k v → finite v ∧ (0.0 <=? v)%float = true.
Proof.
  intros Hk Hv. apply (good_good_check k v Hk) in Hv.
  unfold good_check in Hv. rewrite !andb_true_iff in Hv.
  destruct Hv as [[[H0 Hinf] _] _]. split; [|done]. split; [|done].
  by apply (flt_le_trans _ 0.0%float).
Qed.

Lemma bump_good_finite (k : nat) (v : float) :
  (k ≤ horizon)%nat → good k v → finite (bump v) ∧ (bump v <? 0.0)%float = true.
Proof.
  intros Hk Hv. apply (good_good_check k v Hk) in Hv.
  unfold good_check in Hv. rewrite !andb_true_iff in Hv.
  destruct Hv as [[[_ _] Hneg] Hinf]. split; [|done]. split; [done|].
  by apply (flt_trans _ 0.0%float).
Qed.

Lemma iso_finite (j : nat) : (j < horizon)%nat → finite (iso j).
Proof.
  intros Hj. apply iso_iso_check in Hj. unfold iso_check in Hj.
  by apply andb_true_iff in Hj.
Qed.

Section Values.
Variables (N : Z) (goal : Cell) (obs : gset Cell).

Lemma isolated_false (s : Cell) :
  isolated N obs s = false ↔ ∃ a, is_valid N obs (move a s) = true.
Proof.
  unfold isolated, actions. simpl. split.
  - intros H. rewrite !andb_false_iff, !negb_false_iff in H.
    destruct H as [H|[H|[H|[H|H]]]]; eauto. done.
  - intros [[] H]; rewrite H; simpl; rewrite ?andb_false_r; done.
Qed.

Lemma isolated_true (s : Cell) (a : Action) :
  isolated N obs s = true → is_valid N obs (move a s) = false.
Proof.
  unfold isolated, actions. simpl. rewrite !andb_true_iff, !negb_true_iff.
  destruct a; tauto.
Qed.

(** A valid state reached by a move has a valid move: the way back. *)
Lemma neighbour_not_isolated (s : Cell) (a : Action) :
  is_valid N obs s = true → isolated N obs (move a s) = false.
Proof.
  intros Hs. apply isolated_false.
  destruct (move_back a s (move a s) eq_refl) as [a' Ha']. exists a'. by rewrite Ha'.
Qed.

(** The value of an action in a state other than the goal: a bump into a
    wall, which costs one and stays, or a move to a state with a valid move. *)
Lemma q_value_cases (k : nat) (V : gmap Cell float) (s : Cell) (v : float) (a : Action) :
  value_inv N goal obs k V → s ∈ valid_states N obs → s ≠ goal → V !! s = Some v →
  (is_valid N obs (move a s) = false ∧ q_value N goal obs V s a = bump v)
  ∨ (is_valid N obs (move a s) = true ∧ good (S k) (q_value N goal obs V s a)).
Proof.
  intros HV Hs Hg Hv. unfold q_value, step. rewrite decide_False by done.
  destruct (is_valid N obs (move a s)) eqn:Hn; simpl.
  - right. split; [done|].
    pose proof Hn as Hn'%valid_states_is_valid.
    destruct (HV _ Hn') as (w & Hw & Hshape).
    destruct (decide (move a s = goal)) as [Hng|Hng]; simpl; rewrite Hw; simpl.
    + subst w. right. exists 0%nat. split; [lia|]. vm_compute. reflexivity.
    + rewrite neighbour_not_isolated in Hshape by by apply valid_states_is_valid.
      destruct Hshape as [->|(j & Hj & ->)].
      * left. vm_compute. reflexivity.
      * right. exists (S j). split; [lia|done].
  - left. split; [done|]. by rewrite Hv.
Qed.

(** The values of the four actions of a state are finite numbers. *)
Lemma q_value_finite (k : nat) (V : gmap Cell float) (s : Cell) (a : Action) :
  value_inv N goal obs k V → (S k < horizon)%nat →
  s ∈ valid_states N obs → s ≠ goal →
  finite (q_value N goal obs V s a).
Proof.
  intros HV Hk Hs Hg. destruct (HV s Hs) as (v & Hv & Hshape).
  rewrite decide_False in Hshape by done.
  destruct (q_value_cases k V s v a HV Hs Hg Hv) as [[Hn ->]|[Hn Hgood]].
  - destruct (isolated N obs s).
    + subst v. apply (iso_finite (S k)). lia.
    + apply (bump_good_finite k); [lia|done].
  - apply (good_finite (S k)); [lia|done].
Qed.

(** The new value of a state other than the goal: the next value of an
    isolated state, a good value otherwise. *)
Lemma greedy_value (k : nat) (V : gmap Cell float) (s : Cell) :
  value_inv N goal obs k V → (S k < horizon)%nat →
  s ∈ valid_states N obs → s ≠ goal →
  if isolated N obs s then (greedy N goal obs V s).2 = iso (S k)
  else good (S k) (greedy N goal obs V s).2.
Proof.
  intros HV Hk Hs Hg. destruct (HV s Hs) as (v & Hv & Hshape).
  rewrite decide_False in Hshape by done.
  pose proof (scan_result (q_value N goal obs V s) actions) as Hscan.
  pose proof (λ a, q_value_finite k V s a HV Hk Hs Hg) as Hfin.
  unfold greedy. destruct (scan _ actions _) as [[b|] bv]; simpl.
  2:{ destruct Hscan as [_ Hnone]. destruct (Hfin U) as [HU _].
      rewrite Hnone in HU; [done|]. set_solver. }
  destruct Hscan as (-> & _ & l1 & l2 & Hl & H1 & H2).
  destruct (isolated N obs s) eqn:Hiso.
  - subst v. destruct (q_value_cases k V s _ b HV Hs Hg Hv) as [[_ ->]|[Hn _]]; [done|].
    by rewrite (isolated_true s b Hiso) in Hn.
  - destruct (q_value_cases k V s v b HV Hs Hg Hv) as [[Hn Hb]|[_ Hgood]]; [|done].
    exfalso. apply isolated_false in Hiso as [a0 Ha0].
    destruct (q_value_cases k V s v a0 HV Hs Hg Hv) as [[Hn0 _]|[_ Hgood]]; [congruence|].
    assert ((q_value N goal obs V s b <? q_value N goal obs V s a0)%float = true) as Hlt.
    { rewrite Hb. apply (flt_le_trans _ 0.0%float).
      - apply (bump_good_finite k); [lia|done].
      - apply (good_finite (S k)); [lia|done]. }
    assert (a0 ∈ actions) as Hin by (destruct a0; set_solver).
    rewrite Hl in Hin. apply elem_of_app in Hin as [Hin|Hin].
    + apply H1 in Hin. apply flt_le in Hlt. congruence.
    + apply elem_of_cons in Hin as [->|Hin].
      * by rewrite flt_irrefl in Hlt.
      * apply H2 in Hin. congruence.
Qed.

(** One round keeps the shape of the value function. *)
Lemma value_inv_jacobi (k : nat) (V : gmap Cell float) :
  value_inv N goal obs k V → (S k < horizon)%nat →
  value_inv N goal obs (S k) (jacobi N goal obs V).
Proof.
  intros HV Hk s Hs. rewrite jacobi_lookup, decide_True by done.
  eexists. split; [done|]. unfold new_value. case_decide as Hg; [done|].
  by apply greedy_value.
Qed.

Lemma value_inv_init : value_inv N goal obs 0 (init_V N obs).
Proof.
  intros s Hs. rewrite init_V_lookup, decide_True by done.
  eexists. split; [done|]. case_decide; [done|].
  destruct (isolated N obs s); [done|by left].
Qed.

Lemma value_inv_snapshot (k : nat) :
  (k < horizon)%nat → value_inv N goal obs k (snapshot N goal obs k).
Proof.
  induction k as [|k IH]; intros Hk; [apply value_inv_init|].
  unfold snapshot. simpl. apply value_inv_jacobi; [|done]. apply IH. lia.
Qed.

(** The state of a value function of that shape is a finite number. *)
Lemma value_inv_finite (k : nat) (V : gmap Cell float) (s : Cell) :
  value_inv N goal obs k V → (k < horizon)%nat → s ∈ valid_states N obs →
  ∃ v, V !! s = Some v ∧ finite v.
Proof.
  intros HV Hk Hs. destruct (HV s Hs) as (v & Hv & Hshape). exists v. split; [done|].
  case_decide; [by subst v|]. destruct (isolated N obs s).
  - subst v. by apply iso_finite.
  - apply (good_finite k); [lia|done].
Qed.

(** In every round, and at extraction, the scan of a state other than the
    goal returns the first action of the largest value. *)
Lemma greedy_earliest_max (k : nat) (V : gmap Cell float) (s : Cell) :
  value_inv N goal obs k V → (S k < horizon)%nat →
  s ∈ valid_states N obs → s ≠ goal →
  ∃ b, greedy N goal obs V s = (Some b, q_value N goal obs V s b)
       ∧ earliest_max (q_value N goal obs V s) b.
Proof.
  intros HV Hk Hs Hg. apply scan_earliest_max.
  - intros a. apply finite_not_nan. by apply (q_value_finite k).
  - exists U. by apply (q_value_finite k).
Qed.

(** The delta of a round is the largest change of the round. *)
Lemma delta_of_max (k : nat) (V : gmap Cell float) :
  value_inv N goal obs k V → (S k < horizon)%nat →
  (0.0 <=? delta_of N goal obs V)%float = true
  ∧ (∀ s, s ∈ valid_states N obs → s ≠ goal →
          (change N goal obs V s <=? delta_of N goal obs V)%float = true)
  ∧ (delta_of N goal obs V = 0.0%float
     ∨ ∃ s, s ∈ valid_states N obs ∧ s ≠ goal
            ∧ delta_of N goal obs V = change N goal obs V s).
Proof.
  intros HV Hk. unfold delta_of.
  destruct (foldl_py_max
              (change N goal obs V <$> filter (λ s, s ≠ goal) (valid_states N obs))
              0.0%float) as (H0 & Hall & Hone); [done| |].
  - intros x (s & -> & [Hg Hs]%list_elem_of_filter)%list_elem_of_fmap.
    unfold change. destruct (value_inv_finite k V s HV ltac:(lia) Hs) as (v & -> & Hv).
    simpl. apply abs_sub_not_nan; [|done].
    unfold new_value. rewrite decide_False by done.
    destruct (greedy_earliest_max k V s HV Hk Hs Hg) as (b & -> & _). simpl.
    by apply (q_value_finite k).
  - split; [done|]. split.
    + intros s Hs Hg. apply Hall, list_elem_of_fmap. exists s. split; [done|].
      by apply list_elem_of_filter.
    + destruct Hone as [?|(s & ? & [? ?]%list_elem_of_filter)%list_elem_of_fmap];
        [by left|right; eauto].
Qed.

End Values.

(** ** The claims about the handler *)

Lemma snapshot_succ_lookup (N : Z) (goal : Cell) (obs : gset Cell) (j : nat) (s : Cell) :
  s ∈ valid_states N obs →
  snapshot N goal obs (S j) !! s = Some (new_value N goal obs (snapshot N goal obs j) s).
Proof.
  intros Hs. change (snapshot N goal obs (S j))
    with (jacobi N goal obs (snapshot N goal obs j)).
  rewrite jacobi_lookup. by apply decide_True.
Qed.

(** The snapshots the loop can reach have the shape of [value_inv]. *)
Lemma snapshot_shape (N : Z) (goal : Cell) (obs : gset Cell) (j : nat) :
  (j ≤ max_iterations)%nat →
  value_inv N goal obs j (snapshot N goal obs j) ∧ (S j < horizon)%nat
  ∧ covers N obs (snapshot N goal obs j).
Proof.
  intros Hj. unfold max_iterations, horizon in *.
  split; [apply value_inv_snapshot; unfold horizon; lia|]. split; [lia|].
  apply covers_snapshot, covers_init_V.
Qed.

(** A normal result of the handler carries the two index maps and what the
    walk returned. *)
Lemma walk_response (w : outcome (list Z * bool))
    (pi : gmap Z (option Action)) (qi : gmap Z float) (resp : Response) :
  w ≫= (λ '(path, reachable),
          Ok {| policy := pi; qValues := qi; path := path; reachable := reachable |})
  = Ok resp →
  policy resp = pi ∧ qValues resp = qi ∧ w = Ok (path resp, reachable resp).
Proof. destruct w as [[p r]| |]; simpl; [|done..]. by intros [= <-]. Qed.

(** C2: value iteration runs [k] rounds, at least one and at most
    [max_iterations = 1000], and returns the snapshot after the last of them
    without ever raising.  Every round is one synchronous update: its new
    values are computed from the snapshot of the round before alone, 0.0 at
    the goal and, at any other valid state, the largest
    [reward + 0.9 * V(next)] over the four actions.  The delta of a round is
    the largest [|newV(s) - oldV(s)|] over the valid states.  The loop goes on
    after every round whose delta is not below [threshold = 1e-3], and stops
    before the budget is spent only after a round whose delta is below it. *)
Theorem value_iteration_synchronous (N : Z) (goal : Cell) (obs : gset Cell) :
  ∃ k : nat,
    (1 ≤ k ≤ max_iterations)%nat
    ∧ value_iteration N goal obs max_iterations (init_V N obs)
      = Ok (snapshot N goal obs k)
    ∧ (∀ j : nat, (j < k)%nat →
         sweep N goal obs (snapshot N goal obs j)
         = Ok (delta_of N goal obs (snapshot N goal obs j), snapshot N goal obs (S j)))
    ∧ (∀ j : nat, (S j < k)%nat →
         (delta_of N goal obs (snapshot N goal obs j) <? threshold)%float = false)
    ∧ ((k < max_iterations)%nat →
         (delta_of N goal obs (snapshot N goal obs (pred k)) <? threshold)%float = true)
    ∧ (∀ (j : nat) s, (j < max_iterations)%nat → s ∈ valid_states N obs →
         if decide (s = goal)
         then snapshot N goal obs (S j) !! s = Some 0.0%float
         else ∃ a,
             snapshot N goal obs (S j) !! s
             = Some (q_value N goal obs (snapshot N goal obs j) s a)
             ∧ ∀ a', (q_value N goal obs (snapshot N goal obs j) s a'
                      <=? q_value N goal obs (snapshot N goal obs j) s a)%float = true)
    ∧ (∀ j : nat, (j < max_iterations)%nat →
         let delta := delta_of N goal obs (snapshot N goal obs j) in
         (∀ s v v', s ∈ valid_states N obs →
                    snapshot N goal obs j !! s = Some v →
                    snapshot N goal obs (S j) !! s = Some v' →
                    (abs (v' - v) <=? delta)%float = true)
         ∧ (delta = 0.0%float
            ∨ ∃ s v v', s ∈ valid_states N obs
                        ∧ snapshot N goal obs j !! s = Some v
                        ∧ snapshot N goal obs (S j) !! s = Some v'
                        ∧ delta = abs (v' - v))).
Proof.
  destruct (value_iteration_rounds N goal obs max_iterations (init_V N obs)
              (covers_init_V N obs)) as (k & Hk & Hpos & HV & Hbefore & Hstop).
  assert (∀ j : nat, (j < max_iterations)%nat →
            value_inv N goal obs j (snapshot N goal obs j) ∧ (S j < horizon)%nat) as Hinv.
  { intros j Hj. destruct (snapshot_shape N goal obs j) as (? & ? & _); [lia|done]. }
  exists k. split; [unfold max_iterations in *; lia|]. split; [exact HV|].
  split; [|split; [exact Hbefore|split; [exact Hstop|split]]].
  - intros j _. apply sweep_jacobi, covers_snapshot, covers_init_V.
  - intros j s Hj Hs. destruct (Hinv j Hj) as [Hvi Hh].
    rewrite (snapshot_succ_lookup N goal obs j s Hs). unfold new_value.
    destruct (decide (s = goal)) as [Hg|Hg]; [done|].
    destruct (greedy_earliest_max N goal obs j _ s Hvi Hh Hs Hg) as (a & -> & Hmax & _).
    by exists a.
  - intros j Hj delta. destruct (Hinv j Hj) as [Hvi Hh].
    destruct (delta_of_max N goal obs j _ Hvi Hh) as (H0 & Hall & Hone).
    fold delta in H0, Hall, Hone.
    assert (∀ s v v', s ∈ valid_states N obs →
              snapshot N goal obs j !! s = Some v →
              snapshot N goal obs (S j) !! s = Some v' →
              v' = new_value N goal obs (snapshot N goal obs j) s
              ∧ (s ≠ goal → change N goal obs (snapshot N goal obs j) s = abs (v' - v))
              ∧ (s = goal → abs (v' - v) = 0.0%float)) as Hch.
    { intros s v v' Hs Hv Hv'.
      rewrite (snapshot_succ_lookup N goal obs j s Hs) in Hv'.
      injection Hv' as <-. split; [done|]. split.
      - intros _. unfold change. by rewrite Hv.
      - intros ->. destruct (Hvi goal Hs) as (w & Hw & Hshape).
        rewrite decide_True in Hshape by done. unfold new_value.
        rewrite decide_True by done. by simplify_eq. }
    split.
    + intros s v v' Hs Hv Hv'. destruct (Hch s v v' Hs Hv Hv') as (_ & Hne & Heq).
      destruct (decide (s = goal)) as [Hg|Hg].
      * by rewrite Heq.
      * rewrite <- Hne by done. by apply Hall.
    + destruct Hone as [?|(s & Hs & Hg & Hd)]; [by left|right].
      destruct (value_inv_finite N goal obs j _ s Hvi ltac:(lia) Hs) as (v & Hv & _).
      exists s, v, (new_value N goal obs (snapshot N goal obs j) s).
      split; [done|]. split; [done|]. split.
      * by apply snapshot_succ_lookup.
      * rewrite Hd. unfold change. by rewrite Hv.
Qed.

(** C3: ties go to the first action in the order U, D, L, R.  In every round
    of value iteration and at policy extraction the scan of a valid state
    other than the goal keeps the first action that attains the largest value
    [reward + 0.9 * V(next)]: no action has a larger value and every action
    tried earlier has a strictly smaller one.  That value is the new value of
    the state, and at extraction that action is the policy action the handler
    returns for the state, and its value the Q-value. *)
Theorem ties_first_action (data : Request) :
  let N := req_gridSize data in
  let goal := goalPos data in
  let obs := obstacle_set_of data in
  ∃ k : nat,
    (k ≤ max_iterations)%nat
    ∧ value_iteration N goal obs max_iterations (init_V N obs)
      = Ok (snapshot N goal obs k)
    ∧ (∀ (j : nat) s, (j < k)%nat → s ∈ valid_states N obs → s ≠ goal →
         ∃ a, earliest_max (q_value N goal obs (snapshot N goal obs j) s) a
              ∧ best_action_value N goal obs (snapshot N goal obs j) s
                = Ok (q_value N goal obs (snapshot N goal obs j) s a)
              ∧ snapshot N goal obs (S j) !! s
                = Some (q_value N goal obs (snapshot N goal obs j) s a))
    ∧ (∀ s, s ∈ valid_states N obs → s ≠ goal →
         ∃ a, earliest_max (q_value N goal obs (snapshot N goal obs k) s) a
              ∧ best_action N goal obs (snapshot N goal obs k) s
                = Ok (Some a, q_value N goal obs (snapshot N goal obs k) s a)
              ∧ ∀ resp, train data = Ok resp →
                  policy resp !! index N s = Some (Some a)
                  ∧ qValues resp !! index N s
                    = Some (q_value N goal obs (snapshot N goal obs k) s a))
    ∧ (in_bounds N (startPos data) → ∃ resp, train data = Ok resp).
Proof.
  intros N goal obs.
  destruct (train_closed_form data)
    as (k & pi & qi & Hk & HV & _ & _ & Hpi & Hqi & Htrain).
  fold N goal obs in HV, Hpi, Hqi, Htrain.
  exists k. split; [lia|]. split; [exact HV|]. split; [|split].
  - intros j s Hj Hs Hg.
    destruct (snapshot_shape N goal obs j ltac:(lia)) as (Hvi & Hh & Hcov).
    destruct (greedy_earliest_max N goal obs j _ s Hvi Hh Hs Hg) as (a & Hgr & Hmax).
    exists a. split; [done|]. split.
    + rewrite best_action_value_greedy by done. by rewrite Hgr.
    + etrans; [exact (snapshot_succ_lookup N goal obs j s Hs)|].
      unfold new_value. by rewrite decide_False, Hgr.
  - intros s Hs Hg.
    destruct (snapshot_shape N goal obs k ltac:(lia)) as (Hvi & Hh & Hcov).
    destruct (greedy_earliest_max N goal obs k _ s Hvi Hh Hs Hg) as (a & Hgr & Hmax).
    exists a. split; [done|]. split.
    + rewrite best_action_greedy by done. by rewrite Hgr.
    + intros resp Hresp. rewrite Htrain in Hresp.
      apply walk_response in Hresp as (-> & -> & _). split.
      * apply Hpi. exists s. by rewrite Hgr.
      * apply Hqi. exists s. unfold new_value. by rewrite decide_False, Hgr.
  - intros Hstart. rewrite Htrain.
    destruct (walk_returns N goal obs pi (startPos data) Hstart) as (p & r & ->).
    simpl. eauto.
Qed.

(** On the 3 x 3 grid Down and Right are worth the same at the start cell,
    and the policy holds Down, which is tried first. *)
Lemma tie_at_start :
  q_value 3 (2, 2) ∅ (snapshot 3 (2, 2) ∅ 5) (0, 0) D
  = q_value 3 (2, 2) ∅ (snapshot 3 (2, 2) ∅ 5) (0, 0) R
  ∧ policy_at (train req33) 1 = Some (Some D).
Proof. vm_compute. done. Qed.

(** C4: on a valid grid (the goal on the grid and not an obstacle) the
    handler, which returns whenever the start lies on the grid too, returns
    maps in which [qValues] holds exactly 0.0 at the index of the goal,
    [policy] has no entry there, and every other non-obstacle cell has an
    action in [policy] and a value in [qValues]. *)
Theorem absorbing_goal (data : Request) :
  let N := req_gridSize data in
  let goal := goalPos data in
  let obs := obstacle_set_of data in
  in_bounds N goal → goal ∉ obs →
  (in_bounds N (startPos data) → ∃ resp, train data = Ok resp)
  ∧ ∀ resp, train data = Ok resp →
      qValues resp !! index N goal = Some 0.0%float
      ∧ policy resp !! index N goal = None
      ∧ ∀ s, in_bounds N s → s ∉ obs → s ≠ goal →
             (∃ a : Action, policy resp !! index N s = Some (Some a))
             ∧ is_Some (qValues resp !! index N s).
Proof.
  intros N goal obs Hgoal Hobs.
  destruct (train_closed_form data)
    as (k & pi & qi & Hk & _ & _ & _ & Hpi & Hqi & Htrain).
  fold N goal obs in Hpi, Hqi, Htrain. split.
  - intros Hstart. rewrite Htrain.
    destruct (walk_returns N goal obs pi (startPos data) Hstart) as (p & r & ->).
    simpl. eauto.
  - intros resp Hresp. rewrite Htrain in Hresp.
    apply walk_response in Hresp as (-> & -> & _). split; [|split].
    + apply Hqi. exists goal. split; [by apply elem_of_valid_states|]. split; [done|].
      unfold new_value. by rewrite decide_True.
    + destruct (pi !! index N goal) as [a|] eqn:Ha; [|done].
      apply Hpi in Ha as (s & Hs & Hne & Hi & _).
      apply (valid_states_in_bounds N obs) in Hs.
      by apply (index_inj N s goal) in Hi.
    + intros s Hb Ho Hne.
      assert (s ∈ valid_states N obs) as Hs by by apply elem_of_valid_states.
      split.
      * destruct (snapshot_shape N goal obs k ltac:(lia)) as (Hvi & Hh & _).
        destruct (greedy_earliest_max N goal obs k _ s Hvi Hh Hs Hne) as (a & Hgr & _).
        exists a. apply Hpi. exists s. by rewrite Hgr.
      * eexists. apply Hqi. by exists s.
Qed.

Lemma absorbing_goal_witness :
  (in_bounds 3 (0, 0) → ∃ resp, train req33 = Ok resp)
  ∧ ∀ resp, train req33 = Ok resp →
      qValues resp !! index 3 (2, 2) = Some 0.0%float
      ∧ policy resp !! index 3 (2, 2) = None
      ∧ ∀ s, in_bounds 3 s → s ∉ obstacle_set_of req33 → s ≠ (2, 2) →
             (∃ a : Action, policy resp !! index 3 s = Some (Some a))
             ∧ is_Some (qValues resp !! index 3 s).
Proof.
  apply (absorbing_goal req33).
  - unfold in_bounds. simpl. lia.
  - unfold obstacle_set_of. simpl. set_solver.
Defined.

Lemma train_req33 : path_of (train req33) = Some ([1; 4; 7; 8; 9], true).
Proof. vm_compute. reflexivity. Qed.

(** C5: on the 3 x 3 grid without obstacles, from (0, 0) to (2, 2), the
    handler returns [reachable = true] and a path of exactly five cells, from
    the start to the goal; each cell of the path follows the one before it by
    a Down or a Right move, strictly closer to the goal in Manhattan
    distance. *)
Theorem small_grid_path :
  ∃ resp cs,
    train req33 = Ok resp
    ∧ reachable resp = true
    ∧ length (path resp) = 5%nat
    ∧ path resp = index 3 <$> cs
    ∧ head cs = Some (0, 0) ∧ last cs = Some (2, 2)
    ∧ ∀ (i : nat) c c', cs !! i = Some c → cs !! S i = Some c' →
        (c' = move D c ∨ c' = move R c)
        ∧ manhattan c' (2, 2) < manhattan c (2, 2).
Proof.
  pose proof train_req33 as H. unfold path_of in H.
  destruct (train req33) as [resp| |]; try done.
  injection H as Hp Hr.
  exists resp, [(0, 0); (1, 0); (2, 0); (2, 1); (2, 2)].
  rewrite Hp, Hr. do 6 (split; [done|]).
  intros i c c' H1 H2.
  destruct i as [|[|[|[|[|i']]]]]; simpl in H1, H2; simplify_eq;
    (split; [simpl; auto|by vm_compute]).
Qed.

(** C6: the walk of the path reconstructor terminates for every grid, every
    policy map and every start cell: within [walk_fuel] iterations the loop
    has stopped, since every iteration that goes on marks a cell of the square
    not visited before, and more iterations change nothing.  When the policy
    sends two cells to each other, the walk from the first returns
    [reachable = false] with the path traced so far: the first cell, the
    second, and the first again. *)
Theorem walk_terminates (N : Z) (goal : Cell) (obs : gset Cell)
    (policy_idx : gmap Z (option Action)) (start : Cell) :
  walk N goal obs (walk_fuel N) policy_idx [] ∅ start ≠ OutOfFuel
  ∧ (∀ fuel : nat, (walk_fuel N ≤ fuel)%nat →
       walk N goal obs fuel policy_idx [] ∅ start
       = walk N goal obs (walk_fuel N) policy_idx [] ∅ start)
  ∧ (∀ path reach,
       walk N goal obs (walk_fuel N) policy_idx [] ∅ start = Ok (path, reach) →
       (length path ≤ walk_fuel N)%nat)
  ∧ (∀ b act_a act_b,
       is_valid N obs start = true → is_valid N obs b = true →
       start ≠ goal → b ≠ goal → start ≠ b →
       policy_idx !! index N start = Some act_a → follow act_a start = b →
       policy_idx !! index N b = Some act_b → follow act_b b = start →
       walk N goal obs (walk_fuel N) policy_idx [] ∅ start
       = Ok ([index N start; index N b; index N start], false)).
Proof.
  pose proof (walk_fuel_enough N goal obs policy_idx start) as [Hne Hmore].
  split; [done|]. split; [done|]. split.
  - intros path reach Hw. eapply walk_length in Hw. simpl in Hw. lia.
  - intros b act_a act_b Hva Hvb Hga Hgb Hab Ha Hfa Hb Hfb.
    rewrite <- (Hmore (walk_fuel N + 3)%nat) by lia.
    eapply walk_two_cycle; eauto. lia.
Qed.

(** With the goal walled off, the policy the handler extracts sends (0, 0)
    Down and (1, 0) Up: the walk oscillates and is cut at the third cell. *)
Lemma train_walled :
  path_of (train req_walled) = Some ([1; 4; 1], false)
  ∧ policy_at (train req_walled) 1 = Some (Some D)
  ∧ policy_at (train req_walled) 4 = Some (Some U).
Proof. vm_compute. done. Qed.

(** The run of a walk *)

Section Run.
Variables (N : Z) (goal : Cell) (obs : gset Cell).

(** The cells a walk appends, in full: the cells [cs] it left through a
    policy entry, pairwise distinct, none of them visited before and none the
    goal, then the cell [c_last] at which it stopped, for one of the reasons
    of [stop]. *)
Lemma walk_run (policy_idx : gmap Z (option Action)) :
  ∀ (fuel : nat) (path0 : list Z) (visited : gset Cell) (current : Cell) path reach,
    walk N goal obs fuel policy_idx path0 visited current = Ok (path, reach) →
    ∃ cs c_last,
      path = path0 ++ (index N <$> (cs ++ [c_last]))
      ∧ trace N goal obs policy_idx current (cs ++ [c_last])
      ∧ NoDup cs
      ∧ (∀ c, c ∈ cs → c ∉ visited ∧ c ≠ goal)
      ∧ stop N goal obs policy_idx (λ c, c ∈ visited ∨ c ∈ cs) c_last reach.
Proof.
  induction fuel as [|fuel IH]; intros path0 visited current path reach; [done|].
  simpl. rewrite getitem_idx_map.
  destruct (decide (in_bounds N current)) as [Hb|Hb]; simpl; [|done].
  assert (∀ r : bool,
            stop N goal obs policy_idx (λ c, c ∈ visited ∨ c ∈ ([] : list Cell)) current r →
            Ok (path0 ++ [index N current], r) = Ok (path, reach) →
            ∃ cs c_last,
              path = path0 ++ (index N <$> (cs ++ [c_last]))
              ∧ trace N goal obs policy_idx current (cs ++ [c_last])
              ∧ NoDup cs
              ∧ (∀ c, c ∈ cs → c ∉ visited ∧ c ≠ goal)
              ∧ stop N goal obs policy_idx (λ c, c ∈ visited ∨ c ∈ cs) c_last reach)
    as Hstop.
  { intros r Hr [= <- <-]. exists [], current. split; [done|].
    split; [by constructor|]. split; [constructor|]. split; [set_solver|done]. }
  destruct (decide (current = goal)) as [Hg|Hg]; [by apply Hstop, stop_goal|].
  destruct (decide (current ∈ visited)) as [Hv|Hv];
    [apply Hstop, stop_revisit; auto|].
  destruct (policy_idx !! index N current) as [a|] eqn:Ha;
    [|by apply Hstop, stop_no_entry].
  destruct (valid_for_path N obs (follow a current)) eqn:Hvalid; simpl;
    [|by apply Hstop, stop_invalid with a].
  intros (cs & c_last & -> & Htr & Hnd & Hcs & Hr)%IH.
  exists (current :: cs), c_last. split; [by rewrite <- app_assoc|].
  split; [by apply trace_move with a|]. split; [|split].
  - constructor; [|done]. intros Hin. apply Hcs in Hin. set_solver.
  - intros c [->|Hc]%elem_of_cons; [done|]. apply Hcs in Hc. set_solver.
  - destruct Hr as [Hr|Hne Hr|Hne Hr|a' Hne Hr Hinv].
    + by apply stop_goal.
    + apply stop_revisit; [done|]. set_solver.
    + by apply stop_no_entry.
    + by apply stop_invalid with a'.
Qed.

End Run.

(** What a normal result holds: the maps of the closed form, and the run of
    the walk from the start cell with nothing visited. *)
Lemma train_result (data : Request) (resp : Response) :
  let N := req_gridSize data in
  let goal := goalPos data in
  let obs := obstacle_set_of data in
  train data = Ok resp →
  ∃ (k : nat) cs c_last,
    (1 ≤ k ≤ max_iterations)%nat
    ∧ (∀ i a, policy resp !! i = Some a ↔
              ∃ s, s ∈ valid_states N obs ∧ s ≠ goal ∧ index N s = i
                   ∧ a = (greedy N goal obs (snapshot N goal obs k) s).1)
    ∧ (∀ i v, qValues resp !! i = Some v ↔
              ∃ s, s ∈ valid_states N obs ∧ index N s = i
                   ∧ v = new_value N goal obs (snapshot N goal obs k) s)
    ∧ path resp = index N <$> (cs ++ [c_last])
    ∧ trace N goal obs (policy resp) (startPos data) (cs ++ [c_last])
    ∧ NoDup cs
    ∧ (∀ c, c ∈ cs → c ≠ goal)
    ∧ stop N goal obs (policy resp) (λ c, c ∈ cs) c_last (reachable resp).
Proof.
  intros N goal obs Hresp.
  destruct (train_closed_form data)
    as (k & pi & qi & Hk & _ & _ & _ & Hpi & Hqi & Htrain).
  fold N goal obs in Hpi, Hqi, Htrain. rewrite Htrain in Hresp.
  apply walk_response in Hresp as (-> & -> & Hw).
  apply walk_run in Hw as (cs & c_last & Hp & Htr & Hnd & Hcs & Hstop).
  exists k, cs, c_last. split; [done|]. split; [done|]. split; [done|].
  split; [done|]. split; [done|]. split; [done|]. split; [intros c Hc; by apply Hcs|].
  destruct Hstop as [Hr|Hne Hr|Hne Hr|a' Hne Hr Hinv].
  - by apply stop_goal.
  - apply stop_revisit; [done|]. set_solver.
  - by apply stop_no_entry.
  - by apply stop_invalid with a'.
Qed.

Section Unique.
Variables (N : Z) (goal : Cell) (obs : gset Cell).
Variable policy_idx : gmap Z (option Action).

(** The flag of a stop is decided by the cell. *)
Lemma stop_flag (seen seen' : Cell → Prop) (c : Cell) (r r' : bool) :
  stop N goal obs policy_idx seen c r → stop N goal obs policy_idx seen' c r' → r = r'.
Proof. by intros [] []. Qed.

(** A cell the walk leaves is not one at which it stops. *)
Lemma stop_not_left (pre : list Cell) (c : Cell) (a : option Action) (r : bool) :
  c ≠ goal → c ∉ pre → policy_idx !! index N c = Some a →
  is_valid N obs (follow a c) = true →
  ¬ stop N goal obs policy_idx (λ x, x ∈ pre) c r.
Proof.
  intros Hg Hpre Ha Hv [?|? ?|? Hnone|a' ? Ha' Hinv]; try done.
  - congruence.
  - rewrite Ha in Ha'. injection Ha' as <-. congruence.
Qed.

(** The run of a walk is determined by the policy, the start and the cells
    seen before. *)
Lemma run_unique (cs : list Cell) :
  ∀ (pre : list Cell) (start c_last : Cell) (r : bool) (cs' : list Cell)
    (c_last' : Cell) (r' : bool),
    trace N goal obs policy_idx start (cs ++ [c_last]) →
    NoDup (pre ++ cs) → (∀ c, c ∈ cs → c ≠ goal) →
    stop N goal obs policy_idx (λ x, x ∈ pre ++ cs) c_last r →
    trace N goal obs policy_idx start (cs' ++ [c_last']) →
    NoDup (pre ++ cs') → (∀ c, c ∈ cs' → c ≠ goal) →
    stop N goal obs policy_idx (λ x, x ∈ pre ++ cs') c_last' r' →
    cs' = cs ∧ c_last' = c_last ∧ r' = r.
Proof.
  induction cs as [|x cs IH];
    intros pre start c_last r cs' c_last' r' Htr Hnd Hcs Hstop Htr' Hnd' Hcs' Hstop'.
  - pose proof (trace_head _ _ _ _ _ _ Htr) as Hh. simpl in Hh. injection Hh as ->.
    destruct cs' as [|x' cs'].
    + pose proof (trace_head _ _ _ _ _ _ Htr') as Hh. simpl in Hh. injection Hh as ->.
      split; [done|]. split; [done|]. by apply (stop_flag _ _ _ _ _ Hstop' Hstop).
    + exfalso.
      pose proof (trace_head _ _ _ _ _ _ Htr') as Hh. simpl in Hh. injection Hh as ->.
      inversion Htr' as [|c a l Hb Hg Ha Hv Htl]; subst; [by destruct cs'|].
      rewrite app_nil_r in Hstop.
      apply (stop_not_left pre start a r); try done.
      apply NoDup_app in Hnd' as (_ & Hdis & _). intros Hin.
      apply (Hdis _ Hin). by left.
  - pose proof (trace_head _ _ _ _ _ _ Htr) as Hh. simpl in Hh. injection Hh as ->.
    inversion Htr as [|c a l Hb Hg Ha Hv Htl]; subst; [by destruct cs|].
    assert (start ∉ pre) as Hpre.
    { apply NoDup_app in Hnd as (_ & Hdis & _). intros Hin. apply (Hdis _ Hin). by left. }
    destruct cs' as [|x' cs'].
    + exfalso.
      pose proof (trace_head _ _ _ _ _ _ Htr') as Hh. simpl in Hh. injection Hh as ->.
      rewrite app_nil_r in Hstop'. by apply (stop_not_left pre start a r').
    + pose proof (trace_head _ _ _ _ _ _ Htr') as Hh. simpl in Hh. injection Hh as ->.
      inversion Htr' as [|c a' l Hb' Hg' Ha' Hv' Htl']; subst; [by destruct cs'|].
      rewrite Ha in Ha'. injection Ha' as <-.
      destruct (IH (pre ++ [start]) (follow a start) c_last r cs' c_last' r')
        as (-> & -> & ->); try done.
      * by rewrite <- app_assoc.
      * intros c Hc. apply Hcs. by right.
      * by rewrite <- app_assoc.
      * by rewrite <- app_assoc.
      * intros c Hc. apply Hcs'. by right.
      * by rewrite <- app_assoc.
Qed.

End Unique.

(** C7: on a grid whose start differs from the goal and in which every
    in-bounds 4-neighbour of the goal is an obstacle, the handler, which
    returns whenever the start lies on the grid, returns [reachable = false]
    together with the run of the walk up to the point it stops, never an
    empty path: the indices of the cells [cs] the walk left, from the start
    on, each a cell other than the goal, met for the first time, with a
    policy entry whose move is valid and leads to the next cell, and then the
    index of the cell [c_last] at which it stopped, because it had been
    there before, or found no policy entry, or an entry whose move is
    invalid.  No other list of cells has these properties: a prefix of the
    run, the start cell alone or the empty list are not such a path. *)
Theorem walled_off_goal (data : Request) :
  let N := req_gridSize data in
  let goal := goalPos data in
  let obs := obstacle_set_of data in
  startPos data ≠ goal →
  (∀ a, in_bounds N (move a goal) → move a goal ∈ obs) →
  (in_bounds N (startPos data) → ∃ resp, train data = Ok resp)
  ∧ ∀ resp, train data = Ok resp →
      reachable resp = false
      ∧ ∃ cs c_last,
          path resp = index N <$> (cs ++ [c_last])
          ∧ head (cs ++ [c_last]) = Some (startPos data)
          ∧ trace N goal obs (policy resp) (startPos data) (cs ++ [c_last])
          ∧ NoDup cs
          ∧ (∀ c, c ∈ cs → c ≠ goal)
          ∧ stop N goal obs (policy resp) (λ c, c ∈ cs) c_last false
          ∧ ∀ cs' c_last',
              trace N goal obs (policy resp) (startPos data) (cs' ++ [c_last']) →
              NoDup cs' → (∀ c, c ∈ cs' → c ≠ goal) →
              stop N goal obs (policy resp) (λ c, c ∈ cs') c_last' false →
              cs' = cs ∧ c_last' = c_last.
Proof.
  intros N goal obs Hne Hwall. split.
  - intros Hstart.
    destruct (train_closed_form data) as (k & pi & qi & _ & _ & _ & _ & _ & _ & Htrain).
    fold N goal obs in Htrain. rewrite Htrain.
    destruct (walk_returns N goal obs pi (startPos data) Hstart) as (p & r & ->).
    simpl. eauto.
  - intros resp Hresp.
    destruct (train_result data resp Hresp)
      as (k & cs & c_last & _ & Hpi & _ & Hpath & Htr & Hnd & Hcs & Hstop).
    fold N goal obs in Hpi, Hpath, Htr, Hcs, Hstop.
    assert (reachable resp = false) as Hreach.
    { destruct (reachable resp); [|done]. exfalso.
      inversion Hstop as [Hlast| | |]. subst c_last.
      destruct (trace_enters_goal N goal obs (policy resp) _ _ Htr Hne)
        as (c & a & Hb & Hg & Ha & Hm); [by rewrite last_snoc|].
      apply Hpi in Ha as (s & Hs & _ & Hi & _).
      apply elem_of_valid_states in Hs as [Hbs Hos].
      apply (index_inj N s c) in Hi; [|done..]. subst s.
      apply move_back in Hm as (a' & Hm). specialize (Hwall a').
      rewrite Hm in Hwall. auto. }
    rewrite Hreach in Hstop. split; [done|]. exists cs, c_last.
    split; [done|]. split; [by apply trace_head in Htr|].
    split; [done|]. split; [done|]. split; [done|]. split; [done|].
    intros cs' c_last' Htr' Hnd' Hcs' Hstop'.
    destruct (run_unique N goal obs (policy resp) cs [] (startPos data) c_last false
                cs' c_last' false) as (? & ? & _); done.
Qed.

Lemma walled_off_goal_witness :
  (in_bounds 3 (0, 0) → ∃ resp, train req_walled = Ok resp)
  ∧ ∀ resp, train req_walled = Ok resp →
      reachable resp = false
      ∧ ∃ cs c_last,
          path resp = index 3 <$> (cs ++ [c_last])
          ∧ head (cs ++ [c_last]) = Some (0, 0)
          ∧ trace 3 (2, 2) (obstacle_set_of req_walled) (policy resp) (0, 0)
              (cs ++ [c_last])
          ∧ NoDup cs
          ∧ (∀ c, c ∈ cs → c ≠ (2, 2))
          ∧ stop 3 (2, 2) (obstacle_set_of req_walled) (policy resp) (λ c, c ∈ cs)
              c_last false
          ∧ ∀ cs' c_last',
              trace 3 (2, 2) (obstacle_set_of req_walled) (policy resp) (0, 0)
                (cs' ++ [c_last']) →
              NoDup cs' → (∀ c, c ∈ cs' → c ≠ (2, 2)) →
              stop 3 (2, 2) (obstacle_set_of req_walled) (policy resp) (λ c, c ∈ cs')
                c_last' false →
              cs' = cs ∧ c_last' = c_last.
Proof.
  apply (walled_off_goal req_walled).
  - intros [=].
  - unfold in_bounds, obstacle_set_of. intros []; simpl; intros ?; (lia || set_solver).
Defined.

(** The pure part of the handler depends on the obstacles as a set. *)
Lemma train_same_input (data1 data2 : Request) :
  req_gridSize data1 = req_gridSize data2 →
  startPos data1 = startPos data2 →
  goalPos data1 = goalPos data2 →
  (∀ c, c ∈ obstacles data1 ↔ c ∈ obstacles data2) →
  train data1 = train data2.
Proof.
  intros HN Hs Hg Ho.
  assert (obstacle_set_of data1 = obstacle_set_of data2) as Hset.
  { unfold obstacle_set_of. apply set_eq. intros c. by rewrite !elem_of_list_to_set. }
  unfold train. fold (obstacle_set_of data1) (obstacle_set_of data2).
  by rewrite HN, Hs, Hg, Hset.
Qed.

(** What a call of the view does to the process. *)
Lemma train_view_process {Rng Globals : Type} (data : Request) (p : Process Rng Globals) :
  (train_view data p).1 = train data
  ∧ rng (train_view data p).2 = rng p
  ∧ globals (train_view data p).2 = globals p
  ∧ ∃ printed, stdout (train_view data p).2 = stdout p ++ printed
               ∧ (length printed ≤ 1)%nat.
Proof.
  unfold train_view. destruct (train data) as [resp| |]; simpl.
  - repeat split; try done. eexists [_]. split; [done|]. simpl. lia.
  - repeat split; try done. exists []. split; [by rewrite app_nil_r|]. simpl. lia.
  - repeat split; try done. exists []. split; [by rewrite app_nil_r|]. simpl. lia.
Qed.



Lemma train_goal_off : path_of (train req_goal_off) = Some ([1; 3; 1], false).
Proof. vm_compute. reflexivity. Qed.

(** C9, as stated, fails: with the goal off the grid and the start on it the
    handler returns a normal result. *)
Lemma goal_off_grid_not_rejected : ¬ rejects_invalid_input.
Proof.
  intros Hrej. pose proof train_goal_off as H.
  destruct (train req_goal_off) as [resp| |] eqn:Htrain; try done.
  apply (Hrej req_goal_off) in Htrain; [done|].
  right. right. unfold in_bounds. simpl. lia.
Qed.

(** C9, amended: the handler validates nothing.  With a non-positive grid
    size or a start cell off the grid it fails, with the [KeyError] of the
    index lookup of the start cell; with the start on the grid and only the
    goal off the grid it returns a normal result whose flag is
    [reachable = false]. *)
Theorem train_on_invalid_input (data : Request) :
  let N := req_gridSize data in
  (N ≤ 0 → train data = KeyError)
  ∧ (¬ in_bounds N (startPos data) → train data = KeyError)
  ∧ (in_bounds N (startPos data) → ¬ in_bounds N (goalPos data) →
     ∃ resp, train data = Ok resp ∧ reachable resp = false).
Proof.
  intros N.
  destruct (train_closed_form data) as (k & pi & qi & _ & _ & _ & _ & _ & _ & ->).
  fold N.
  assert (¬ in_bounds N (startPos data) →
          walk N (goalPos data) (obstacle_set_of data) (walk_fuel N) pi [] ∅ (startPos data)
          ≫= (λ '(path, reachable),
                Ok {| policy := pi; qValues := qi; path := path; reachable := reachable |})
          = KeyError) as Hoff.
  { intros Hb. by rewrite walk_KeyError. }
  split; [|split; [done|]].
  - intros HN. apply Hoff. unfold in_bounds. lia.
  - intros Hstart Hgoal.
    destruct (walk_returns N (goalPos data) (obstacle_set_of data) pi (startPos data) Hstart)
      as (p & r & Hw).
    rewrite Hw. simpl. eexists. split; [done|]. simpl.
    apply walk_trace in Hw as (cs & _ & Htr & Hr).
    destruct r; [|done]. exfalso. apply Hgoal.
    apply (trace_in_bounds _ _ _ _ _ _ Htr). apply list_elem_of_lookup.
    exists (pred (length cs)). rewrite <- last_lookup. by apply Hr.
Qed.

(** C10: [step] is closed over the state space.  For every valid state other
    than the goal and every action the next state is a valid state, wherever
    the goal lies; hence every lookup [V[nxt]] of value iteration and of policy
    extraction succeeds, and neither ever raises. *)
Theorem step_closed_lookups_succeed (N : Z) (goal : Cell) (obs : gset Cell) :
  (∀ s a, s ∈ valid_states N obs → s ≠ goal →
          (step N goal obs s a).1 ∈ valid_states N obs)
  ∧ (∀ V s, covers N obs V → s ∈ valid_states N obs → s ≠ goal →
            ∃ best_a best_value,
              best_action_value N goal obs V s = Ok best_value
              ∧ best_action N goal obs V s = Ok (best_a, best_value))
  ∧ (∀ n : nat, ∃ V policy qValues,
       value_iteration N goal obs n (init_V N obs) = Ok V
       ∧ covers N obs V
       ∧ extract N goal obs V = Ok (policy, qValues)).
Proof.
  split; [|split].
  - intros s a Hs _. by apply step_closed.
  - intros V s HV Hs _.
    exists (greedy N goal obs V s).1, (greedy N goal obs V s).2. split.
    + by apply best_action_value_greedy.
    + rewrite best_action_greedy by done. by destruct (greedy N goal obs V s).
  - intros n.
    destruct (value_iteration_rounds N goal obs n (init_V N obs) (covers_init_V N obs))
      as (k & _ & _ & HV & _).
    pose proof (covers_snapshot N goal obs k _ (covers_init_V N obs)) as Hcov.
    destruct (extract_greedy N goal obs _ Hcov) as (pol & qv & Hex & _).
    eauto 10.
Qed.

(** * Further properties of the handler *)

(** ** The run of the walk *)

Section RunFacts.
Variables (N : Z) (goal : Cell) (obs : gset Cell).

(** The last cell of a trace of several cells was entered from a cell of the
    trace, through its policy entry. *)
Lemma trace_last_step (policy_idx : gmap Z (option Action)) (c : Cell)
    (cs : list Cell) (l : Cell) :
  trace N goal obs policy_idx c (cs ++ [l]) → cs ≠ [] →
  ∃ p a, p ∈ cs ∧ in_bounds N p ∧ p ≠ goal
         ∧ policy_idx !! index N p = Some a
         ∧ l = follow a p ∧ is_valid N obs l = true.
Proof.
  revert c. induction cs as [|x cs IH]; intros c Htr Hne; [done|].
  inversion Htr; subst; [by destruct cs|].
  destruct cs as [|y cs].
  - match goal with H : trace _ _ _ _ _ ([] ++ [l]) |- _ => apply trace_head in H as Hh end.
    injection Hh as ->. eexists _, _. split; [by left|done].
  - match goal with H : trace _ _ _ _ _ ((y :: cs) ++ [l]) |- _ =>
      destruct (IH _ H) as (p & a' & Hp & Hrest); [done|] end.
    exists p, a'. split; [by right|done].
Qed.

Lemma trace_all_in_bounds (policy_idx : gmap Z (option Action)) (c : Cell) (cs : list Cell) :
  trace N goal obs policy_idx c cs → Forall (in_bounds N) cs.
Proof.
  intros Htr. apply Forall_forall. intros x Hx.
  by apply (trace_in_bounds N goal obs policy_idx c cs Htr).
Qed.

(** Consecutive cells of a trace: the second is where the policy entry of the
    first leads, a valid cell. *)
Lemma trace_steps (policy_idx : gmap Z (option Action)) (c : Cell) (cs : list Cell) :
  trace N goal obs policy_idx c cs →
  ∀ (i : nat) x y, cs !! i = Some x → cs !! S i = Some y →
    x ≠ goal ∧ ∃ a, policy_idx !! index N x = Some a
                    ∧ y = follow a x ∧ is_valid N obs y = true.
Proof.
  induction 1 as [c Hb|c a cs Hb Hg Ha Hv Htr IH]; intros i x y Hx Hy.
  - by destruct i.
  - destruct i as [|i]; simpl in Hx, Hy.
    + injection Hx as <-. apply trace_head in Htr.
      destruct cs as [|z cs]; simplify_eq/=. split; [done|]. by exists a.
    + by apply (IH i).
Qed.

End RunFacts.

Section Policy.
Variables (N : Z) (goal : Cell) (obs : gset Cell).

(** The action the scan keeps: a valid move whenever the state has one, and
    Up, the first action tried, when all four moves are invalid. *)
Lemma greedy_action (k : nat) (V : gmap Cell float) (s : Cell) :
  value_inv N goal obs k V → (S k < horizon)%nat →
  s ∈ valid_states N obs → s ≠ goal →
  ∃ b, greedy N goal obs V s = (Some b, q_value N goal obs V s b)
       ∧ if isolated N obs s then b = U else is_valid N obs (move b s) = true.
Proof.
  intros HV Hk Hs Hg.
  destruct (greedy_earliest_max N goal obs k V s HV Hk Hs Hg) as (b & Hgr & Hle & Hlt).
  exists b. split; [done|].
  destruct (HV s Hs) as (v & Hv & Hshape). rewrite decide_False in Hshape by done.
  destruct (isolated N obs s) eqn:Hiso.
  - destruct (decide (b = U)) as [|Hb]; [done|]. exfalso.
    assert (rank U < rank b)%nat as Hr by (destruct b; simpl; (done || lia)).
    apply Hlt in Hr.
    destruct (q_value_cases N goal obs k V s v U HV Hs Hg Hv) as [[_ HU]|[HU _]];
      [|by rewrite (isolated_true N goal obs s U Hiso) in HU].
    destruct (q_value_cases N goal obs k V s v b HV Hs Hg Hv) as [[_ Hqb]|[Hqb _]];
      [|by rewrite (isolated_true N goal obs s b Hiso) in Hqb].
    rewrite HU, Hqb in Hr. by rewrite flt_irrefl in Hr.
  - destruct (q_value_cases N goal obs k V s v b HV Hs Hg Hv) as [[_ Hqb]|[Hqb _]];
      [|done].
    exfalso. apply isolated_false in Hiso as [a0 Ha0].
    destruct (q_value_cases N goal obs k V s v a0 HV Hs Hg Hv) as [[Hn0 _]|[_ Hgood]];
      [congruence|].
    specialize (Hle a0). rewrite Hqb in Hle.
    assert ((bump v <? q_value N goal obs V s a0)%float = true) as Hlt'.
    { apply (flt_le_trans _ 0.0%float).
      - apply (bump_good_finite k); [lia|done].
      - apply (good_finite (S k)); [lia|done]. }
    pose proof (fle_lt_trans _ _ _ Hle Hlt') as Habs.
    by rewrite flt_irrefl in Habs.
Qed.

End Policy.

(** ** Every result of the handler *)

(** The policy entry of a cell of the grid other than the goal, in a result
    of the handler: none on an obstacle; otherwise an action, a valid move
    whenever the cell has one and Up when it has none. *)
Lemma policy_entry (data : Request) (resp : Response) (c : Cell) :
  let N := req_gridSize data in
  let goal := goalPos data in
  let obs := obstacle_set_of data in
  train data = Ok resp → in_bounds N c → c ≠ goal →
  if decide (c ∈ obs) then policy resp !! index N c = None
  else ∃ b : Action,
      policy resp !! index N c = Some (Some b)
      ∧ if isolated N obs c then b = U else is_valid N obs (move b c) = true.
Proof.
  intros N goal obs Hresp Hb Hg.
  destruct (train_result data resp Hresp) as (k & cs & c_last & Hk & Hpi & _).
  fold N goal obs in Hpi.
  case_decide as Ho.
  - destruct (policy resp !! index N c) as [a|] eqn:Ha; [|done].
    apply Hpi in Ha as (s & Hs & _ & Hi & _).
    apply elem_of_valid_states in Hs as [Hbs Hos].
    apply (index_inj N s c) in Hi; [|done..]. by subst.
  - assert (c ∈ valid_states N obs) as Hs by by apply elem_of_valid_states.
    destruct (snapshot_shape N goal obs k ltac:(lia)) as (Hvi & Hh & _).
    destruct (greedy_action N goal obs k _ c Hvi Hh Hs Hg) as (b & Hgr & Hmove).
    exists b. split; [|done]. apply Hpi. exists c. by rewrite Hgr.
Qed.

Lemma train_returns (data : Request) :
  in_bounds (req_gridSize data) (startPos data) → ∃ resp, train data = Ok resp.
Proof.
  intros Hstart.
  destruct (train_closed_form data) as (k & pi & qi & _ & _ & _ & _ & _ & _ & ->).
  destruct (walk_returns _ (goalPos data) (obstacle_set_of data) pi _ Hstart)
    as (p & r & ->).
  simpl. eauto.
Qed.

(** X1: the start cell is the goal.  The handler returns at once: the path is
    the start cell alone and [reachable = true], whatever the obstacles,
    also when the start cell itself is listed as an obstacle. *)
Theorem start_is_goal (data : Request) :
  let N := req_gridSize data in
  in_bounds N (startPos data) → startPos data = goalPos data →
  ∃ resp, train data = Ok resp
          ∧ path resp = [index N (startPos data)]
          ∧ reachable resp = true.
Proof.
  intros N Hstart Heq.
  destruct (train_closed_form data) as (k & pi & qi & _ & _ & _ & _ & _ & _ & ->).
  fold N. unfold walk_fuel. rewrite Nat.add_1_r. simpl.
  rewrite getitem_idx_map, decide_True by done. simpl.
  rewrite decide_True by done. simpl. eauto.
Qed.

Lemma start_is_goal_witness :
  ∃ resp, train {| req_gridSize := 2; startPos := (1, 1); goalPos := (1, 1);
                   obstacles := [(1, 1); (0, 1)] |} = Ok resp
          ∧ path resp = [index 2 (1, 1)]
          ∧ reachable resp = true.
Proof.
  apply (start_is_goal {| req_gridSize := 2; startPos := (1, 1); goalPos := (1, 1);
                          obstacles := [(1, 1); (0, 1)] |}).
  - unfold in_bounds. simpl. lia.
  - reflexivity.
Defined.

(** X2: the start cell is an obstacle and not the goal.  It has no policy
    entry, so the walk stops where it starts: the path is the start cell
    alone and [reachable = false]. *)
Theorem start_on_obstacle (data : Request) :
  let N := req_gridSize data in
  in_bounds N (startPos data) → startPos data ∈ obstacle_set_of data →
  startPos data ≠ goalPos data →
  ∃ resp, train data = Ok resp
          ∧ path resp = [index N (startPos data)]
          ∧ reachable resp = false.
Proof.
  intros N Hstart Hobs Hne.
  destruct (train_returns data Hstart) as [resp Hresp]. exists resp. split; [done|].
  pose proof (policy_entry data resp (startPos data) Hresp Hstart Hne) as Hnone.
  rewrite decide_True in Hnone by done. fold N in Hnone.
  destruct (train_closed_form data) as (k & pi & qi & _ & _ & _ & _ & _ & _ & Htrain).
  rewrite Htrain in Hresp. apply walk_response in Hresp as (Hpi & _ & Hw).
  fold N in Hw. rewrite Hpi in Hnone.
  unfold walk_fuel in Hw. rewrite Nat.add_1_r in Hw. simpl in Hw.
  rewrite getitem_idx_map, decide_True in Hw by done. simpl in Hw.
  rewrite decide_False in Hw by done. rewrite decide_False in Hw by set_solver.
  rewrite Hnone in Hw. by injection Hw as <- <-.
Qed.

Lemma start_on_obstacle_witness :
  ∃ resp, train {| req_gridSize := 2; startPos := (0, 1); goalPos := (1, 1);
                   obstacles := [(0, 1)] |} = Ok resp
          ∧ path resp = [index 2 (0, 1)]
          ∧ reachable resp = false.
Proof.
  apply (start_on_obstacle {| req_gridSize := 2; startPos := (0, 1); goalPos := (1, 1);
                              obstacles := [(0, 1)] |}).
  - unfold in_bounds. simpl. lia.
  - unfold obstacle_set_of. simpl. set_solver.
  - intros [=].
Defined.

(** X3: the shape of every path the handler returns.  The path lists the
    indices of cells of the grid, the start cell first, at most
    [gridSize * gridSize + 1] of them.  Every cell but the last is a
    non-obstacle cell left by the move its policy entry names, to a
    non-obstacle cell.  The cells before the last are pairwise distinct.
    [reachable] is true exactly when the last cell is the goal, and then the
    goal occurs nowhere earlier in the path. *)
Theorem path_shape (data : Request) (resp : Response) :
  let N := req_gridSize data in
  let goal := goalPos data in
  let obs := obstacle_set_of data in
  train data = Ok resp →
  ∃ cs c_last,
    path resp = index N <$> (cs ++ [c_last])
    ∧ head (cs ++ [c_last]) = Some (startPos data)
    ∧ Forall (in_bounds N) (cs ++ [c_last])
    ∧ (length (path resp) ≤ Z.to_nat (N * N) + 1)%nat
    ∧ NoDup cs
    ∧ (∀ (i : nat) x y,
         (cs ++ [c_last]) !! i = Some x → (cs ++ [c_last]) !! S i = Some y →
         ∃ a : Action, policy resp !! index N x = Some (Some a) ∧ y = move a x
                       ∧ is_valid N obs x = true ∧ is_valid N obs y = true)
    ∧ (reachable resp = true ↔ c_last = goal)
    ∧ (reachable resp = true → c_last ∉ cs).
Proof.
  intros N goal obs Hresp.
  destruct (train_result data resp Hresp)
    as (k & cs & c_last & _ & _ & _ & Hp & Htr & Hnd & Hcs & Hstop).
  fold N goal obs in Hp, Htr, Hcs, Hstop.
  exists cs, c_last. split; [done|]. split; [by eapply trace_head|].
  split; [by eapply trace_all_in_bounds|]. split; [|split; [done|split; [|split]]].
  - destruct (train_closed_form data) as (k' & pi & qi & _ & _ & _ & _ & _ & _ & Htrain).
    rewrite Htrain in Hresp. apply walk_response in Hresp as (_ & _ & Hw).
    apply walk_length in Hw. simpl in Hw. unfold walk_fuel in Hw. done.
  - intros i x y Hx Hy.
    destruct (trace_steps N goal obs _ _ _ Htr i x y Hx Hy) as (Hg & a & Ha & -> & Hv).
    assert (in_bounds N x) as Hb.
    { eapply (trace_in_bounds N goal obs _ _ _ Htr), list_elem_of_lookup_2, Hx. }
    pose proof (policy_entry data resp x Hresp Hb Hg) as Hentry.
    fold N goal obs in Hentry. case_decide as Ho; [congruence|].
    destruct Hentry as (b & Hb' & _). rewrite Hb' in Ha. injection Ha as <-.
    exists b. split; [done|]. split; [done|]. split; [|done].
    by apply is_valid_spec.
  - split.
    + intros Hr. rewrite Hr in Hstop. by inversion Hstop.
    + intros Hg. destruct Hstop; (done || congruence).
  - intros Hr Hin. rewrite Hr in Hstop. inversion Hstop as [Hg| | |].
    apply Hcs in Hin. done.
Qed.

Lemma path_shape_witness :
  ∃ resp cs c_last,
    train req33 = Ok resp
    ∧ path resp = index 3 <$> (cs ++ [c_last])
    ∧ head (cs ++ [c_last]) = Some (0, 0)
    ∧ Forall (in_bounds 3) (cs ++ [c_last])
    ∧ (length (path resp) ≤ Z.to_nat (3 * 3) + 1)%nat
    ∧ NoDup cs
    ∧ (∀ (i : nat) x y,
         (cs ++ [c_last]) !! i = Some x → (cs ++ [c_last]) !! S i = Some y →
         ∃ a : Action, policy resp !! index 3 x = Some (Some a) ∧ y = move a x
                       ∧ is_valid 3 (obstacle_set_of req33) x = true
                       ∧ is_valid 3 (obstacle_set_of req33) y = true)
    ∧ (reachable resp = true ↔ c_last = (2, 2))
    ∧ (reachable resp = true → c_last ∉ cs).
Proof.
  destruct (train_returns req33) as [resp Hresp].
  - unfold in_bounds. simpl. lia.
  - destruct (path_shape req33 resp Hresp) as (cs & c_last & H).
    exists resp, cs, c_last. split; [exact Hresp|exact H].
Defined.

(** X4: why a walk fails.  When the handler returns [reachable = false],
    either the walk never left the start cell, which is then an obstacle or a
    cell all of whose four moves are invalid, or it ran into a cycle: the last
    cell of the path is one of the cells before it.  After the first move the
    walk never meets a missing policy entry or an invalid move. *)
Theorem unreachable_reasons (data : Request) (resp : Response) :
  let N := req_gridSize data in
  let obs := obstacle_set_of data in
  train data = Ok resp → reachable resp = false →
  (path resp = [index N (startPos data)]
   ∧ startPos data ≠ goalPos data
   ∧ (startPos data ∈ obs ∨ isolated N obs (startPos data) = true))
  ∨ (∃ cs c_last, path resp = index N <$> (cs ++ [c_last]) ∧ c_last ∈ cs).
Proof.
  intros N obs Hresp Hr.
  destruct (train_result data resp Hresp)
    as (k & cs & c_last & _ & _ & _ & Hp & Htr & Hnd & Hcs & Hstop).
  fold N obs in Hp, Htr, Hcs, Hstop. rewrite Hr in Hstop.
  assert (in_bounds N c_last) as Hbl.
  { eapply (trace_in_bounds N _ obs _ _ _ Htr). set_solver. }
  assert (c_last ≠ goalPos data) as Hgl by by inversion Hstop.
  pose proof (policy_entry data resp c_last Hresp Hbl Hgl) as Hentry.
  fold N obs in Hentry.
  assert (cs ≠ [] → is_valid N obs c_last = true ∧ isolated N obs c_last = false)
    as Hentered.
  { intros Hne.
    destruct (trace_last_step N _ obs _ _ cs c_last Htr Hne)
      as (p & a & Hin & Hbp & Hgp & Ha & Hl & Hv).
    split; [done|].
    pose proof (policy_entry data resp p Hresp Hbp Hgp) as Hp'.
    fold N obs in Hp'. case_decide as Hop; [congruence|].
    destruct Hp' as (b & Hb & _). rewrite Hb in Ha. injection Ha as <-.
    simpl in Hl. subst c_last. apply neighbour_not_isolated.
    by apply is_valid_spec. }
  assert (cs = [] → path resp = [index N (startPos data)] ∧ c_last = startPos data)
    as Hsingle.
  { intros ->. apply trace_head in Htr. simpl in Htr. injection Htr as ->. by rewrite Hp. }
  inversion Hstop as [|_ Hseen|_ Hnone|a _ Ha Hinv].
  - right. by exists cs, c_last.
  - left. destruct cs as [|c cs].
    + destruct Hsingle as [-> ->]; [done|]. split; [done|]. split; [done|]. left.
      case_decide; [done|]. destruct Hentry as (b & Hb & _). congruence.
    + destruct Hentered as [Hv _]; [done|]. apply is_valid_spec in Hv as [_ Ho].
      rewrite decide_False in Hentry by done. destruct Hentry as (b & Hb & _). congruence.
  - left. case_decide as Ho; [congruence|]. destruct Hentry as (b & Hb & Hmove).
    rewrite Hb in Ha. injection Ha as <-. simpl in Hinv.
    destruct (isolated N obs c_last) eqn:Hiso; [|congruence].
    destruct cs as [|c cs].
    + destruct Hsingle as [-> ->]; [done|]. split; [done|]. split; [done|]. by right.
    + destruct Hentered as [_ Hni]; [done|]. congruence.
Qed.

Lemma unreachable_reasons_witness :
  ∃ resp,
    train req_walled = Ok resp
    ∧ ((path resp = [index 3 (0, 0)]
        ∧ (0, 0) ≠ (2, 2)
        ∧ ((0, 0) ∈ obstacle_set_of req_walled
           ∨ isolated 3 (obstacle_set_of req_walled) (0, 0) = true))
       ∨ (∃ cs c_last, path resp = index 3 <$> (cs ++ [c_last]) ∧ c_last ∈ cs)).
Proof.
  destruct (train_returns req_walled) as [resp Hresp].
  - unfold in_bounds. simpl. lia.
  - exists resp. split; [exact Hresp|].
    apply (unreachable_reasons req_walled resp Hresp).
    pose proof train_walled as [Hw _]. rewrite Hresp in Hw. simpl in Hw.
    by injection Hw as _ ->.
Defined.

(** X5: the policy never points into a wall when there is a way out.  In
    every result, a non-obstacle cell of the grid other than the goal has an
    action as its policy entry; the move it names leads to a non-obstacle cell
    of the grid whenever one of the cell's four moves does, and it is Up, the
    first action tried, when none does. *)
Theorem policy_names_valid_move (data : Request) (resp : Response) (c : Cell) :
  let N := req_gridSize data in
  let goal := goalPos data in
  let obs := obstacle_set_of data in
  train data = Ok resp → in_bounds N c → c ∉ obs → c ≠ goal →
  ∃ b : Action,
    policy resp !! index N c = Some (Some b)
    ∧ ((∃ a, is_valid N obs (move a c) = true) → is_valid N obs (move b c) = true)
    ∧ ((∀ a, is_valid N obs (move a c) = false) → b = U).
Proof.
  intros N goal obs Hresp Hb Ho Hg.
  pose proof (policy_entry data resp c Hresp Hb Hg) as Hentry.
  fold N goal obs in Hentry. rewrite decide_False in Hentry by done.
  destruct Hentry as (b & Hpol & Hmove). exists b. split; [done|].
  destruct (isolated N obs c) eqn:Hiso.
  - split; [|done]. intros [a Ha]. by rewrite (isolated_true N goal obs c a Hiso) in Ha.
  - split; [done|]. intros Hall. apply isolated_false in Hiso as [a Ha].
    by rewrite Hall in Ha.
Qed.

Lemma policy_names_valid_move_witness :
  ∃ resp (b : Action),
    train req_walled = Ok resp
    ∧ policy resp !! index 3 (0, 0) = Some (Some b)
    ∧ ((∃ a, is_valid 3 (obstacle_set_of req_walled) (move a (0, 0)) = true) →
       is_valid 3 (obstacle_set_of req_walled) (move b (0, 0)) = true)
    ∧ ((∀ a, is_valid 3 (obstacle_set_of req_walled) (move a (0, 0)) = false) → b = U).
Proof.
  destruct (train_returns req_walled) as [resp Hresp].
  - unfold in_bounds. simpl. lia.
  - destruct (policy_names_valid_move req_walled resp (0, 0) Hresp) as (b & H).
    + unfold in_bounds. simpl. lia.
    + unfold obstacle_set_of. simpl. set_solver.
    + intros [=].
    + exists resp, b. split; [exact Hresp|exact H].
Defined.

Lemma index_range (N : Z) (c : Cell) : in_bounds N c → 1 ≤ index N c ≤ N * N.
Proof. destruct c as [r k]. unfold in_bounds, index. simpl. nia. Qed.

(** X6: the keys of the two maps of a result.  [qValues] has an entry exactly
    at the indices of the non-obstacle cells of the grid, and [policy] exactly
    at those of them that are not the goal: no entry for an obstacle, none
    for an index outside [1, gridSize * gridSize]. *)
Theorem response_keys (data : Request) (resp : Response) (i : Z) :
  let N := req_gridSize data in
  let goal := goalPos data in
  let obs := obstacle_set_of data in
  train data = Ok resp →
  (is_Some (qValues resp !! i) ↔ ∃ c, in_bounds N c ∧ c ∉ obs ∧ index N c = i)
  ∧ (is_Some (policy resp !! i) ↔
     ∃ c, in_bounds N c ∧ c ∉ obs ∧ c ≠ goal ∧ index N c = i)
  ∧ (is_Some (qValues resp !! i) → 1 ≤ i ≤ N * N)
  ∧ (is_Some (policy resp !! i) → 1 ≤ i ≤ N * N).
Proof.
  intros N goal obs Hresp.
  destruct (train_result data resp Hresp) as (k & cs & c_last & _ & Hpi & Hqi & _).
  fold N goal obs in Hpi, Hqi.
  assert (is_Some (qValues resp !! i) ↔ ∃ c, in_bounds N c ∧ c ∉ obs ∧ index N c = i)
    as Hq.
  { split.
    - intros [v (s & [Hb Ho]%elem_of_valid_states & Hi & _)%Hqi]. by exists s.
    - intros (c & Hb & Ho & Hi). eexists. apply Hqi. exists c.
      by rewrite elem_of_valid_states. }
  assert (is_Some (policy resp !! i) ↔
          ∃ c, in_bounds N c ∧ c ∉ obs ∧ c ≠ goal ∧ index N c = i) as Hp.
  { split.
    - intros [a (s & [Hb Ho]%elem_of_valid_states & Hg & Hi & _)%Hpi]. by exists s.
    - intros (c & Hb & Ho & Hg & Hi). eexists. apply Hpi. exists c.
      by rewrite elem_of_valid_states. }
  split; [done|]. split; [done|]. split.
  - intros (c & Hb & _ & <-)%Hq. by apply index_range.
  - intros (c & Hb & _ & _ & <-)%Hp. by apply index_range.
Qed.

Lemma response_keys_witness :
  ∃ resp,
    train req_walled = Ok resp
    ∧ (is_Some (qValues resp !! 6) ↔
       ∃ c, in_bounds 3 c ∧ c ∉ obstacle_set_of req_walled ∧ index 3 c = 6)
    ∧ (is_Some (policy resp !! 6) ↔
       ∃ c, in_bounds 3 c ∧ c ∉ obstacle_set_of req_walled ∧ c ≠ (2, 2) ∧ index 3 c = 6)
    ∧ (is_Some (qValues resp !! 6) → 1 ≤ 6 ≤ 3 * 3)
    ∧ (is_Some (policy resp !! 6) → 1 ≤ 6 ≤ 3 * 3).
Proof.
  destruct (train_returns req_walled) as [resp Hresp].
  - unfold in_bounds. simpl. lia.
  - exists resp. split; [exact Hresp|]. exact (response_keys req_walled resp 6 Hresp).
Defined.

(** ** The range of the values *)

Lemma unit_checked : forallb unit_check (orbit advance horizon 1.0%float) = true.
Proof. vm_compute. reflexivity. Qed.

Lemma iso_range_checked : forallb iso_range_check (orbit bump horizon 0.0%float) = true.
Proof. vm_compute. reflexivity. Qed.

Lemma good_range (k : nat) (v : float) :
  (k ≤ horizon)%nat → good k v →
  (0.0 <=? v)%float = true ∧ (v <=? 1.0)%float = true.
Proof.
  intros Hk Hv. split; [by apply (good_finite k)|].
  destruct Hv as [->|(j & Hj & ->)]; [done|].
  apply (forallb_orbit _ unit_check _ _ unit_checked). lia.
Qed.

Lemma iso_range (j : nat) :
  (j < horizon)%nat → ((-10.0) <=? iso j)%float = true ∧ (iso j <=? 0.0)%float = true.
Proof.
  intros Hj. apply (forallb_orbit _ iso_range_check _ _ iso_range_checked) in Hj.
  by apply andb_true_iff in Hj.
Qed.

(** X7: the range of the Q-values.  Every Q-value of a result is a number
    between -10.0 and 1.0, never NaN and never infinite, and it is at least
    0.0 at a cell one of whose four moves is valid. *)
Theorem q_values_bounded (data : Request) (resp : Response) (c : Cell) (q : float) :
  let N := req_gridSize data in
  let obs := obstacle_set_of data in
  train data = Ok resp → in_bounds N c → qValues resp !! index N c = Some q →
  ((-10.0) <=? q)%float = true ∧ (q <=? 1.0)%float = true
  ∧ is_nan q = false
  ∧ ((∃ a, is_valid N obs (move a c) = true) → (0.0 <=? q)%float = true).
Proof.
  intros N obs Hresp Hb Hq.
  destruct (train_result data resp Hresp) as (k & cs & c_last & Hk & _ & Hqi & _).
  fold N obs in Hqi. destruct (proj1 (Hqi _ _) Hq) as (s & Hs & Hi & Hv).
  apply (index_inj N s c) in Hi; [|by apply (valid_states_in_bounds N obs)|done].
  subst s. rewrite Hv. clear Hv. unfold new_value.
  destruct (snapshot_shape N (goalPos data) obs k ltac:(lia)) as (Hvi & Hh & _).
  case_decide as Hg; [by repeat split|].
  pose proof (greedy_value N (goalPos data) obs k _ c Hvi Hh Hs Hg) as Hval.
  destruct (isolated N obs c) eqn:Hiso.
  - rewrite Hval. destruct (iso_range (S k) Hh) as [Hlo Hhi].
    split; [done|]. split; [by apply (fle_trans _ 0.0%float)|].
    split; [by apply fle_not_nan_r in Hlo|].
    intros [a Ha]. by rewrite (isolated_true N (goalPos data) obs c a Hiso) in Ha.
  - destruct (good_range (S k) _ ltac:(lia) Hval) as [Hlo Hhi].
    split; [by apply (fle_trans _ 0.0%float)|]. split; [done|].
    split; [by apply fle_not_nan_r in Hlo|done].
Qed.

Lemma train_req33_q_at_start :
  match train req33 with
  | Ok resp => is_Some (qValues resp !! 1)
  | _ => False
  end.
Proof. vm_compute. eexists. reflexivity. Qed.

Lemma q_values_bounded_witness :
  ∃ resp q,
    train req33 = Ok resp
    ∧ qValues resp !! index 3 (0, 0) = Some q
    ∧ ((-10.0) <=? q)%float = true ∧ (q <=? 1.0)%float = true
    ∧ is_nan q = false
    ∧ ((∃ a, is_valid 3 (obstacle_set_of req33) (move a (0, 0)) = true) →
       (0.0 <=? q)%float = true).
Proof.
  pose proof train_req33_q_at_start as H.
  destruct (train req33) as [resp| |] eqn:Hresp; [|destruct H..].
  destruct H as [q Hq].
  exists resp, q. split; [reflexivity|]. split; [exact Hq|].
  apply (q_values_bounded req33 resp (0, 0) q Hresp); [|exact Hq].
  unfold in_bounds. simpl. lia.
Defined.

(** ** The index map and the state space *)

(** X8: the index map numbers the cells of the grid row by row from 1: the
    cell (r, c) has index [r * gridSize + c + 1], a cell off the grid has
    none.  Distinct cells have distinct indices, and every number from 1 to
    [gridSize * gridSize] is the index of a cell (there is none when the grid
    size is not positive). *)
Theorem idx_map_row_major (N : Z) :
  (∀ r c, idx_map N !! (r, c) =
          if decide (0 ≤ r < N ∧ 0 ≤ c < N) then Some (r * N + c + 1) else None)
  ∧ (∀ s t i, idx_map N !! s = Some i → idx_map N !! t = Some i → s = t)
  ∧ (∀ i, (∃ s, idx_map N !! s = Some i) ↔ 0 < N ∧ 1 ≤ i ≤ N * N).
Proof.
  assert (∀ s i, idx_map N !! s = Some i ↔ in_bounds N s ∧ index N s = i) as Hlk.
  { intros s i. rewrite idx_map_lookup. case_decide; naive_solver. }
  split; [|split].
  - intros r c. rewrite idx_map_lookup. unfold in_bounds, index. simpl.
    repeat case_decide; (done || tauto).
  - intros s t i [Hs His]%Hlk [Ht Hit]%Hlk. apply (index_inj N); congruence.
  - intros i. split.
    + intros (s & [Hs <-]%Hlk). split; [|by apply index_range].
      destruct Hs as [? _]. lia.
    + intros [HN Hi].
      exists ((i - 1) `div` N, (i - 1) `mod` N). apply Hlk.
      pose proof (Z.mod_pos_bound (i - 1) N HN) as Hmod.
      pose proof (Z.div_mod (i - 1) N ltac:(lia)) as Hdm.
      assert (0 ≤ (i - 1) `div` N) by (apply Z.div_pos; lia).
      assert ((i - 1) `div` N < N) by (apply Z.div_lt_upper_bound; lia).
      unfold in_bounds, index. simpl. lia.
Qed.

Lemma StronglySorted_bind {A B} (R : relation B) (f : A → list B) (l : list A) :
  (∀ x, x ∈ l → StronglySorted R (f x)) →
  (∀ l1 x l2 y b1 b2, l = l1 ++ x :: l2 → y ∈ l2 → b1 ∈ f x → b2 ∈ f y → R b1 b2) →
  StronglySorted R (l ≫= f).
Proof.
  induction l as [|x l IH]; intros Hf Hcross; csimpl; [constructor|].
  apply StronglySorted_app_2.
  - intros b1 b2 Hb1 (y & Hb2 & Hy)%list_elem_of_bind.
    by apply (Hcross [] x l y).
  - apply Hf. by left.
  - apply IH.
    + intros y Hy. apply Hf. by right.
    + intros l1 y l2 z b1 b2 -> Hz Hb1 Hb2.
      by apply (Hcross (x :: l1) y l2 z).
Qed.

Lemma StronglySorted_range (n : Z) : StronglySorted Z.lt (range n).
Proof.
  unfold range. apply (StronglySorted_fmap _ lt); [lia|].
  generalize 0%nat. induction (Z.to_nat n) as [|m IH]; intros a; simpl; constructor.
  - apply IH.
  - apply Forall_forall. intros x Hx%elem_of_seq. lia.
Qed.

(** X9: the state space.  [valid_states] lists exactly the cells of the grid
    that are not obstacles, each once, in the order of their indices (row by
    row, left to right).  With a non-positive grid size, or with every cell
    an obstacle, it is empty. *)
Theorem valid_states_enumerates (N : Z) (obs : gset Cell) :
  (∀ s, s ∈ valid_states N obs ↔ in_bounds N s ∧ s ∉ obs)
  ∧ NoDup (valid_states N obs)
  ∧ StronglySorted (row_major N) (valid_states N obs)
  ∧ (valid_states N obs = [] ↔ ∀ s, in_bounds N s → s ∈ obs).
Proof.
  split; [apply elem_of_valid_states|]. split; [apply NoDup_valid_states|]. split.
  - unfold valid_states. apply StronglySorted_bind.
    + intros r Hr. apply StronglySorted_bind.
      * intros c _. case_decide; repeat constructor.
      * intros l1 c l2 c' b1 b2 Hl Hc' Hb1 Hb2.
        pose proof (StronglySorted_range N) as Hs. rewrite Hl in Hs.
        apply StronglySorted_app_1_r, StronglySorted_cons in Hs as [Hs _].
        rewrite Forall_forall in Hs. apply Hs in Hc'.
        repeat case_decide; try set_solver.
        apply list_elem_of_singleton in Hb1, Hb2. subst.
        unfold row_major, index. simpl. lia.
    + intros l1 r l2 r' b1 b2 Hl Hr' Hb1 Hb2.
      pose proof (StronglySorted_range N) as Hs. rewrite Hl in Hs.
      apply StronglySorted_app_1_r, StronglySorted_cons in Hs as [Hs _].
      rewrite Forall_forall in Hs. apply Hs in Hr'.
      apply list_elem_of_bind in Hb1 as (c1 & Hb1 & Hc1%elem_of_range).
      apply list_elem_of_bind in Hb2 as (c2 & Hb2 & Hc2%elem_of_range).
      repeat case_decide; try set_solver.
      apply list_elem_of_singleton in Hb1, Hb2. subst.
      unfold row_major, index. simpl. nia.
  - split.
    + intros Hnil s Hb. destruct (decide (s ∈ obs)) as [|Ho]; [done|].
      assert (s ∈ valid_states N obs) as Hs by by apply elem_of_valid_states.
      rewrite Hnil in Hs. by apply not_elem_of_nil in Hs.
    + intros Hall. destruct (valid_states N obs) as [|s l] eqn:Hl; [done|].
      assert (s ∈ valid_states N obs) as Hs by (rewrite Hl; by left).
      apply elem_of_valid_states in Hs as [Hb Ho]. by apply Hall in Hb.
Qed.

(** ** Values and distances *)

Lemma descent_checked : forallb descent_check (orbit advance horizon 1.0%float) = true.
Proof. vm_compute. reflexivity. Qed.

Lemma above_threshold_checked :
  forallb above_threshold_check (orbit advance (pred last_round) 1.0%float) = true.
Proof. vm_compute. reflexivity. Qed.

Lemma last_round_checked :
  (abs (pw (pred last_round) - 0.0) <? threshold)%float = true
  ∧ (abs (iso last_round - iso (pred last_round)) <? threshold)%float = true
  ∧ (abs (0.0 - 0.0) <? threshold)%float = true.
Proof. vm_compute. done. Qed.

Lemma pw_above_threshold (j : nat) :
  (S j < last_round)%nat → (threshold <=? abs (pw j - 0.0))%float = true.
Proof.
  intros Hj.
  apply (forallb_orbit _ above_threshold_check _ _ above_threshold_checked).
  unfold last_round in *. simpl. lia.
Qed.

Lemma pw_succ (j : nat) : pw (S j) = advance (pw j).
Proof. reflexivity. Qed.

Lemma iso_succ (j : nat) : iso (S j) = bump (iso j).
Proof. reflexivity. Qed.

Lemma pw_descent (j : nat) :
  (j < horizon)%nat →
  (pw (S j) <? pw j)%float = true ∧ (0.0 <? pw (S j))%float = true
  ∧ (abs (pw j - pw j) <? threshold)%float = true.
Proof.
  intros Hj. apply (forallb_orbit _ descent_check _ _ descent_checked) in Hj.
  unfold descent_check in Hj. rewrite !andb_true_iff in Hj. by destruct Hj as [[? ?] ?].
Qed.

Lemma pw_pos (j : nat) : (j ≤ horizon)%nat → (0.0 <? pw j)%float = true.
Proof.
  intros Hj. destruct j as [|j]; [done|]. apply pw_descent. lia.
Qed.

Lemma pw_decreasing (i j : nat) :
  (i < j)%nat → (j ≤ horizon)%nat → (pw j <? pw i)%float = true.
Proof.
  intros Hij Hj. induction j as [|j IH]; [lia|].
  destruct (decide (i = j)) as [->|Hne].
  - apply pw_descent. lia.
  - apply (flt_trans _ (pw j)); [apply pw_descent; lia|apply IH; lia].
Qed.

Lemma pw_inj (i j : nat) :
  (i ≤ horizon)%nat → (j ≤ horizon)%nat → pw i = pw j → i = j.
Proof.
  intros Hi Hj Heq. destruct (Nat.lt_trichotomy i j) as [Hlt|[?|Hlt]]; [|done|].
  - pose proof (pw_decreasing i j Hlt Hj) as H. rewrite Heq in H.
    by rewrite flt_irrefl in H.
  - pose proof (pw_decreasing j i Hlt Hi) as H. rewrite Heq in H.
    by rewrite flt_irrefl in H.
Qed.

Lemma pw_nonzero (j : nat) : (j ≤ horizon)%nat → pw j ≠ 0.0%float.
Proof. intros Hj Heq. pose proof (pw_pos j Hj) as H. by rewrite Heq in H. Qed.

Lemma pw_le_index (i j : nat) :
  (i ≤ horizon)%nat → (j ≤ horizon)%nat → (pw i <=? pw j)%float = true → (j ≤ i)%nat.
Proof.
  intros Hi Hj Hle. destruct (decide (j ≤ i)%nat) as [|Hn]; [done|].
  pose proof (pw_decreasing i j ltac:(lia) Hj) as Hlt.
  apply fle_nlt in Hle. congruence.
Qed.

Lemma pw_not_iso (i j : nat) : (i ≤ horizon)%nat → (j < horizon)%nat → pw i ≠ iso j.
Proof.
  intros Hi Hj Heq. pose proof (pw_pos i Hi) as Hpos.
  destruct (iso_range j Hj) as [_ Hle]. rewrite <- Heq in Hle.
  apply fle_nlt in Hle. congruence.
Qed.

Lemma route_valid (N : Z) (goal : Cell) (obs : gset Cell) (d : nat) (s : Cell) :
  route N goal obs (S d) s → s ∈ valid_states N obs ∧ s ≠ goal.
Proof.
  intros H. inversion H as [|d' s' a Hv Hg Hn Hr]. split; [|done].
  by apply valid_states_is_valid.
Qed.

Section Levels.
Variables (N : Z) (goal : Cell) (obs : gset Cell).

(** The value of a valid move: one when it enters the goal, otherwise the
    value of the state it leads to, discounted. *)
Lemma q_value_move (k : nat) (V : gmap Cell float) (s : Cell) (a : Action) :
  value_inv N goal obs k V → s ∈ valid_states N obs → s ≠ goal →
  is_valid N obs (move a s) = true →
  if decide (move a s = goal) then q_value N goal obs V s a = pw 0
  else ∃ v, V !! move a s = Some v ∧ good k v
            ∧ q_value N goal obs V s a = advance v.
Proof.
  intros HV Hs Hg Hn. unfold q_value, step.
  rewrite (decide_False (P := s = goal)) by done. rewrite Hn. simpl.
  pose proof Hn as Hn'%valid_states_is_valid.
  destruct (HV _ Hn') as (w & Hw & Hshape).
  destruct (decide (move a s = goal)) as [Hng|Hng]; rewrite Hw; simpl.
  - subst w. vm_compute. reflexivity.
  - exists w. split; [done|]. split; [|done].
    by rewrite neighbour_not_isolated in Hshape by by apply valid_states_is_valid.
Qed.

Lemma level_inv_init : level_inv N goal obs 0 (init_V N obs).
Proof. split; intros; lia. Qed.

(** One round keeps the link between values and routes. *)
Lemma level_inv_jacobi (k : nat) (V : gmap Cell float) :
  value_inv N goal obs k V → level_inv N goal obs k V → (S (S k) < horizon)%nat →
  level_inv N goal obs (S k) (jacobi N goal obs V).
Proof.
  intros HV [HA HB] Hk. split.
  - intros s i Hs Hg Hi Hval.
    rewrite jacobi_lookup, decide_True in Hval by done. injection Hval as Hval.
    unfold new_value in Hval. rewrite decide_False in Hval by done.
    destruct (greedy_action N goal obs k V s HV ltac:(lia) Hs Hg) as (b & Hgr & Hmove).
    pose proof (greedy_value N goal obs k V s HV ltac:(lia) Hs Hg) as Hv.
    rewrite Hgr in Hval, Hv. simpl in Hval, Hv.
    destruct (isolated N obs s) eqn:Hiso.
    + exfalso. rewrite Hval in Hv. apply (pw_not_iso i (S k)); [lia|lia|done].
    + pose proof (q_value_move k V s b HV Hs Hg Hmove) as Hq.
      assert (is_valid N obs s = true) as Hvs by by apply valid_states_is_valid.
      case_decide as Hn.
      * rewrite Hq in Hval. apply pw_inj in Hval; [|lia..]. subst i.
        apply route_move with b; [done..|]. rewrite Hn. constructor.
      * destruct Hq as (v & Hvn & Hgood & Hq). rewrite Hq in Hval.
        destruct Hgood as [->|(j & Hj & ->)].
        -- exfalso. apply (pw_nonzero i); [lia|]. rewrite <- Hval. vm_compute. reflexivity.
        -- rewrite <- pw_succ in Hval. apply pw_inj in Hval; [|lia..]. subst i.
           apply route_move with b; [done..|].
           apply HA; [by apply valid_states_is_valid|done|lia|done].
  - intros s i Hroute Hi.
    inversion Hroute as [|d s' a Hvs Hg Hn Hr]; subst.
    assert (s ∈ valid_states N obs) as Hs by by apply valid_states_is_valid.
    rewrite jacobi_lookup, decide_True by done. unfold new_value.
    rewrite decide_False by done.
    destruct (greedy_earliest_max N goal obs k V s HV ltac:(lia) Hs Hg)
      as (b & Hgr & Hle & _).
    pose proof (greedy_value N goal obs k V s HV ltac:(lia) Hs Hg) as Hval.
    assert (isolated N obs s = false) as Hiso by (apply isolated_false; eauto).
    rewrite Hiso, Hgr in Hval. rewrite Hgr. simpl in *.
    assert (∃ m : nat, (m ≤ i)%nat ∧ q_value N goal obs V s a = pw m) as (m & Hm & Hqa).
    { pose proof (q_value_move k V s a HV Hs Hg Hn) as Hq. destruct i as [|i].
      - inversion Hr; subst. rewrite decide_True in Hq by done. by exists 0%nat.
      - destruct (route_valid _ _ _ _ _ Hr) as [Hns Hng].
        rewrite decide_False in Hq by done. destruct Hq as (v & Hv & _ & Hq).
        destruct (HB _ i Hr ltac:(lia)) as (i' & Hi' & Hv').
        rewrite Hv in Hv'. injection Hv' as ->.
        exists (S i'). split; [lia|done]. }
    specialize (Hle a). rewrite Hqa in Hle.
    destruct Hval as [Hz|(i' & Hi' & Hv')].
    + exfalso. rewrite Hz in Hle. apply fle_nlt in Hle.
      rewrite pw_pos in Hle; [done|lia].
    + exists i'. split; [|by rewrite Hv'].
      rewrite Hv' in Hle. apply pw_le_index in Hle; lia.
Qed.

Lemma level_inv_snapshot (k : nat) :
  (S k < horizon)%nat → level_inv N goal obs k (snapshot N goal obs k).
Proof.
  induction k as [|k IH]; intros Hk; [apply level_inv_init|].
  unfold snapshot. simpl. apply level_inv_jacobi; [|apply IH; lia|done].
  apply value_inv_snapshot. lia.
Qed.

(** The value of a state with a valid move, after [k] rounds. *)
Lemma snapshot_level (k : nat) (s : Cell) :
  (k < horizon)%nat → s ∈ valid_states N obs → s ≠ goal → isolated N obs s = false →
  snapshot N goal obs k !! s = Some 0.0%float
  ∨ ∃ j : nat, (j < k)%nat ∧ snapshot N goal obs k !! s = Some (pw j).
Proof.
  intros Hk Hs Hg Hiso.
  destruct (value_inv_snapshot N goal obs k Hk s Hs) as (v & Hv & Hshape).
  rewrite decide_False, Hiso in Hshape by done.
  destruct Hshape as [->|(j & Hj & ->)]; eauto.
Qed.

Lemma snapshot_isolated (k : nat) (s : Cell) :
  (k < horizon)%nat → s ∈ valid_states N obs → s ≠ goal → isolated N obs s = true →
  snapshot N goal obs k !! s = Some (iso k).
Proof.
  intros Hk Hs Hg Hiso.
  destruct (value_inv_snapshot N goal obs k Hk s Hs) as (v & Hv & Hshape).
  rewrite decide_False, Hiso in Hshape by done. by subst.
Qed.

(** A state that has a value other than 0.0 keeps it. *)
Lemma snapshot_stable (k i : nat) (s : Cell) :
  (S (S k) < horizon)%nat → s ∈ valid_states N obs → s ≠ goal → (i < k)%nat →
  snapshot N goal obs k !! s = Some (pw i) →
  snapshot N goal obs (S k) !! s = Some (pw i).
Proof.
  intros Hk Hs Hg Hi Hv.
  destruct (level_inv_snapshot k ltac:(lia)) as [HA HB].
  destruct (level_inv_snapshot (S k) ltac:(lia)) as [HA' HB'].
  pose proof (HA s i Hs Hg Hi Hv) as Hr.
  destruct (HB' s i Hr ltac:(lia)) as (i' & Hi' & Hv').
  pose proof (HA' s i' Hs Hg ltac:(lia) Hv') as Hr'.
  destruct (HB s i' Hr' ltac:(lia)) as (i'' & Hi'' & Hv'').
  rewrite Hv in Hv''. injection Hv'' as Heq. apply pw_inj in Heq; [|lia..].
  assert (i' = i) as -> by lia. done.
Qed.

(** A state still at 0.0 after [k] rounds stays there or takes the value of
    round [k + 1]. *)
Lemma snapshot_fresh (k : nat) (s : Cell) :
  (S (S k) < horizon)%nat → s ∈ valid_states N obs → s ≠ goal →
  isolated N obs s = false →
  snapshot N goal obs k !! s = Some 0.0%float →
  snapshot N goal obs (S k) !! s = Some 0.0%float
  ∨ snapshot N goal obs (S k) !! s = Some (pw k).
Proof.
  intros Hk Hs Hg Hiso Hv.
  destruct (snapshot_level (S k) s ltac:(lia) Hs Hg Hiso) as [?|(j & Hj & Hv')];
    [by left|].
  destruct (decide (j = k)) as [->|Hne]; [by right|]. exfalso.
  destruct (level_inv_snapshot k ltac:(lia)) as [HA HB].
  destruct (level_inv_snapshot (S k) ltac:(lia)) as [HA' HB'].
  pose proof (HA' s j Hs Hg Hj Hv') as Hr.
  destruct (HB s j Hr ltac:(lia)) as (i' & Hi' & Hv'').
  rewrite Hv in Hv''. injection Hv'' as Heq. symmetry in Heq.
  apply pw_nonzero in Heq; [done|lia].
Qed.

(** The change of a state in round [k + 1]. *)
Lemma change_cases (k : nat) (s : Cell) :
  (S (S k) < horizon)%nat → s ∈ valid_states N obs → s ≠ goal →
  change N goal obs (snapshot N goal obs k) s = abs (iso (S k) - iso k)
  ∨ change N goal obs (snapshot N goal obs k) s = abs (0.0 - 0.0)
  ∨ change N goal obs (snapshot N goal obs k) s = abs (pw k - 0.0)
  ∨ ∃ j : nat, (j < k)%nat
               ∧ change N goal obs (snapshot N goal obs k) s = abs (pw j - pw j).
Proof.
  intros Hk Hs Hg. unfold change.
  pose proof (snapshot_succ_lookup N goal obs k s Hs) as Hnew.
  destruct (isolated N obs s) eqn:His.
  - rewrite (snapshot_isolated (S k) s) in Hnew by (done || lia).
    injection Hnew as <-. left. by rewrite (snapshot_isolated k s) by (done || lia).
  - right. destruct (snapshot_level k s ltac:(lia) Hs Hg His) as [Hv|(j & Hj & Hv)].
    + destruct (snapshot_fresh k s Hk Hs Hg His Hv) as [Hv'|Hv'];
        rewrite Hv' in Hnew; injection Hnew as <-; rewrite Hv; auto.
    + rewrite (snapshot_stable k j s Hk Hs Hg Hj Hv) in Hnew.
      injection Hnew as <-. rewrite Hv. eauto.
Qed.

Lemma round_delta_small (k : nat) :
  (S (S k) < horizon)%nat →
  (abs (pw k - 0.0) <? threshold)%float = true →
  (abs (iso (S k) - iso k) <? threshold)%float = true →
  (delta_of N goal obs (snapshot N goal obs k) <? threshold)%float = true.
Proof.
  intros Hk Hpw Hiso.
  destruct (delta_of_max N goal obs k _ (value_inv_snapshot N goal obs k ltac:(lia))
              ltac:(lia)) as (_ & _ & [->|(s & Hs & Hg & ->)]).
  { vm_compute. reflexivity. }
  destruct (change_cases k s Hk Hs Hg) as [->|[->|[->|(j & Hj & ->)]]]; [done| |done|].
  - vm_compute. reflexivity.
  - apply pw_descent. lia.
Qed.

(** The round [last_round] changes no value by as much as the threshold. *)
Lemma last_round_delta :
  (delta_of N goal obs (snapshot N goal obs (pred last_round)) <? threshold)%float = true.
Proof.
  destruct last_round_checked as (Hpw & Hiso & _).
  apply round_delta_small; [unfold horizon, last_round; simpl; lia|done..].
Qed.

(** The loop never runs more than [last_round] rounds. *)
Lemma stop_round_bound (k : nat) :
  (∀ j : nat, (S j < k)%nat →
     (delta_of N goal obs (snapshot N goal obs j) <? threshold)%float = false) →
  (k ≤ last_round)%nat.
Proof.
  intros Hbefore. destruct (decide (k ≤ last_round)%nat) as [|Hn]; [done|].
  specialize (Hbefore (pred last_round) ltac:(unfold last_round in *; simpl; lia)).
  by rewrite last_round_delta in Hbefore.
Qed.

(** As long as a state with a route to the goal is at 0.0, the next round
    gives some state its first value. *)
Lemma frontier (k d : nat) (s : Cell) :
  (S (S k) < horizon)%nat → route N goal obs d s → s ≠ goal →
  snapshot N goal obs k !! s = Some 0.0%float →
  ∃ t, t ∈ valid_states N obs ∧ t ≠ goal
       ∧ snapshot N goal obs k !! t = Some 0.0%float
       ∧ snapshot N goal obs (S k) !! t = Some (pw k).
Proof.
  intros Hk Hr. induction Hr as [|d s a Hvs Hg Hn Hr IH]; intros Hg' Hz; [done|].
  assert (s ∈ valid_states N obs) as Hs by by apply valid_states_is_valid.
  assert (isolated N obs s = false) as His by (apply isolated_false; eauto).
  destruct (level_inv_snapshot k ltac:(lia)) as [HA HB].
  destruct (level_inv_snapshot (S k) ltac:(lia)) as [HA' HB'].
  assert (∀ i : nat, (i < S k)%nat → route N goal obs (S i) s →
            ∃ t, t ∈ valid_states N obs ∧ t ≠ goal
                 ∧ snapshot N goal obs k !! t = Some 0.0%float
                 ∧ snapshot N goal obs (S k) !! t = Some (pw k)) as Hhere.
  { intros i Hi Hri. exists s. split; [done|]. split; [done|]. split; [done|].
    destruct (snapshot_fresh k s Hk Hs Hg His Hz) as [Hv'|Hv']; [|done].
    destruct (HB' s i Hri Hi) as (i' & Hi' & Hv''). rewrite Hv' in Hv''.
    injection Hv'' as Heq. symmetry in Heq. apply pw_nonzero in Heq; [done|lia]. }
  destruct (decide (move a s = goal)) as [Hmg|Hmg].
  - apply (Hhere 0%nat); [lia|]. apply route_move with a; [done..|].
    rewrite Hmg. constructor.
  - assert (move a s ∈ valid_states N obs) as Hns by by apply valid_states_is_valid.
    assert (isolated N obs (move a s) = false) as Hni
      by by apply neighbour_not_isolated.
    destruct (snapshot_level k (move a s) ltac:(lia) Hns Hmg Hni) as [Hv|(j & Hj & Hv)].
    + by apply IH.
    + apply (Hhere (S j)); [lia|]. apply route_move with a; [done..|].
      by apply HA.
Qed.

(** The values the loop returns: a state with a route of at most
    [last_round] moves has the value of its shortest route. *)
Lemma stop_levels (k d : nat) (s : Cell) :
  (1 ≤ k ≤ last_round)%nat →
  (delta_of N goal obs (snapshot N goal obs (pred k)) <? threshold)%float = true →
  route N goal obs d s → s ≠ goal → (d ≤ last_round)%nat →
  ∃ i : nat, (i < d)%nat ∧ (i < k)%nat
             ∧ snapshot N goal obs k !! s = Some (pw i)
             ∧ route N goal obs (S i) s
             ∧ ∀ d', route N goal obs d' s → (S i ≤ d')%nat.
Proof.
  intros Hk Hstop Hr Hg Hd.
  assert (last_round = 67%nat) as Hlast by reflexivity.
  assert (horizon = 1002%nat) as Hhor by reflexivity.
  destruct k as [|k]; [lia|]. simpl in Hstop.
  destruct d as [|d]; [by inversion Hr|].
  destruct (route_valid _ _ _ _ _ Hr) as [Hs _].
  assert (isolated N obs s = false) as His.
  { inversion Hr; subst. apply isolated_false; eauto. }
  destruct (level_inv_snapshot (S k) ltac:(lia)) as [HA HB].
  assert (∃ i : nat, (i < S k)%nat ∧ snapshot N goal obs (S k) !! s = Some (pw i))
    as (i & Hi & Hv).
  { destruct (snapshot_level k s ltac:(lia) Hs Hg His) as [Hz|(j & Hj & Hv)].
    - destruct (decide (S k < last_round)%nat) as [Hlt|Hge].
      + exfalso. destruct (frontier k _ s ltac:(lia) Hr Hg Hz) as (t & Ht & Htg & Ht0 & Ht1).
        destruct (delta_of_max N goal obs k _ (value_inv_snapshot N goal obs k ltac:(lia))
                    ltac:(lia)) as (_ & Hmax & _).
        specialize (Hmax t Ht Htg). unfold change in Hmax.
        rewrite snapshot_succ_lookup in Ht1 by done. injection Ht1 as Ht1.
        rewrite Ht1, Ht0 in Hmax. simpl in Hmax.
        pose proof (fle_trans _ _ _ (pw_above_threshold k Hlt) Hmax) as Habs.
        apply fle_nlt in Habs. congruence.
      + destruct (HB s d Hr ltac:(lia)) as (i' & Hi' & Hv'). exists i'. split; [lia|done].
    - exists j. split; [lia|]. apply snapshot_stable; (done || lia). }
  exists i. pose proof (HA s i Hs Hg Hi Hv) as Hri.
  assert (∀ d', route N goal obs d' s → (S i ≤ d')%nat) as Hmin.
  { intros d' Hr'. destruct d' as [|d']; [by inversion Hr'|].
    destruct (decide (d' < S k)%nat) as [Hlt|]; [|lia].
    destruct (HB s d' Hr' Hlt) as (i' & Hi' & Hv'). rewrite Hv in Hv'.
    injection Hv' as Heq. apply pw_inj in Heq; lia. }
  split; [specialize (Hmin _ Hr); lia|]. done.
Qed.

(** The policy read off the loop's result steps from a state with a value to
    the goal, or to a state whose shortest route is one move shorter. *)
Lemma greedy_descends (k i : nat) (s : Cell) :
  (S (S k) < horizon)%nat → s ∈ valid_states N obs → s ≠ goal → (i < k)%nat →
  snapshot N goal obs k !! s = Some (pw i) →
  ∃ b, (greedy N goal obs (snapshot N goal obs k) s).1 = Some b
       ∧ is_valid N obs (move b s) = true
       ∧ match i with
         | O => move b s = goal
         | S j => move b s ≠ goal ∧ snapshot N goal obs k !! move b s = Some (pw j)
         end.
Proof.
  intros Hk Hs Hg Hi Hv.
  pose proof (value_inv_snapshot N goal obs k ltac:(lia)) as HV.
  destruct (level_inv_snapshot k ltac:(lia)) as [HA HB].
  pose proof (HA s i Hs Hg Hi Hv) as Hr.
  assert (isolated N obs s = false) as His.
  { inversion Hr; subst. apply isolated_false; eauto. }
  destruct (greedy_action N goal obs k _ s HV ltac:(lia) Hs Hg) as (b & Hgr & Hmove).
  rewrite His in Hmove.
  pose proof (snapshot_stable k i s Hk Hs Hg Hi Hv) as Hnew.
  rewrite snapshot_succ_lookup in Hnew by done. injection Hnew as Hnew.
  unfold new_value in Hnew. rewrite decide_False, Hgr in Hnew by done. simpl in Hnew.
  exists b. rewrite Hgr. split; [done|]. split; [done|].
  pose proof (q_value_move k _ s b HV Hs Hg Hmove) as Hq.
  case_decide as Hn.
  - rewrite Hq in Hnew. apply pw_inj in Hnew; [|lia..]. by subst i.
  - destruct Hq as (v & Hvn & Hgood & Hq). rewrite Hq in Hnew.
    destruct Hgood as [->|(j & Hj & ->)].
    + exfalso. apply (pw_nonzero i); [lia|]. rewrite <- Hnew. vm_compute. reflexivity.
    + rewrite <- pw_succ in Hnew. apply pw_inj in Hnew; [|lia..]. by subst i.
Qed.

End Levels.

Section Descent.
Variables (N : Z) (goal : Cell) (obs : gset Cell) (k : nat).
Variable policy_idx : gmap Z (option Action).
Hypothesis Hk : (S (S k) < horizon)%nat.
Hypothesis Hpi :
  ∀ i a, policy_idx !! i = Some a ↔
         ∃ s, s ∈ valid_states N obs ∧ s ≠ goal ∧ index N s = i
              ∧ a = (greedy N goal obs (snapshot N goal obs k) s).1.

(** From a state with a value the walk goes down the values to the goal,
    unless it is cut short by its fuel. *)
Lemma walk_descends (i : nat) :
  ∀ (fuel : nat) (path0 : list Z) (visited : gset Cell) (s : Cell),
    s ∈ valid_states N obs → s ≠ goal → (i < k)%nat →
    snapshot N goal obs k !! s = Some (pw i) →
    (∀ c (j : nat), c ∈ visited → (j ≤ i)%nat →
                    snapshot N goal obs k !! c ≠ Some (pw j)) →
    walk N goal obs fuel policy_idx path0 visited s = OutOfFuel
    ∨ ∃ cs, walk N goal obs fuel policy_idx path0 visited s
            = Ok (path0 ++ (index N <$> cs), true)
            ∧ length cs = (i + 2)%nat.
Proof.
  induction i as [|i IH]; intros fuel path0 visited s Hs Hg Hi Hv Hvis.
  all: destruct fuel as [|fuel]; [by left|].
  all: destruct (greedy_descends N goal obs k _ s Hk Hs Hg Hi Hv) as (b & Hb & Hmove & Hnext).
  all: assert (policy_idx !! index N s = Some (Some b)) as Hpol
    by (apply Hpi; exists s; by rewrite Hb).
  all: pose proof (valid_states_in_bounds _ _ _ Hs) as Hin.
  all: simpl; rewrite getitem_idx_map, decide_True by done; simpl.
  all: rewrite (decide_False (P := s = goal)) by done.
  all: destruct (decide (s ∈ visited)) as [Hsv|Hsv];
    [by destruct (Hvis s _ Hsv (Nat.le_refl _))|].
  all: rewrite Hpol; simpl; rewrite valid_for_path_is_valid, Hmove; simpl.
  - destruct fuel as [|fuel]; [by left|]. right. exists [s; goal]. split; [|done].
    rewrite Hnext in Hmove. apply is_valid_spec in Hmove as [Hgb _].
    rewrite Hnext. simpl. rewrite getitem_idx_map, decide_True by done. simpl.
    rewrite decide_True by done. by rewrite <- app_assoc.
  - destruct Hnext as [Hng Hnv].
    destruct (IH fuel (path0 ++ [index N s]) ({[s]} ∪ visited) (move b s))
      as [->|(cs & -> & Hlen)].
    + by apply valid_states_is_valid.
    + done.
    + lia.
    + done.
    + intros c j [->%elem_of_singleton|Hc]%elem_of_union Hj Hcv.
      * rewrite Hv in Hcv. injection Hcv as Heq. rewrite <- pw_succ in Heq.
        apply pw_inj in Heq; lia.
      * by apply (Hvis c j Hc ltac:(lia)).
    + by left.
    + right. exists (s :: cs). split; [by rewrite <- app_assoc|]. simpl. lia.
Qed.

End Descent.

(** ** The loop and the walk on every grid *)

(** The handler in closed form, with the round at which the loop stopped. *)
Lemma train_stop_round (data : Request) :
  let N := req_gridSize data in
  let goal := goalPos data in
  let obs := obstacle_set_of data in
  ∃ (k : nat) (policy_idx : gmap Z (option Action)) (qValues_idx : gmap Z float),
    (1 ≤ k ≤ last_round)%nat
    ∧ (delta_of N goal obs (snapshot N goal obs (pred k)) <? threshold)%float = true
    ∧ (∀ i a, policy_idx !! i = Some a ↔
              ∃ s, s ∈ valid_states N obs ∧ s ≠ goal ∧ index N s = i
                   ∧ a = (greedy N goal obs (snapshot N goal obs k) s).1)
    ∧ (∀ i v, qValues_idx !! i = Some v ↔
              ∃ s, s ∈ valid_states N obs ∧ index N s = i
                   ∧ v = new_value N goal obs (snapshot N goal obs k) s)
    ∧ train data =
      '(path, reachable) ← walk N goal obs (walk_fuel N) policy_idx [] ∅ (startPos data);
      Ok {| policy := policy_idx; qValues := qValues_idx;
            path := path; reachable := reachable |}.
Proof.
  intros N goal obs.
  destruct (train_closed_form data)
    as (k & pi & qi & Hk & _ & Hbefore & Hstop & Hpi & Hqi & Htrain).
  fold N goal obs in Hbefore, Hstop, Hpi, Hqi, Htrain.
  pose proof (stop_round_bound N goal obs k Hbefore) as Hlast.
  exists k, pi, qi. split; [lia|]. split; [|done].
  apply Hstop. unfold last_round, max_iterations in *. lia.
Qed.

(** X10: the loop of value iteration always converges, and fast.  On every
    grid, whatever the goal and the obstacles, it stops through the threshold
    test after at most 67 rounds: the round it stops at has a delta below
    [1e-3], every round before has not, and the budget of 1000 rounds is
    never used up. *)
Theorem value_iteration_converges (N : Z) (goal : Cell) (obs : gset Cell) :
  ∃ k : nat,
    (1 ≤ k ≤ 67)%nat
    ∧ value_iteration N goal obs max_iterations (init_V N obs)
      = Ok (snapshot N goal obs k)
    ∧ (delta_of N goal obs (snapshot N goal obs (pred k)) <? threshold)%float = true
    ∧ ∀ j : nat, (S j < k)%nat →
        (delta_of N goal obs (snapshot N goal obs j) <? threshold)%float = false.
Proof.
  destruct (value_iteration_rounds N goal obs max_iterations (init_V N obs)
              (covers_init_V N obs)) as (k & Hk & Hpos & HV & Hbefore & Hstop).
  pose proof (stop_round_bound N goal obs k Hbefore) as Hlast.
  unfold last_round, max_iterations in *.
  exists k. split; [lia|]. split; [done|]. split; [|done]. apply Hstop. lia.
Qed.

(** X11: the Q-values of the response measure the distance to the goal.  For
    a cell other than the goal from which the goal can be reached in at most
    67 moves through valid cells, the reported value is [pw i], that is 1.0
    multiplied [i] times by 0.9 as the loop does it, for an [i] below the
    length of the route.  Conversely a cell of the grid whose reported value
    is [pw i] has a route of [i + 1] moves to the goal, and none shorter. *)
Theorem q_value_is_distance (data : Request) (resp : Response) (c : Cell) :
  let N := req_gridSize data in
  let goal := goalPos data in
  let obs := obstacle_set_of data in
  train data = Ok resp → c ≠ goal →
  (∀ d : nat, route N goal obs d c → (d ≤ 67)%nat →
     ∃ i : nat, (i < d)%nat ∧ qValues resp !! index N c = Some (pw i))
  ∧ (∀ i : nat, (i ≤ 1000)%nat → in_bounds N c →
       qValues resp !! index N c = Some (pw i) →
       route N goal obs (S i) c
       ∧ ∀ d : nat, route N goal obs d c → (S i ≤ d)%nat).
Proof.
  intros N goal obs Hresp Hg.
  destruct (train_stop_round data) as (k & pi & qi & Hk & Hstop & _ & Hqi & Htrain).
  fold N goal obs in Hstop, Hqi, Htrain. rewrite Htrain in Hresp.
  apply walk_response in Hresp as (_ & -> & _).
  assert (last_round = 67%nat) as Hlast by reflexivity.
  assert (horizon = 1002%nat) as Hhor by reflexivity.
  split.
  - intros d Hr Hd.
    destruct (stop_levels N goal obs k d c Hk Hstop Hr Hg ltac:(lia))
      as (i & Hi & Hik & Hv & Hri & _).
    destruct (route_valid _ _ _ _ _ Hri) as [Hs _].
    exists i. split; [done|]. apply Hqi. exists c. split; [done|]. split; [done|].
    apply (snapshot_stable N goal obs k i c) in Hv; [|lia|done..].
    rewrite snapshot_succ_lookup in Hv by done. by injection Hv.
  - intros i Hi Hb (s & Hs & Hidx & Hv)%Hqi.
    apply index_inj in Hidx; [|by apply (valid_states_in_bounds _ _ _ Hs)|done].
    subst s.
    pose proof (snapshot_succ_lookup N goal obs k c Hs) as Hnew. rewrite <- Hv in Hnew.
    destruct (level_inv_snapshot N goal obs (S k) ltac:(lia)) as [HA HB].
    assert (i < S k)%nat as Hik.
    { destruct (isolated N obs c) eqn:His.
      - pose proof (snapshot_isolated N goal obs (S k) c ltac:(lia) Hs Hg His) as Hi'.
        rewrite Hnew in Hi'. exfalso. apply (pw_not_iso i (S k)); [lia|lia|congruence].
      - destruct (snapshot_level N goal obs (S k) c ltac:(lia) Hs Hg His)
          as [Hz|(j & Hj & Hvj)]; rewrite Hnew in *.
        + injection Hz as Heq. apply pw_nonzero in Heq; [done|lia].
        + injection Hvj as Heq. apply pw_inj in Heq; lia. }
    split; [by apply HA|].
    intros d Hr. destruct d as [|d]; [by inversion Hr|].
    destruct (decide (d < S k)%nat) as [Hlt|]; [|lia].
    destruct (HB c d Hr Hlt) as (i' & Hi' & Hv'). rewrite Hnew in Hv'.
    injection Hv' as Heq. apply pw_inj in Heq; lia.
Qed.

Lemma q_value_is_distance_witness :
  ∃ resp,
    train req33 = Ok resp
    ∧ (∀ d : nat, route 3 (2, 2) (obstacle_set_of req33) d (0, 0) → (d ≤ 67)%nat →
         ∃ i : nat, (i < d)%nat ∧ qValues resp !! index 3 (0, 0) = Some (pw i))
    ∧ (∀ i : nat, (i ≤ 1000)%nat → in_bounds 3 (0, 0) →
         qValues resp !! index 3 (0, 0) = Some (pw i) →
         route 3 (2, 2) (obstacle_set_of req33) (S i) (0, 0)
         ∧ ∀ d : nat, route 3 (2, 2) (obstacle_set_of req33) d (0, 0) → (S i ≤ d)%nat).
Proof.
  destruct (train_returns req33) as [resp Hresp].
  - unfold in_bounds. simpl. lia.
  - exists resp. split; [exact Hresp|].
    apply (q_value_is_distance req33 resp (0, 0) Hresp). intros [=].
Defined.

(** X12: the walk finds a shortest route.  When the goal can be reached from
    the start cell in at most 67 moves through valid cells, the handler
    returns [reachable = true] and a path of [d0 + 1] cells, [d0] being the
    least number of moves of any route from the start to the goal. *)
Theorem shortest_path (data : Request) (d : nat) :
  let N := req_gridSize data in
  let goal := goalPos data in
  let obs := obstacle_set_of data in
  in_bounds N (startPos data) →
  route N goal obs d (startPos data) → (d ≤ 67)%nat →
  ∃ resp (d0 : nat),
    train data = Ok resp
    ∧ reachable resp = true
    ∧ length (path resp) = S d0
    ∧ route N goal obs d0 (startPos data)
    ∧ ∀ d' : nat, route N goal obs d' (startPos data) → (d0 ≤ d')%nat.
Proof.
  intros N goal obs Hstart Hr Hd.
  destruct (train_stop_round data) as (k & pi & qi & Hk & Hstop & Hpi & _ & ->).
  fold N goal obs in Hstop, Hpi. fold N goal obs.
  assert (last_round = 67%nat) as Hlast by reflexivity.
  assert (horizon = 1002%nat) as Hhor by reflexivity.
  destruct (decide (startPos data = goal)) as [Heq|Hne].
  - unfold walk_fuel. rewrite Nat.add_1_r. simpl.
    rewrite getitem_idx_map, decide_True by done. simpl.
    rewrite decide_True by done. simpl. eexists _, 0%nat. split; [done|].
    split; [done|]. split; [done|]. split; [rewrite Heq; constructor|]. intros; lia.
  - destruct (stop_levels N goal obs k d _ Hk Hstop Hr Hne ltac:(lia))
      as (i & Hi & Hik & Hv & Hri & Hmin).
    destruct (route_valid _ _ _ _ _ Hri) as [Hs _].
    destruct (walk_descends N goal obs k pi ltac:(lia) Hpi i (walk_fuel N) [] ∅
                (startPos data) Hs Hne Hik Hv ltac:(set_solver))
      as [Hout|(cs & Hw & Hlen)].
    + by destruct (walk_fuel_enough N goal obs pi (startPos data)) as [Hf _].
    + rewrite Hw. simpl. eexists _, (S i). split; [done|]. simpl.
      split; [done|]. split; [rewrite length_fmap; lia|]. done.
Qed.

Lemma shortest_path_witness :
  ∃ resp (d0 : nat),
    train req33 = Ok resp
    ∧ reachable resp = true
    ∧ length (path resp) = S d0
    ∧ route 3 (2, 2) (obstacle_set_of req33) d0 (0, 0)
    ∧ ∀ d' : nat, route 3 (2, 2) (obstacle_set_of req33) d' (0, 0) → (d0 ≤ d')%nat.
Proof.
  apply (shortest_path req33 4).
  - unfold in_bounds. simpl. lia.
  - apply (route_move _ _ _ _ _ D); [reflexivity|intros [=]|reflexivity|].
    apply (route_move _ _ _ _ _ D); [reflexivity|intros [=]|reflexivity|].
    apply (route_move _ _ _ _ _ R); [reflexivity|intros [=]|reflexivity|].
    apply (route_move _ _ _ _ _ R); [reflexivity|intros [=]|reflexivity|].
    apply route_goal.
  - lia.
Defined.

(** ** Routes and what the walk reports *)

Lemma route_manhattan (N : Z) (goal : Cell) (obs : gset Cell) (d : nat) (s : Cell) :
  route N goal obs d s → manhattan s goal ≤ Z.of_nat d.
Proof.
  induction 1 as [|d s a Hvs Hg Hn Hr IH].
  - unfold manhattan. lia.
  - destruct s as [r c], goal as [gr gc], a; unfold manhattan in *; simpl in *; lia.
Qed.

(** The last move of a route enters the goal, a valid cell. *)
Lemma route_goal_valid (N : Z) (goal : Cell) (obs : gset Cell) (d : nat) (s : Cell) :
  route N goal obs d s → s ≠ goal → is_valid N obs goal = true.
Proof.
  induction 1 as [|d s a Hvs Hg Hn Hr IH]; intros Hne; [done|].
  destruct (decide (move a s = goal)) as [<-|Hmg]; [done|]. by apply IH.
Qed.

Section Sound.
Variables (N : Z) (goal : Cell) (obs : gset Cell) (k : nat).
Variable policy_idx : gmap Z (option Action).
Hypothesis Hk : (S k < horizon)%nat.
Hypothesis Hpi :
  ∀ i a, policy_idx !! i = Some a ↔
         ∃ s, s ∈ valid_states N obs ∧ s ≠ goal ∧ index N s = i
              ∧ a = (greedy N goal obs (snapshot N goal obs k) s).1.

(** A trace of the policy that ends at the goal is a route. *)
Lemma policy_trace_route (cs : list Cell) :
  ∀ c, trace N goal obs policy_idx c (cs ++ [goal]) →
       (∀ x, x ∈ cs → x ≠ goal) → route N goal obs (length cs) c.
Proof.
  induction cs as [|x cs IH]; intros c Htr Hcs.
  - apply trace_head in Htr. injection Htr as <-. constructor.
  - pose proof (trace_head _ _ _ _ _ _ Htr) as Hh. simpl in Hh. injection Hh as <-.
    inversion Htr as [c' Hb Heq|c' act cs' Hb Hg Hpol Hv Htr' Heq]; subst;
      [by destruct cs|].
    apply Hpi in Hpol as (s & Hs & Hsg & Hidx & Hact).
    apply index_inj in Hidx; [|by apply (valid_states_in_bounds _ _ _ Hs)|done].
    subst s.
    destruct (greedy_action N goal obs k _ x (value_inv_snapshot N goal obs k ltac:(lia))
                Hk Hs Hsg) as (b & Hgr & _).
    rewrite Hgr in Hact. simpl in Hact. subst act. simpl in Hv, Htr'.
    apply route_move with b.
    + by apply valid_states_is_valid.
    + done.
    + done.
    + apply IH; [done|]. intros y Hy. apply Hcs. by right.
Qed.

End Sound.

(** When the flag is true, the path is the index list of a route. *)
Lemma train_reachable_route (data : Request) (resp : Response) :
  let N := req_gridSize data in
  let goal := goalPos data in
  let obs := obstacle_set_of data in
  train data = Ok resp → reachable resp = true →
  ∃ cs, path resp = index N <$> (cs ++ [goal])
        ∧ route N goal obs (length cs) (startPos data).
Proof.
  intros N goal obs Hresp Hreach.
  destruct (train_result data resp Hresp)
    as (k & cs & c_last & Hk & Hpi & _ & Hpath & Htr & _ & Hcs & Hstop).
  fold N goal obs in Hpi, Hpath, Htr, Hcs, Hstop.
  rewrite Hreach in Hstop. inversion Hstop as [Hlast| | |]. subst c_last.
  exists cs. split; [done|].
  apply (policy_trace_route N goal obs k (policy resp)); [|done..].
  unfold max_iterations, horizon in *. lia.
Qed.

(** X13: the flag is never true without a route.  When the handler returns
    [reachable = true], the goal can be reached from the start cell through
    valid cells, in as many moves as the returned path has steps. *)
Theorem reachable_sound (data : Request) (resp : Response) :
  let N := req_gridSize data in
  let goal := goalPos data in
  let obs := obstacle_set_of data in
  train data = Ok resp → reachable resp = true →
  route N goal obs (pred (length (path resp))) (startPos data).
Proof.
  intros N goal obs Hresp Hreach.
  destruct (train_reachable_route data resp Hresp Hreach) as (cs & -> & Hr).
  by rewrite length_fmap, length_app, Nat.add_1_r.
Qed.

Lemma train_req33_reachable :
  match train req33 with
  | Ok resp => reachable resp = true
  | _ => False
  end.
Proof. vm_compute. reflexivity. Qed.

Lemma reachable_sound_witness :
  ∃ resp,
    train req33 = Ok resp
    ∧ route 3 (2, 2) (obstacle_set_of req33) (pred (length (path resp))) (0, 0).
Proof.
  pose proof train_req33_reachable as H.
  destruct (train req33) as [resp| |] eqn:Hresp; [|destruct H..].
  exists resp. split; [reflexivity|].
  exact (reachable_sound req33 resp Hresp H).
Defined.

(** X14: a goal that is listed as an obstacle is never reached from another
    cell: whenever the handler returns, the flag is [reachable = false]. *)
Theorem goal_on_obstacle (data : Request) (resp : Response) :
  train data = Ok resp →
  startPos data ≠ goalPos data →
  goalPos data ∈ obstacle_set_of data →
  reachable resp = false.
Proof.
  intros Hresp Hne Hobs. destruct (reachable resp) eqn:Hreach; [|done]. exfalso.
  destruct (train_reachable_route data resp Hresp Hreach) as (cs & _ & Hr).
  apply route_goal_valid in Hr; [|done]. apply is_valid_spec in Hr as [_ Hr]. done.
Qed.

Lemma goal_on_obstacle_witness :
  ∃ resp,
    train {| req_gridSize := 2; startPos := (0, 0); goalPos := (1, 1);
             obstacles := [(1, 1)] |} = Ok resp
    ∧ reachable resp = false.
Proof.
  destruct (train_returns {| req_gridSize := 2; startPos := (0, 0); goalPos := (1, 1);
                             obstacles := [(1, 1)] |}) as [resp Hresp].
  - unfold in_bounds. simpl. lia.
  - exists resp. split; [exact Hresp|].
    apply (goal_on_obstacle _ resp Hresp).
    + intros [=].
    + unfold obstacle_set_of. simpl. set_solver.
Defined.

(** ** Beyond the reach of the loop *)

Section Far.
Variables (N : Z) (goal : Cell) (obs : gset Cell).

Lemma q_value_blocked (V : gmap Cell float) (s : Cell) (a : Action) (v : float) :
  s ≠ goal → is_valid N obs (move a s) = false → V !! s = Some v →
  q_value N goal obs V s a = bump v.
Proof.
  intros Hg Hn Hv. unfold q_value, step. rewrite decide_False by done.
  rewrite Hn. simpl. by rewrite Hv.
Qed.

Lemma q_value_plain (V : gmap Cell float) (s : Cell) (a : Action) (v : float) :
  s ≠ goal → is_valid N obs (move a s) = true → move a s ≠ goal →
  V !! move a s = Some v →
  q_value N goal obs V s a = advance v.
Proof.
  intros Hg Hn Hng Hv. unfold q_value, step. rewrite decide_False by done.
  rewrite Hn. simpl. rewrite decide_False by done. by rewrite Hv.
Qed.

(** A state more than [last_round] moves away from the goal is still at 0.0
    when the loop stops. *)
Lemma far_zero (k : nat) (s : Cell) :
  (k ≤ last_round)%nat → s ∈ valid_states N obs → s ≠ goal →
  isolated N obs s = false → Z.of_nat last_round < manhattan s goal →
  snapshot N goal obs k !! s = Some 0.0%float.
Proof.
  intros Hk Hs Hg His Hfar.
  assert (last_round = 67%nat) as Hlast by reflexivity.
  assert (horizon = 1002%nat) as Hhor by reflexivity.
  destruct (snapshot_level N goal obs k s ltac:(lia) Hs Hg His) as [?|(j & Hj & Hv)];
    [done|].
  destruct (level_inv_snapshot N goal obs k ltac:(lia)) as [HA _].
  pose proof (route_manhattan _ _ _ _ _ (HA s j Hs Hg Hj Hv)). lia.
Qed.

End Far.

Lemma scan_ext (q q' : Action → float) (l : list Action) :
  (∀ a, q a = q' a) → ∀ init, scan q l init = scan q' l init.
Proof.
  intros Hq. unfold scan. induction l as [|a l IH]; intros init; simpl; [done|].
  destruct init as [best_a best_value]. by rewrite Hq, IH.
Qed.

(** Down, then right: a route across the grid without obstacles. *)
Lemma open_grid_route (N : Z) (n : nat) :
  ∀ r c, 0 ≤ r < N → 0 ≤ c < N → Z.of_nat n = (N - 1 - r) + (N - 1 - c) →
         route N (N - 1, N - 1) ∅ n (r, c).
Proof.
  induction n as [|n IH]; intros r c Hr Hc Hn.
  - assert (r = N - 1) as -> by lia. assert (c = N - 1) as -> by lia. constructor.
  - assert (∀ r' c', 0 ≤ r' < N → 0 ≤ c' < N → is_valid N ∅ (r', c') = true) as Hval.
    { intros r' c' ? ?. apply is_valid_spec. split; [by unfold in_bounds|set_solver]. }
    destruct (decide (r < N - 1)).
    + apply (route_move _ _ _ _ _ D); simpl.
      * by apply Hval.
      * intros [= ? ?]. lia.
      * apply Hval; lia.
      * apply IH; lia.
    + apply (route_move _ _ _ _ _ R); simpl.
      * by apply Hval.
      * intros [= ? ?]. lia.
      * apply Hval; lia.
      * apply IH; lia.
Qed.

(** X15: the walk gives up on a goal that is too far away.  On a grid
    without obstacles of size 36 or more, from the top left corner to the
    bottom right corner, the loop stops before any value has reached the
    cells around the start: the policy sends (0, 0) down and (1, 0) back up,
    and the handler returns the path [1, gridSize + 1, 1] with
    [reachable = false], although the goal can be reached in
    [2 * (gridSize - 1)] moves. *)
Theorem far_goal_missed (N : Z) :
  36 ≤ N →
  ∃ resp,
    train (req_corners N) = Ok resp
    ∧ path resp = [1; N + 1; 1]
    ∧ reachable resp = false
    ∧ route N (N - 1, N - 1) ∅ (Z.to_nat (2 * (N - 1))) (0, 0).
Proof.
  intros HN.
  destruct (train_stop_round (req_corners N)) as (k & pi & qi & Hk & _ & Hpi & _ & ->).
  change (obstacle_set_of (req_corners N)) with (∅ : gset Cell) in *.
  change (req_gridSize (req_corners N)) with N in *.
  change (goalPos (req_corners N)) with (N - 1, N - 1) in *.
  change (startPos (req_corners N)) with (0, 0) in *.
  set (goal := (N - 1, N - 1)) in *.
  assert (last_round = 67%nat) as Hlast by reflexivity.
  assert (∀ r c, 0 ≤ r < N → 0 ≤ c < N → is_valid N ∅ (r, c) = true) as Hval.
  { intros r c ? ?. apply is_valid_spec. split; [by unfold in_bounds|set_solver]. }
  assert (∀ r c, 0 ≤ r → 0 ≤ c → r + c ≤ 2 → (r, c) ≠ goal) as Hne.
  { intros r c ? ? ? [= ? ?]. lia. }
  assert (∀ r c, 0 ≤ r → 0 ≤ c → r + c ≤ 2 →
            snapshot N goal ∅ k !! (r, c) = Some 0.0%float) as Hzero.
  { intros r c ? ? ?. apply far_zero.
    - lia.
    - apply valid_states_is_valid, Hval; lia.
    - by apply Hne.
    - apply isolated_false. exists D. simpl. apply Hval; lia.
    - unfold manhattan, goal. simpl. lia. }
  assert (∀ r c, r < 0 ∨ c < 0 → is_valid N ∅ (r, c) = false) as Hinv.
  { intros r c ?. apply not_true_is_false.
    intros [Hb _]%is_valid_spec. unfold in_bounds in Hb. simpl in Hb. lia. }
  assert (pi !! index N (0, 0) = Some (Some D)) as HpD.
  { apply Hpi. exists (0, 0). split; [apply valid_states_is_valid, Hval; lia|].
    split; [apply Hne; lia|]. split; [done|].
    unfold greedy.
    rewrite (scan_ext _ (λ a, match a with
                              | U | L => bump 0.0%float
                              | D | R => advance 0.0%float
                              end)); [vm_compute; reflexivity|].
    intros []; (apply q_value_blocked || apply q_value_plain); cbn [move];
      try (apply Hzero; lia); try (apply Hne; lia);
      try (apply Hval; lia); try (apply Hinv; lia). }
  assert (pi !! index N (1, 0) = Some (Some U)) as HpU.
  { apply Hpi. exists (1, 0). split; [apply valid_states_is_valid, Hval; lia|].
    split; [apply Hne; lia|]. split; [done|].
    unfold greedy.
    rewrite (scan_ext _ (λ a, match a with
                              | L => bump 0.0%float
                              | U | D | R => advance 0.0%float
                              end)); [vm_compute; reflexivity|].
    intros []; (apply q_value_blocked || apply q_value_plain); cbn [move];
      try (apply Hzero; lia); try (apply Hne; lia);
      try (apply Hval; lia); try (apply Hinv; lia). }
  rewrite (walk_two_cycle N goal ∅ pi (0, 0) (1, 0) (Some D) (Some U)).
  - simpl. eexists. split; [done|]. simpl. split; [|split; [done|]].
    + unfold index. simpl. f_equal. f_equal. lia.
    + apply open_grid_route; lia.
  - apply Hval; lia.
  - apply Hval; lia.
  - apply Hne; lia.
  - apply Hne; lia.
  - intros [=].
  - done.
  - done.
  - done.
  - done.
  - unfold walk_fuel. assert (36 * 36 ≤ N * N) by nia. lia.
Qed.

Lemma far_goal_missed_witness :
  ∃ resp,
    train (req_corners 36) = Ok resp
    ∧ path resp = [1; 36 + 1; 1]
    ∧ reachable resp = false
    ∧ route 36 (36 - 1, 36 - 1) ∅ (Z.to_nat (2 * (36 - 1))) (0, 0).
Proof. apply (far_goal_missed 36). lia. Defined.

(** ** The obstacles that matter *)

Lemma foldM_ext {A S} (f g : S → A → outcome S) (l : list A) :
  (∀ s x, x ∈ l → f s x = g s x) → ∀ s, foldM f s l = foldM g s l.
Proof.
  induction l as [|x l IH]; intros Hfg s; simpl; [done|].
  rewrite (Hfg s x) by by left. destruct (g s x); simpl; [|done..].
  apply IH. intros s' y Hy. apply Hfg. by right.
Qed.

Lemma list_bind_ext_in {A B} (f g : A → list B) (l : list A) :
  (∀ x, x ∈ l → f x = g x) → l ≫= f = l ≫= g.
Proof.
  induction l as [|x l IH]; intros Hfg; [done|]. csimpl.
  rewrite (Hfg x) by by left. f_equal. apply IH. intros y Hy. apply Hfg. by right.
Qed.

Section Agree.
Variables (N : Z) (goal : Cell) (obs obs' : gset Cell).
Hypothesis Hagree : ∀ s, in_bounds N s → (s ∈ obs ↔ s ∈ obs').

Lemma is_valid_agree (s : Cell) : is_valid N obs s = is_valid N obs' s.
Proof.
  destruct (is_valid N obs s) eqn:H1, (is_valid N obs' s) eqn:H2; try done.
  - apply is_valid_spec in H1 as [Hb Ho]. apply not_true_iff_false in H2.
    destruct H2. apply is_valid_spec. split; [done|]. by rewrite <- Hagree.
  - apply is_valid_spec in H2 as [Hb Ho]. apply not_true_iff_false in H1.
    destruct H1. apply is_valid_spec. split; [done|]. by rewrite Hagree.
Qed.

Lemma valid_states_agree : valid_states N obs = valid_states N obs'.
Proof.
  unfold valid_states. apply list_bind_ext_in. intros r Hr%elem_of_range.
  apply list_bind_ext_in. intros c Hc%elem_of_range.
  assert (in_bounds N (r, c)) as Hb by done.
  apply Hagree in Hb. destruct Hb as [Hb1 Hb2].
  destruct (decide ((r, c) ∉ obs)) as [H1|H1], (decide ((r, c) ∉ obs')) as [H2|H2];
    try reflexivity.
  - destruct H1. apply Hb2. by apply dec_stable.
  - destruct H2. apply Hb1. by apply dec_stable.
Qed.

Lemma step_agree (s : Cell) (a : Action) : step N goal obs s a = step N goal obs' s a.
Proof. unfold step. by rewrite is_valid_agree. Qed.

Lemma init_V_agree : init_V N obs = init_V N obs'.
Proof. unfold init_V. by rewrite valid_states_agree. Qed.

Lemma best_action_value_agree (V : gmap Cell float) (s : Cell) :
  best_action_value N goal obs V s = best_action_value N goal obs' V s.
Proof.
  unfold best_action_value. apply foldM_ext. intros best a _. by rewrite step_agree.
Qed.

Lemma sweep_agree (V : gmap Cell float) : sweep N goal obs V = sweep N goal obs' V.
Proof.
  unfold sweep. rewrite valid_states_agree. apply foldM_ext.
  intros [delta new_V] s _. by rewrite best_action_value_agree.
Qed.

Lemma value_iteration_agree (n : nat) :
  ∀ V, value_iteration N goal obs n V = value_iteration N goal obs' n V.
Proof.
  induction n as [|n IH]; intros V; simpl; [done|]. rewrite sweep_agree.
  destruct (sweep N goal obs' V) as [[delta new_V]| |]; simpl; [|done..].
  by rewrite IH.
Qed.

Lemma best_action_agree (V : gmap Cell float) (s : Cell) :
  best_action N goal obs V s = best_action N goal obs' V s.
Proof.
  unfold best_action. apply foldM_ext. intros [best_a best_value] a _.
  by rewrite step_agree.
Qed.

Lemma extract_agree (V : gmap Cell float) : extract N goal obs V = extract N goal obs' V.
Proof.
  unfold extract. rewrite valid_states_agree. apply foldM_ext.
  intros [pol qv] s _. by rewrite best_action_agree.
Qed.

Lemma reindex_agree (pol : gmap Cell (option Action)) (qv : gmap Cell float) :
  reindex N goal obs pol qv = reindex N goal obs' pol qv.
Proof. unfold reindex. by rewrite valid_states_agree. Qed.

Lemma walk_agree (policy_idx : gmap Z (option Action)) (fuel : nat) :
  ∀ path visited current,
    walk N goal obs fuel policy_idx path visited current
    = walk N goal obs' fuel policy_idx path visited current.
Proof.
  induction fuel as [|fuel IH]; intros path visited current; simpl; [done|].
  destruct (getitem (idx_map N) current); simpl; [|done..].
  repeat case_decide; try done.
  destruct (policy_idx !! _); [|done].
  rewrite (valid_for_path_is_valid N obs), (valid_for_path_is_valid N obs'),
    is_valid_agree.
  destruct (is_valid N obs' _); simpl; [|done]. apply IH.
Qed.

End Agree.

(** X16: only the obstacles on the grid count.  Two requests with the same
    grid size, start and goal whose obstacle lists name the same cells of the
    grid get the same answer: the order of the list, repeated entries and
    entries off the grid make no difference. *)
Theorem obstacles_on_grid (data data' : Request) :
  req_gridSize data = req_gridSize data' →
  startPos data = startPos data' →
  goalPos data = goalPos data' →
  (∀ s, in_bounds (req_gridSize data) s → (s ∈ obstacles data ↔ s ∈ obstacles data')) →
  train data = train data'.
Proof.
  intros HN Hstart Hgoal Hobs. unfold train. rewrite <- HN, <- Hstart, <- Hgoal.
  set (N := req_gridSize data). set (goal := goalPos data).
  set (obs := list_to_set (obstacles data) : gset Cell).
  set (obs' := list_to_set (obstacles data') : gset Cell).
  assert (∀ s, in_bounds N s → (s ∈ obs ↔ s ∈ obs')) as Hagree.
  { intros s Hs. unfold obs, obs'. rewrite !elem_of_list_to_set. by apply Hobs. }
  rewrite (init_V_agree N obs obs' Hagree).
  rewrite (value_iteration_agree N goal obs obs' Hagree).
  destruct (value_iteration N goal obs' max_iterations (init_V N obs')) as [V| |];
    simpl; [|done..].
  rewrite (extract_agree N goal obs obs' Hagree).
  destruct (extract N goal obs' V) as [[pol qv]| |]; simpl; [|done..].
  rewrite (reindex_agree N goal obs obs' Hagree).
  destruct (reindex N goal obs' pol qv) as [[pi qi]| |]; simpl; [|done..].
  by rewrite (walk_agree N goal obs obs' Hagree).
Qed.

Lemma obstacles_on_grid_witness :
  train {| req_gridSize := 2; startPos := (0, 0); goalPos := (1, 1);
           obstacles := [(0, 1); (5, 5); (0, 1)] |}
  = train {| req_gridSize := 2; startPos := (0, 0); goalPos := (1, 1);
             obstacles := [(-1, 0); (0, 1)] |}.
Proof.
  apply obstacles_on_grid; try reflexivity.
  intros [r c] [Hr Hc]. simpl in Hr, Hc. simpl. rewrite !elem_of_cons, !elem_of_nil.
  split; intros H; repeat destruct H as [H|H]; try (injection H as ? ?; lia); auto.
Defined.

(** ** The policy map and the sign of the Q-values *)

(** X17: the policy map points along shortest routes.  In every result, the
    policy entry of a cell other than the goal from which the goal can be
    reached in at most 67 moves through valid cells is an action whose move
    leads to a valid cell one move closer to the goal: from there a route of
    [d0] moves reaches the goal, and no route from the cell itself has fewer
    than [d0 + 1] moves. *)
Theorem policy_along_shortest_route (data : Request) (resp : Response) (c : Cell)
    (d : nat) :
  let N := req_gridSize data in
  let goal := goalPos data in
  let obs := obstacle_set_of data in
  train data = Ok resp → route N goal obs d c → c ≠ goal → (d ≤ 67)%nat →
  ∃ (b : Action) (d0 : nat),
    policy resp !! index N c = Some (Some b)
    ∧ is_valid N obs (move b c) = true
    ∧ route N goal obs d0 (move b c)
    ∧ ∀ d' : nat, route N goal obs d' c → (S d0 ≤ d')%nat.
Proof.
  intros N goal obs Hresp Hr Hg Hd.
  destruct (train_stop_round data) as (k & pi & qi & Hk & Hstop & Hpi & _ & Htrain).
  fold N goal obs in Hstop, Hpi, Htrain. rewrite Htrain in Hresp.
  apply walk_response in Hresp as (-> & _ & _).
  assert (last_round = 67%nat) as Hlast by reflexivity.
  assert (horizon = 1002%nat) as Hhor by reflexivity.
  destruct (stop_levels N goal obs k d c Hk Hstop Hr Hg ltac:(lia))
    as (i & Hi & Hik & Hv & Hri & Hmin).
  destruct (route_valid _ _ _ _ _ Hri) as [Hs _].
  destruct (greedy_descends N goal obs k i c ltac:(lia) Hs Hg Hik Hv)
    as (b & Hb & Hmove & Hnext).
  exists b, i. split; [apply Hpi; exists c; by rewrite Hb|]. split; [done|].
  split; [|done]. destruct i as [|j].
  - rewrite Hnext. constructor.
  - destruct Hnext as [Hng Hnv].
    destruct (level_inv_snapshot N goal obs k ltac:(lia)) as [HA _].
    apply HA; [by apply valid_states_is_valid|done|lia|done].
Qed.

Lemma policy_along_shortest_route_witness :
  ∃ resp (b : Action) (d0 : nat),
    train req33 = Ok resp
    ∧ policy resp !! index 3 (1, 2) = Some (Some b)
    ∧ is_valid 3 (obstacle_set_of req33) (move b (1, 2)) = true
    ∧ route 3 (2, 2) (obstacle_set_of req33) d0 (move b (1, 2))
    ∧ ∀ d' : nat, route 3 (2, 2) (obstacle_set_of req33) d' (1, 2) → (S d0 ≤ d')%nat.
Proof.
  destruct (train_returns req33) as [resp Hresp].
  - unfold in_bounds. simpl. lia.
  - destruct (policy_along_shortest_route req33 resp (1, 2) 1 Hresp) as (b & d0 & H).
    + apply (route_move _ _ _ _ _ D); [reflexivity|intros [=]|reflexivity|].
      apply route_goal.
    + intros [=].
    + lia.
    + exists resp, b, d0. split; [exact Hresp|exact H].
Defined.

Lemma iso_neg_checked : forallb iso_neg_check (orbit bump horizon 0.0%float) = true.
Proof. vm_compute. reflexivity. Qed.

Lemma iso_negative (j : nat) : (j < horizon)%nat → (iso (S j) <? 0.0)%float = true.
Proof. apply (forallb_orbit _ iso_neg_check _ _ iso_neg_checked). Qed.

(** X18: a negative Q-value marks a boxed-in cell.  In every result, the
    Q-value of a non-obstacle cell of the grid other than the goal is
    negative exactly when all four moves from the cell are invalid. *)
Theorem negative_q_value (data : Request) (resp : Response) (c : Cell) (q : float) :
  let N := req_gridSize data in
  let obs := obstacle_set_of data in
  train data = Ok resp → in_bounds N c → c ≠ goalPos data →
  qValues resp !! index N c = Some q →
  (q <? 0.0)%float = true ↔ ∀ a, is_valid N obs (move a c) = false.
Proof.
  intros N obs Hresp Hb Hg Hq.
  destruct (train_result data resp Hresp) as (k & cs & c_last & Hk & _ & Hqi & _).
  fold N obs in Hqi. destruct (proj1 (Hqi _ _) Hq) as (s & Hs & Hi & Hv).
  apply (index_inj N s c) in Hi; [|by apply (valid_states_in_bounds N obs)|done].
  subst s. rewrite Hv. clear Hv. unfold new_value. rewrite decide_False by done.
  destruct (snapshot_shape N (goalPos data) obs k ltac:(lia)) as (Hvi & Hh & _).
  pose proof (greedy_value N (goalPos data) obs k _ c Hvi Hh Hs Hg) as Hval.
  destruct (isolated N obs c) eqn:Hiso.
  - rewrite Hval. split.
    + intros _ a. by apply (isolated_true N (goalPos data) obs c a).
    + intros _. apply iso_negative. lia.
  - destruct (good_range (S k) _ ltac:(lia) Hval) as [Hlo _].
    apply fle_nlt in Hlo. rewrite Hlo. split; [done|]. intros Hall.
    apply isolated_false in Hiso as [a Ha]. by rewrite Hall in Ha.
Qed.

Lemma negative_q_value_witness :
  ∃ resp q,
    train req33 = Ok resp
    ∧ qValues resp !! index 3 (0, 0) = Some q
    ∧ ((q <? 0.0)%float = true
       ↔ ∀ a, is_valid 3 (obstacle_set_of req33) (move a (0, 0)) = false).
Proof.
  pose proof train_req33_q_at_start as H.
  destruct (train req33) as [resp| |] eqn:Hresp; [|destruct H..].
  destruct H as [q Hq].
  exists resp, q. split; [reflexivity|]. split; [exact Hq|].
  apply (negative_q_value req33 resp (0, 0) q Hresp); [|intros [=]|exact Hq].
  unfold in_bounds. simpl. lia.
Defined.
